(** * Monte Carlo tree search player for knight's Isolation

    A shallow embedding of [my_custom_player.py]: the search-tree node
    [MCTSNode], the engine [MCTSSearch] and the turn policy
    [CustomPlayer.get_action], followed by the properties the design
    document states about them.

    Python objects live in a store: a node is an index into a list of node
    records, so that [parent] links and [children] lists alias the same
    mutable nodes, as they do in the program.  Floating-point values are
    binary64 ([PrimFloat]); [math.log] is the one library function Rocq has
    no counterpart for and is a parameter of the development.  The sources
    of non-determinism ([random.choice], [time.time]) are oracles that are
    consulted in call order. *)

From Stdlib Require Import ZArith Floats Reals Lia Lra.
From stdpp Require Import base option list relations.

Close Scope R_scope.
Local Open Scope Z_scope.

(** ** Python outcomes *)

Inductive exn : Set :=
| ValueError
| IndexError
| ZeroDivisionError
| OverflowError.

(** [Outside]: the run leaves the model, because a loop or a recursion
    needed more steps than the fuel it was given, or because an index does
    not point into the store (which no Python reference can do). *)
Inductive res (A : Type) : Type :=
| Ok (a : A)
| Raise (e : exn)
| Outside.
Arguments Ok {A} a.
Arguments Raise {A} e.
Arguments Outside {A}.

Global Instance res_ret : MRet res := λ A a, Ok a.
Global Instance res_bind : MBind res := λ A B k r,
  match r with
  | Ok a => k a
  | Raise e => Raise e
  | Outside => Outside
  end.

(** ** Numbers *)

(** An [int] used where a [float] is expected: rounded to nearest even. *)
Definition float_of_int (z : Z) : float :=
  SF2Prim (binary_normalize prec emax z 0 false).

(** [a / b] on two [int]s.  Both operands convert exactly below [2^53],
    where CPython divides the two doubles. *)
Definition py_truediv (a b : Z) : res float :=
  if decide (b = 0) then Raise ZeroDivisionError
  else Ok (float_of_int a / float_of_int b)%float.

(** [math.sqrt]: a domain error below zero. *)
Definition math_sqrt (x : float) : res float :=
  if (x <? 0)%float then Raise ValueError else Ok (PrimFloat.sqrt x).

(** [math.ceil] of a [float], an [int]. *)
Definition math_ceil (x : float) : res Z :=
  match Prim2SF x with
  | S754_zero _ => Ok 0
  | S754_infinity _ => Raise OverflowError
  | S754_nan => Raise ValueError
  | S754_finite s m e =>
      Ok (if (0 <=? e) then (if s then - Z.shiftl (Z.pos m) e else Z.shiftl (Z.pos m) e)
          else if s then - (Z.pos m / 2 ^ (- e))
          else - ((- Z.pos m) / 2 ^ (- e)))
  end.

(** [max] of a list of [int]s: [ValueError] on the empty list. *)
Definition py_max (l : list Z) : res Z :=
  match l with
  | [] => Raise ValueError
  | x :: l' => Ok (foldl Z.max x l')
  end.

(** [l.index(x)]: the first position holding [x]. *)
Fixpoint py_index (x : Z) (l : list Z) : res nat :=
  match l with
  | [] => Raise ValueError
  | y :: l' => if decide (y = x) then Ok 0%nat
               else (i ← py_index x l' ; Ok (S i))
  end.

(** [l[i]] for an index within the list. *)
Definition py_getitem {A} (l : list A) (i : nat) : res A :=
  match l !! i with
  | Some x => Ok x
  | None => Raise IndexError
  end.

(** [l.remove(x)]: drops the first element equal to [x]. *)
Fixpoint list_remove `{EqDecision A} (x : A) (l : list A) : res (list A) :=
  match l with
  | [] => Raise ValueError
  | y :: l' => if decide (y = x) then Ok l'
               else (r ← list_remove x l' ; Ok (y :: r))
  end.

(** ** The game, as the player sees it

    The [isolation] package is used through these operations only. *)
Module isolation.
Class Isolation (State Action Loc : Type) := {
  player : State → Z;
  actions : State → list Action;
  result : State → Action → State;
  terminal_test : State → bool;
  utility : State → Z → float;
  ply_count : State → Z;
  locs : State → Z → Loc;
  liberties : State → Loc → list Loc;
}.
End isolation.

(** ** What the interpreter supplies

    [log] is [math.log] on its domain; the [k]-th call of [random.choice]
    draws [random_source k]; the [k]-th call of [time.time] reads
    [wall_clock k] seconds. *)
Class Runtime := {
  log : float → float;
  random_source : nat → nat;
  wall_clock : nat → float;
}.

Section Player.

Context {State Action Loc : Type} {game : isolation.Isolation State Action Loc}.
Context {action_eq : EqDecision Action} {runtime : Runtime}.

(** [math.log]: a domain error at zero and below. *)
Definition math_log (x : float) : res float :=
  if (x <=? 0)%float then Raise ValueError else Ok (log x).

(** ** MCTSNode *)

Record MCTSNode := mkNode {
  state : State;
  parent : option nat;
  children : list nat;
  action : option Action;
  visit : Z;
  utility : Z;
  untried_actions : list Action;
}.

(** [MCTSNode.__init__]; [state.actions()] builds a list of its own at each
    call, so the untried actions of two nodes never share a list. *)
Definition MCTSNode_init (st : State) (act : option Action) (par : option nat) : MCTSNode :=
  {| state := st; parent := par; children := []; action := act;
     visit := 0; utility := 0; untried_actions := isolation.actions st |}.

Definition is_fully_expanded (self : MCTSNode) : bool :=
  bool_decide (length (untried_actions self) = 0%nat).

Definition is_terminal_node (self : MCTSNode) : bool :=
  isolation.terminal_test (state self).

(** The player whose liberties count positively is the one to move in
    [st]. *)
Definition heuristic_score (st : State) : Z :=
  let player_id := isolation.player st in
  let own_loc := isolation.locs st player_id in
  let opp_loc := isolation.locs st (1 - player_id) in
  let own_liberties := isolation.liberties st own_loc in
  let opp_liberties := isolation.liberties st opp_loc in
  Z.of_nat (length own_liberties) - Z.of_nat (length opp_liberties).

(** The store of nodes. *)
Local Abbreviation store := (list MCTSNode).

Definition deref (h : store) (i : nat) : res MCTSNode :=
  match h !! i with
  | Some n => Ok n
  | None => Outside
  end.

(** The score of child [t] of [self], lines 49-50. *)
Definition score (self t : MCTSNode) (c_param : float) : res float :=
  (q ← py_truediv (utility t) (visit t) ;
   r ← py_truediv (visit self) (visit t) ;
   l ← math_log r ;
   s ← math_sqrt (2 * l)%float ;
   Ok (q + c_param * s)%float).

(** The [for t in self.children] loop of [best_child]. *)
Fixpoint best_child_loop (h : store) (self : MCTSNode) (c_param : float)
    (ts : list nat) (maxscore : float) (maxactions : list nat) : res (float * list nat) :=
  match ts with
  | [] => Ok (maxscore, maxactions)
  | t :: ts' =>
      (tn ← deref h t ;
       sc ← score self tn c_param ;
       if (maxscore <? sc)%float then best_child_loop h self c_param ts' sc [t]
       else if (sc =? maxscore)%float then
         best_child_loop h self c_param ts' maxscore (maxactions ++ [t])
       else best_child_loop h self c_param ts' maxscore maxactions)
  end.

Fixpoint helper_scores_of (h : store) (xs : list nat) : res (list Z) :=
  match xs with
  | [] => Ok []
  | x :: xs' =>
      (xn ← deref h x ;
       rest ← helper_scores_of h xs' ;
       Ok (heuristic_score (state xn) :: rest))
  end.

Definition best_child (h : store) (self : nat) (c_param : float) : res nat :=
  (sn ← deref h self ;
   '(_, maxactions) ← best_child_loop h sn c_param (children sn) (-999)%float [] ;
   helper_scores ← helper_scores_of h maxactions ;
   m ← py_max helper_scores ;
   i ← py_index m helper_scores ;
   py_getitem maxactions i).

(** ** The mutable world

    Besides the store: the node counter of the search object, the queue the
    player answers on, and how often each oracle was consulted. *)
Record world := mkWorld {
  heap : store;
  node_no : Z;
  queue : list (option Action);
  rand_calls : nat;
  time_calls : nat;
}.

Definition with_heap (h : store) (w : world) : world :=
  {| heap := h; node_no := node_no w; queue := queue w;
     rand_calls := rand_calls w; time_calls := time_calls w |}.

(** A statement: it may raise or leave the model, and what it did to the
    world before that stays done. *)
Definition M (A : Type) : Type := world → res A * world.

Global Instance M_ret : MRet M := λ A a w, (Ok a, w).
Global Instance M_bind : MBind M := λ A B k m w,
  match m w with
  | (Ok a, w') => k a w'
  | (Raise e, w') => (Raise e, w')
  | (Outside, w') => (Outside, w')
  end.

Definition lift {A} (r : res A) : M A := λ w, (r, w).

Definition get_node (i : nat) : M MCTSNode := λ w, (deref (heap w) i, w).

Definition update_node (i : nat) (f : MCTSNode → MCTSNode) : M unit :=
  λ w, (Ok (), with_heap (alter f i (heap w)) w).

(** A new object takes the next free index. *)
Definition new_node (n : MCTSNode) : M nat :=
  λ w, (Ok (length (heap w)), with_heap (heap w ++ [n]) w).

(** The world after one more draw, and after one more look at the clock. *)
Definition drawn (w : world) : world :=
  {| heap := heap w; node_no := node_no w; queue := queue w;
     rand_calls := S (rand_calls w); time_calls := time_calls w |}.

Definition ticked (w : world) : world :=
  {| heap := heap w; node_no := node_no w; queue := queue w;
     rand_calls := rand_calls w; time_calls := S (time_calls w) |}.

(** [random.choice]: [IndexError] on an empty sequence. *)
Definition random_choice {A} (seq : list A) : M A := λ w,
  match seq !! (random_source (rand_calls w) `mod` length seq)%nat with
  | Some x => (Ok x, drawn w)
  | None => (Raise IndexError, w)
  end.

Definition time_time : M float := λ w, (Ok (wall_clock (time_calls w)), ticked w).

Definition set_untried_actions (l : list Action) (n : MCTSNode) : MCTSNode :=
  {| state := state n; parent := parent n; children := children n; action := action n;
     visit := visit n; utility := utility n; untried_actions := l |}.

Definition append_child (c : nat) (n : MCTSNode) : MCTSNode :=
  {| state := state n; parent := parent n; children := children n ++ [c];
     action := action n; visit := visit n; utility := utility n;
     untried_actions := untried_actions n |}.

(** [self.visit += 1; self.utility += result] *)
Definition record_result (result : Z) (n : MCTSNode) : MCTSNode :=
  {| state := state n; parent := parent n; children := children n; action := action n;
     visit := visit n + 1; utility := utility n + result;
     untried_actions := untried_actions n |}.

Definition rollout_policy (possible_moves : list Action) : M Action :=
  random_choice possible_moves.

Definition expand (self : nat) : M nat :=
  sn ← get_node self;
  act ← random_choice (untried_actions sn);
  untried ← lift (list_remove act (untried_actions sn));
  update_node self (set_untried_actions untried);;
  let next_state := isolation.result (state sn) act in
  child_node ← new_node (MCTSNode_init next_state (Some act) (Some self));
  update_node self (append_child child_node);;
  mret child_node.

(** The [while] loop of [playout_policy]. *)
Fixpoint playout_loop (fuel : nat) (rollout_state : State) : M State :=
  match fuel with
  | O => lift Outside
  | S fuel' =>
      if negb (isolation.terminal_test rollout_state) then
        a ← rollout_policy (isolation.actions rollout_state);
        playout_loop fuel' (isolation.result rollout_state a)
      else mret rollout_state
  end.

Definition playout_policy (fuel : nat) (self : nat) (player_id : Z) : M Z :=
  sn ← get_node self;
  rollout_state ← playout_loop fuel (state sn);
  if (isolation.utility rollout_state (1 - isolation.player rollout_state) =? infinity)%float
  then mret 1
  else if (isolation.utility rollout_state (1 - isolation.player rollout_state)
             =? neg_infinity)%float
  then mret (-1)
  else mret 0.

(** [if self.parent:] asks whether there is a parent: a node is an object
    without [__bool__] or [__len__]. *)
Fixpoint backpropagate (fuel : nat) (self : nat) (result : Z) : M unit :=
  match fuel with
  | O => lift Outside
  | S fuel' =>
      sn ← get_node self;
      update_node self (record_result result);;
      let result := - result in
      match parent sn with
      | Some p => backpropagate fuel' p result
      | None => mret ()
      end
  end.

(** ** MCTSSearch *)

Record MCTSSearch := mkSearch {
  root : nat;
  player_id : Z;
}.

Definition set_node_no (k : Z) : M unit := λ w,
  (Ok (), {| heap := heap w; node_no := k; queue := queue w;
             rand_calls := rand_calls w; time_calls := time_calls w |}).

Definition MCTSSearch_init (node : nat) : M MCTSSearch :=
  rn ← get_node node;
  set_node_no 1;;
  mret {| root := node; player_id := isolation.player (state rn) |}.

(** [self.node_no += 1] *)
Definition incr_node_no : M unit := λ w, set_node_no (node_no w + 1) w.

(** [best_child] reads the store and leaves it as it is. *)
Definition best_child_of (self : nat) (c_param : float) : M nat :=
  λ w, (best_child (heap w) self c_param, w).

(** The [while] loop of [tree_policy], from [current_node] on. *)
Fixpoint tree_policy_loop (fuel : nat) (current_node : nat) : M nat :=
  match fuel with
  | O => lift Outside
  | S fuel' =>
      cn ← get_node current_node;
      if negb (is_terminal_node cn) then
        if negb (is_fully_expanded cn) then
          new ← expand current_node;
          incr_node_no;;
          mret new
        else
          next ← best_child_of current_node 0.5%float;
          tree_policy_loop fuel' next
      else mret current_node
  end.

Definition tree_policy (fuel : nat) (self : MCTSSearch) : M nat :=
  tree_policy_loop fuel (root self).

(** One turn of the loop of [best_action], lines 132-134; [v] is handed
    back for the statements below. *)
Definition simulate (fuel : nat) (self : MCTSSearch) : M nat :=
  v ← tree_policy fuel self;
  reward ← playout_policy fuel v (player_id self);
  backpropagate fuel v reward;;
  mret v.

(** Line 130: [math.ceil(simulations_time * 0.75)], in milliseconds. *)
Definition allowed_time_of (simulations_time : Z) : res Z :=
  math_ceil (float_of_int simulations_time * 0.75)%float.

(** The test of the [while] loop of [best_action], line 131. *)
Definition within_allowed_time (start now : float) (allowed_time : Z) : bool :=
  ((now - start) * 1000 <=? float_of_int allowed_time)%float.

(** The [while] loop of [best_action], for at most [turns] turns; the result
    lists the node [v] of each turn, oldest first (the program keeps none of
    them). *)
Fixpoint search_loop (turns fuel : nat) (self : MCTSSearch) (start : float)
    (allowed_time : Z) : M (list nat) :=
  match turns with
  | O => lift Outside
  | S turns' =>
      now ← time_time;
      if within_allowed_time start now allowed_time then
        v ← simulate fuel self;
        vs ← search_loop turns' fuel self start allowed_time;
        mret (v :: vs)
      else mret []
  end.

Definition best_action (fuel : nat) (self : MCTSSearch) (simulations_time : Z)
    (c_param : float) : M (option Action) :=
  start ← time_time;
  allowed_time ← lift (allowed_time_of simulations_time);
  search_loop fuel fuel self start allowed_time;;
  next_node ← best_child_of (root self) c_param;
  nn ← get_node next_node;
  let next_action := action nn in
  mret next_action.

(** ** CustomPlayer *)

Definition queue_put (item : option Action) : M unit := λ w,
  (Ok (), {| heap := heap w; node_no := node_no w; queue := queue w ++ [item];
             rand_calls := rand_calls w; time_calls := time_calls w |}).

(** [try: ... except Exception as e: print(...)] *)
Definition try_except (body : M unit) : M unit := λ w,
  match body w with
  | (Raise _, w') => (Ok (), w')
  | r => r
  end.

(** [get_action], with the search it starts at lines 197-198 as [engine].
    [if next_action:] asks whether an action came back: the moves of the
    game are objects that count as true. *)
Definition get_action_with (engine : State → M (option Action)) (st : State) : M unit :=
  try_except
    (if isolation.terminal_test st || bool_decide (isolation.ply_count st < 2) then
       a ← random_choice (isolation.actions st);
       queue_put (Some a)
     else
       next_action ← engine st;
       match next_action with
       | Some a => queue_put (Some a)
       | None =>
           match isolation.actions st with
           | _ :: _ =>
               a ← random_choice (isolation.actions st);
               queue_put (Some a)
           | [] => queue_put None
           end
       end).

(** Lines 197-198: a fresh root for [st], searched for 150 ms. *)
Definition mcts_engine (fuel : nat) (st : State) : M (option Action) :=
  node ← new_node (MCTSNode_init st None None);
  mcts ← MCTSSearch_init node;
  best_action fuel mcts 150 0.5%float.

Definition get_action (fuel : nat) (st : State) : M unit :=
  get_action_with (mcts_engine fuel) st.

(** ** Notions the statements use *)

(** [n'] is [n] up to its statistics. *)
Definition same_frame (n n' : MCTSNode) : Prop :=
  state n' = state n ∧ parent n' = parent n ∧ children n' = children n
  ∧ action n' = action n ∧ untried_actions n' = untried_actions n.

(** The actions of the children of [n], in child order. *)
Definition child_actions (h : store) (n : MCTSNode) : list (option Action) :=
  (λ c, h !! c ≫= action) <$> children n.

(** Every child is an object of the store. *)
Definition children_in_store (h : store) : Prop :=
  ∀ i n c, h !! i = Some n → c ∈ children n → (c < length h)%nat.

(** The children of a node and its untried actions are, one for one, the
    legal actions of its state. *)
Definition expansion_ok (h : store) : Prop :=
  children_in_store h
  ∧ ∀ i n, h !! i = Some n →
      child_actions h n ++ (Some <$> untried_actions n)
      ≡ₚ Some <$> isolation.actions (state n).

(** What the methods of [MCTSNode] do to the store: a node is built, a node
    is expanded, a result is propagated (each also when it fails half-way). *)
Inductive node_op : store → store → Prop :=
| op_init st act par h :
    node_op h (h ++ [MCTSNode_init st act par])
| op_expand i w :
    node_op (heap w) (heap (snd (expand i w)))
| op_backpropagate fuel i r w :
    node_op (heap w) (heap (snd (backpropagate fuel i r w))).

(** [l] lists [i], its parent, its grandparent, ... up to a node that has
    no parent. *)
Inductive path_to_root (h : store) : nat → list nat → Prop :=
| path_root i n :
    h !! i = Some n → parent n = None → path_to_root h i [i]
| path_parent i n p l :
    h !! i = Some n → parent n = Some p → path_to_root h p l →
    path_to_root h i (i :: l).

(** The same list, computed: [fuel] bounds its length. *)
Fixpoint lineage (fuel : nat) (h : store) (i : nat) : list nat :=
  match fuel with
  | O => []
  | S fuel' =>
      match h !! i with
      | None => []
      | Some n =>
          i :: match parent n with
               | Some p => lineage fuel' h p
               | None => []
               end
      end
  end.

(** Objects are numbered as they are created, parents before children, so a
    node of number [i] has at most [i] ancestors. *)
Definition ancestors (h : store) (i : nat) : list nat := lineage (S i) h i.

(** How many of the propagations started at the nodes [vs] went through [j]. *)
Definition passes (h : store) (vs : list nat) (j : nat) : nat :=
  length (filter (λ v, j ∈ ancestors h v) vs).

Definition visit_of (h : store) (i : nat) : Z :=
  match h !! i with
  | Some n => visit n
  | None => 0
  end.

Definition sum_visits (h : store) (cs : list nat) : Z :=
  foldr (λ c acc, visit_of h c + acc) 0 cs.

(** Parent links and child lists agree, and point backwards in creation
    order. *)
Definition links_ok (h : store) : Prop :=
  ∀ i n, h !! i = Some n →
    (∀ p, parent n = Some p → (p < i)%nat)
    ∧ (∀ c, c ∈ children n → ∃ m, h !! c = Some m ∧ parent m = Some i)
    ∧ NoDup (children n).

(** No visit count is negative, and every child has been visited, except
    possibly [v]. *)
Definition visited_except (v : option nat) (h : store) : Prop :=
  ∀ i n, h !! i = Some n →
    0 ≤ visit n
    ∧ ∀ c m, c ∈ children n → h !! c = Some m → Some c ≠ v → 1 ≤ visit m.

(** A node was visited at least as often as its children together. *)
Definition sums_ok (h : store) : Prop :=
  ∀ i n, h !! i = Some n → sum_visits h (children n) ≤ visit n.

(** The state of the tree between two turns of the search loop. *)
Definition tree_ok (h : store) : Prop :=
  links_ok h ∧ visited_except None h ∧ sums_ok h.


(** The store after [expand] on node [i], which was [sn], drew [act] and
    was left with [untried]. *)
Definition expanded (h : store) (i : nat) (sn : MCTSNode) (act : Action)
    (untried : list Action) : store :=
  <[i := append_child (length h) (set_untried_actions untried sn)]> h
  ++ [MCTSNode_init (isolation.result (state sn) act) (Some act) (Some i)].


(** [h'] still holds every node of [h], under the same parent. *)
Definition grows (h h' : store) : Prop :=
  ∀ j n, h !! j = Some n → ∃ n', h' !! j = Some n' ∧ parent n' = parent n.


(** The score [best_child] computes for the child [t] of [sn], when it
    computes one, and the mobility it breaks ties with. *)
Definition score_of (h : store) (sn : MCTSNode) (c_param : float) (t : nat)
    : option float :=
  match h !! t with
  | Some tn => match score sn tn c_param with
               | Ok s => Some s
               | _ => None
               end
  | None => None
  end.

Definition mobility_of (h : store) (t : nat) : Z :=
  match h !! t with
  | Some tn => heuristic_score (state tn)
  | None => 0
  end.

(** The child [t] scores [s], as [==] on floats sees it. *)
Definition ties_with (h : store) (sn : MCTSNode) (c_param : float) (s : float)
    (t : nat) : bool :=
  match score_of h sn c_param t with
  | Some st => (st =? s)%float
  | None => false
  end.

(** What the loop of [best_child] knows after the children [seen]: none of
    them scores above [maxscore], [maxactions] are those that score
    [maxscore], and [maxscore] is the -999 it started from or the score of
    one of them. *)
Definition scan_inv (h : store) (sn : MCTSNode) (c_param : float)
    (seen : list nat) (maxscore : float) (maxactions : list nat) : Prop :=
  (∀ t s, t ∈ seen → score_of h sn c_param t = Some s → (maxscore <? s)%float = false)
  ∧ maxactions = filter (λ t, ties_with h sn c_param maxscore t) seen
  ∧ (maxscore = (-999)%float
     ∨ ∃ t, t ∈ seen ∧ score_of h sn c_param t = Some maxscore
            ∧ (maxscore =? maxscore)%float = true).


(** ** Further notions *)

(** The search has left the queue alone, has counted the nodes it made,
    and has changed the store by the methods of [MCTSNode] only. *)
Definition search_frame (w w' : world) : Prop :=
  queue w' = queue w
  ∧ node_no w' - node_no w = Z.of_nat (length (heap w')) - Z.of_nat (length (heap w))
  ∧ rtc node_op (heap w) (heap w').

(** No node of a finished game has a child. *)
Definition terminal_childless (h : store) : Prop :=
  ∀ i n, h !! i = Some n → is_terminal_node n = true → children n = [].

(** The utility of a node lies between minus and plus its visit count. *)
Definition bounded_utility (h : store) : Prop :=
  ∀ i n, h !! i = Some n → - visit n ≤ utility n ≤ visit n.

(** A node below another holds the state its action leads to from the
    state of its parent, and the parent lists it as a child. *)
Definition moves_ok (h : store) : Prop :=
  ∀ i n p, h !! i = Some n → parent n = Some p →
    ∃ pn a, h !! p = Some pn ∧ i ∈ children pn ∧ action n = Some a
            ∧ state n = isolation.result (state pn) a.

(** What [playout_policy] makes of a finished game, lines 100-108. *)
Definition outcome_of (st : State) : Z :=
  if (isolation.utility st (1 - isolation.player st) =? infinity)%float then 1
  else if (isolation.utility st (1 - isolation.player st) =? neg_infinity)%float then -1
  else 0.

(** The statistics of a node of a finished game: every visit brought the
    outcome of that game. *)
Definition terminal_stats (h : store) : Prop :=
  ∀ i n, h !! i = Some n → is_terminal_node n = true →
    utility n = visit n * outcome_of (state n).

(** One move of a game that is not over. *)
Definition plays (s s' : State) : Prop :=
  isolation.terminal_test s = false
  ∧ ∃ a, a ∈ isolation.actions s ∧ s' = isolation.result s a.

(** The node [r] holds the state [st], and the actions it has tried and
    those it has yet to try are legal in [st]. *)
Definition root_of (h : store) (r : nat) (st : State) : Prop :=
  ∃ rn, h !! r = Some rn ∧ state rn = st
    ∧ (∀ a, a ∈ untried_actions rn → a ∈ isolation.actions st)
    ∧ ∀ c, c ∈ children rn →
        ∃ cn a, h !! c = Some cn ∧ action cn = Some a ∧ a ∈ isolation.actions st.


(** The exceptions a search can end in: the [ValueError] and the
    [ZeroDivisionError] of [best_child], and the [IndexError] of
    [random.choice] when a playout comes to an unfinished game that has no
    legal action. *)
Definition search_error (e : exn) : Prop :=
  e = ValueError ∨ e = ZeroDivisionError
  ∨ (e = IndexError
     ∧ ∃ s, isolation.terminal_test s = false ∧ isolation.actions s = []).


(** [tree_policy] goes on from the node [x] to the node [y]: [x] is a node
    of an unfinished game with no untried action left, and [y] is its best
    child at [c_param = 0.5]. *)
Definition descends (h : store) (x y : nat) : Prop :=
  ∃ xn, h !! x = Some xn ∧ is_terminal_node xn = false
        ∧ is_fully_expanded xn = true ∧ best_child h x 0.5 = Ok y.


(** The nodes from [r0] on have their parents and their children among the
    nodes from [r0] on. *)
Definition closed_from (r0 : nat) (h : store) : Prop :=
  ∀ j n, h !! j = Some n → (r0 ≤ j)%nat →
    (∀ p, parent n = Some p → (r0 ≤ p)%nat)
    ∧ (∀ c, c ∈ children n → (r0 ≤ c)%nat).


Definition utility_of (h : store) (i : nat) : Z :=
  match h !! i with
  | Some n => utility n
  | None => 0
  end.

Definition sum_utilities (h : store) (cs : list nat) : Z :=
  foldr (λ c acc, utility_of h c + acc) 0 cs.

(** The visits of a node that did not go on to one of its children, and
    the utility of the node and of its children together. *)
Definition own_visits (h : store) (n : MCTSNode) : Z :=
  visit n - sum_visits h (children n).

Definition net_utility (h : store) (n : MCTSNode) : Z :=
  utility n + sum_utilities h (children n).

(** What the children of a node have won, the node has lost: its utility
    and theirs add up to what the playouts from the node itself brought,
    between -1 and 1 for each of its own visits. *)
Definition balanced (h : store) : Prop :=
  ∀ i n, h !! i = Some n →
    - own_visits h n ≤ net_utility h n ≤ own_visits h n.


End Player.

(** ** A small game for the examples

    [A] is the opening position; [A] and [B] are decided by the move made
    there, [C], [D] and [E] are over.  Moving to [C] or [E] wins for the
    mover, moving to [D] loses. *)
Module Toy.

Inductive position : Set := A | B | C | D | E.
Inductive move : Set := toB | toC | toD | toE.

Global Instance move_eq_dec : EqDecision move.
Proof. solve_decision. Defined.

Definition toy_player (s : position) : Z :=
  match s with A => 0 | B | C => 1 | D | E => 0 end.

Definition toy_actions (s : position) : list move :=
  match s with A => [toB; toC] | B => [toD; toE] | _ => [] end.

Definition toy_result (s : position) (a : move) : position :=
  match a with toB => B | toC => C | toD => D | toE => E end.

Definition toy_terminal_test (s : position) : bool :=
  match s with A | B => false | _ => true end.

(** The payoff of a finished game for player [p]. *)
Definition toy_utility (s : position) (p : Z) : float :=
  match s with
  | C => if decide (p = 0) then infinity else neg_infinity
  | D => if decide (p = 1) then neg_infinity else infinity
  | E => if decide (p = 1) then infinity else neg_infinity
  | _ => 0%float
  end.

(** Cells are numbers; a player's cell is its number plus the position's. *)
Definition toy_locs (s : position) (p : Z) : nat :=
  match s with A => 0 | B => 2 | C => 4 | D => 6 | E => 8 end%nat + Z.to_nat p.

Definition toy_liberties (s : position) (loc : nat) : list nat :=
  match loc with
  | 2 => [0; 1; 2] | 3 => [0]
  | 4 => [0] | 5 => [0; 1]
  | 6 => [0; 1] | 7 => [0; 1]
  | 8 => [0; 1; 2] | 9 => [0]
  | _ => []
  end%nat.

Global Instance toy_game : isolation.Isolation position move nat := {|
  isolation.player := toy_player;
  isolation.actions := toy_actions;
  isolation.result := toy_result;
  isolation.terminal_test := toy_terminal_test;
  isolation.utility := toy_utility;
  isolation.ply_count := λ s, match s with A => 2 | B | C => 3 | _ => 4 end;
  isolation.locs := toy_locs;
  isolation.liberties := toy_liberties;
|}.

(** A logarithm good enough to run the examples: [x = m * 2^e] with [m] in
    [[1/2, 1)], and [ln m] by the series of [2 * atanh ((m-1)/(m+1))]. *)
Fixpoint atanh_series (k : nat) (t t2 : float) (n : Z) : float :=
  match k with
  | O => 0%float
  | S k' => (t / float_of_int n + atanh_series k' (t * t2) t2 (n + 2))%float
  end.

Definition toy_log (x : float) : float :=
  let '(m, e) := Z.frexp x in
  let t := ((m - 1) / (m + 1))%float in
  (float_of_int e * 0x1.62e42fefa39efp-1 + 2 * atanh_series 20 t (t * t) 1)%float.

(** Draws 0, 1, 2, ...; the clock advances 1/32 s per reading. *)
Definition toy_runtime : Runtime := {|
  log := toy_log;
  random_source := λ k, k;
  wall_clock := λ k, (float_of_int (Z.of_nat k) * 0.03125)%float;
|}.

(** A clock that is a whole second further at every reading. *)
Definition late_runtime : Runtime := {|
  log := toy_log;
  random_source := λ k, k;
  wall_clock := λ k, float_of_int (Z.of_nat k);
|}.

Definition empty_world : world (Action := move) (State := position) :=
  {| heap := []; node_no := 0; queue := []; rand_calls := 0; time_calls := 0 |}.

Definition world_of (h : list (MCTSNode (State := position) (Action := move)))
    : world :=
  {| heap := h; node_no := 1; queue := []; rand_calls := 0; time_calls := 0 |}.

(** A new root for [s], alone in the store. *)
Definition fresh (s : position) : world := world_of [MCTSNode_init s None None].

(** The opening position after one visit to each of its two successors,
    both won by the mover: the two children score the same. *)
Definition tied_root : MCTSNode (State := position) (Action := move) :=
  {| state := A; parent := None; children := [1; 2]%nat; action := None;
     visit := 2; utility := -2; untried_actions := [] |}.

Definition tied_B : MCTSNode (State := position) (Action := move) :=
  {| state := B; parent := Some 0%nat; children := []; action := Some toB;
     visit := 1; utility := 1; untried_actions := [toD; toE] |}.

Definition tied_C : MCTSNode (State := position) (Action := move) :=
  {| state := C; parent := Some 0%nat; children := []; action := Some toC;
     visit := 1; utility := 1; untried_actions := [] |}.

Definition tied_store : list (MCTSNode (State := position) (Action := move)) :=
  [tied_root; tied_B; tied_C].

(** Three levels: [A], its successor [B], and [D] below [B]. *)
Definition chain_store : list (MCTSNode (State := position) (Action := move)) :=
  [ {| state := A; parent := None; children := [1]%nat; action := None;
       visit := 4; utility := 0; untried_actions := [toC] |};
    {| state := B; parent := Some 0%nat; children := [2]%nat; action := Some toB;
       visit := 3; utility := 1; untried_actions := [toE] |};
    {| state := D; parent := Some 1%nat; children := []; action := Some toD;
       visit := 2; utility := -2; untried_actions := [] |} ].

(** A search that finds nothing. *)
Definition idle_engine (s : position)
    : M (State := position) (Action := move) (option move) :=
  mret None.

(** The moves left in the longest game from a position. *)
Definition toy_rank (s : position) : nat :=
  match s with A => 2 | B => 1 | _ => 0 end.


End Toy.

(** * Binary64 arithmetic

    The facts about [float_of_int], division, multiplication and
    [math.ceil] that the properties of the selection score and of the
    deadline rest on, proved from the specification of binary64
    ([SpecFloat]). *)

(** Digits *)
Lemma digits2_pos_size (p : positive) : digits2_pos p = Pos.size p.
Proof. induction p as [p IH|p IH|]; cbn; by rewrite ?IH. Qed.

Lemma digits2_pos_bounds (p : positive) :
  2 ^ (Z.pos (digits2_pos p) - 1) ≤ Z.pos p < 2 ^ Z.pos (digits2_pos p).
Proof.
  rewrite digits2_pos_size.
  pose proof (Pos.size_gt p) as Hgt. pose proof (Pos.size_le p) as Hle.
  apply Pos2Z.pos_lt_pos in Hgt. apply Pos2Z.pos_le_pos in Hle.
  rewrite Pos2Z.inj_pow in Hgt, Hle. rewrite (Pos2Z.inj_xO p) in Hle.
  split; [|done].
  replace (Z.pos (Pos.size p)) with (Z.succ (Z.pos (Pos.size p) - 1)) in Hle at 1 by lia.
  rewrite Z.pow_succ_r in Hle by lia. lia.
Qed.

Lemma digits2_pos_unique (p : positive) (d : Z) :
  2 ^ (d - 1) ≤ Z.pos p < 2 ^ d → Z.pos (digits2_pos p) = d.
Proof.
  intros [Hlo Hhi]. pose proof (digits2_pos_bounds p) as [Hlo' Hhi'].
  assert (Hd : 0 < d).
  { destruct (Z.lt_trichotomy 0 d) as [|[<-|Hn]]; [done|cbn in Hhi; lia|].
    rewrite Z.pow_neg_r in Hhi by lia. lia. }
  destruct (Z.lt_trichotomy (Z.pos (digits2_pos p)) d) as [Hlt|[Heq|Hgt]]; [|done|].
  - assert (2 ^ Z.pos (digits2_pos p) ≤ 2 ^ (d - 1)) by (apply Z.pow_le_mono_r; lia). lia.
  - assert (2 ^ d ≤ 2 ^ (Z.pos (digits2_pos p) - 1)) by (apply Z.pow_le_mono_r; lia). lia.
Qed.

(** Shifts *)
Lemma iter_xO_spec (m d : positive) : Z.pos (Pos.iter xO m d) = Z.pos m * 2 ^ Z.pos d.
Proof.
  induction d as [|d IH] using Pos.peano_ind.
  - cbn. lia.
  - rewrite Pos.iter_succ, Pos2Z.inj_xO, IH, Pos2Z.inj_succ, Z.pow_succ_r by lia. lia.
Qed.

Lemma iter_pos_iter {A} (f : A → A) (p : positive) (x : A) :
  SpecFloat.iter_pos f p x = Pos.iter f x p.
Proof.
  revert x. induction p as [p IH|p IH|]; intros x; cbn.
  - rewrite !IH. by rewrite <- !Pos.iter_swap.
  - by rewrite !IH.
  - done.
Qed.

Local Abbreviation exact_record m := {| shr_m := m; shr_r := false; shr_s := false |}.

Lemma shr_1_exact (m : positive) : shr_1 (exact_record (Z.pos m~0)) = exact_record (Z.pos m).
Proof. reflexivity. Qed.

Lemma iter_shr_exact (m p : positive) :
  SpecFloat.iter_pos shr_1 p (exact_record (Z.pos m * 2 ^ Z.pos p)) = exact_record (Z.pos m).
Proof.
  rewrite iter_pos_iter. revert m.
  induction p as [|p IH] using Pos.peano_ind; intros m.
  - cbn. replace (Z.pos m * 2 ^ 1) with (Z.pos m~0) by lia. done.
  - rewrite Pos.iter_succ_r.
    replace (Z.pos m * 2 ^ Z.pos (Pos.succ p)) with (Z.pos (Pos.iter xO m p)~0).
    + rewrite shr_1_exact. rewrite iter_xO_spec. apply IH.
    + rewrite Pos2Z.inj_xO, iter_xO_spec, Pos2Z.inj_succ, Z.pow_succ_r by lia. lia.
Qed.

(** Rounding *)
Lemma fexp_normal (x : Z) : -1021 ≤ x → fexp prec emax x = x - 53.
Proof. intros Hx. unfold fexp, SpecFloat.emin, prec, emax. lia. Qed.

Lemma shr_fexp_normal (M : positive) (d e : Z) (l : location) :
  Z.pos (digits2_pos M) = d → -1021 ≤ d + e →
  shr_fexp prec emax (Z.pos M) e l = shr (shr_record_of_loc (Z.pos M) l) e (d - 53).
Proof.
  intros Hd Hr. unfold shr_fexp. cbn [Zdigits2]. rewrite Hd, fexp_normal by done.
  f_equal. lia.
Qed.

Lemma shr_zero mrs e : shr mrs e 0 = (mrs, e).
Proof. reflexivity. Qed.

Lemma pos_mul_pow2 (m : positive) (n : Z) :
  0 ≤ n → ∃ M : positive, Z.pos M = Z.pos m * 2 ^ n.
Proof.
  intros Hn. exists (Z.to_pos (Z.pos m * 2 ^ n)). rewrite Z2Pos.id; [done|].
  apply Z.mul_pos_pos; [done|]. by apply Z.pow_pos_nonneg.
Qed.

Lemma digits2_pos_shift (m M : positive) (n : Z) :
  0 ≤ n → Z.pos M = Z.pos m * 2 ^ n →
  Z.pos (digits2_pos M) = Z.pos (digits2_pos m) + n.
Proof.
  intros Hn HM. apply digits2_pos_unique. rewrite HM.
  pose proof (digits2_pos_bounds m) as [Hlo Hhi].
  replace (Z.pos (digits2_pos m) + n - 1) with ((Z.pos (digits2_pos m) - 1) + n) by lia.
  rewrite !Z.pow_add_r by lia.
  assert (0 < 2 ^ n) by (by apply Z.pow_pos_nonneg). nia.
Qed.

Lemma binary_round_aux_exact (sx : bool) (m : positive) (n e : Z) :
  Z.pos (digits2_pos m) = 53 → 0 ≤ n → -1074 ≤ e + n ≤ 971 →
  binary_round_aux prec emax sx (Z.pos m * 2 ^ n) e loc_Exact = S754_finite sx m (e + n).
Proof.
  intros Hd Hn He. destruct (pos_mul_pow2 m n Hn) as [M HM]. rewrite <- HM.
  pose proof (digits2_pos_shift m M n Hn HM) as HdM. rewrite Hd in HdM.
  unfold binary_round_aux.
  rewrite (shr_fexp_normal M (53 + n) e) by (done || lia).
  replace (53 + n - 53) with n by lia.
  assert (Hshr : shr (shr_record_of_loc (Z.pos M) loc_Exact) e n
                 = (exact_record (Z.pos m), e + n)).
  { destruct n as [|p|p]; [| |lia].
    - rewrite shr_zero. rewrite Z.pow_0_r, Z.mul_1_r in HM. injection HM as ->.
      by rewrite Z.add_0_r.
    - unfold shr. f_equal. cbn [shr_record_of_loc]. rewrite HM.
      apply iter_shr_exact. }
  rewrite Hshr. cbn [shr_m loc_of_shr_record round_nearest_even].
  rewrite (shr_fexp_normal m 53 (e + n)) by (done || lia).
  rewrite Z.sub_diag, shr_zero. cbn [shr_record_of_loc shr_m].
  replace (e + n <=? emax - prec) with true; [done|].
  symmetry. apply Z.leb_le. unfold emax, prec. lia.
Qed.

Lemma binary_normalize_small (V : Z) :
  1 ≤ V < 2 ^ 53 →
  ∃ (m : positive) (e : Z),
    binary_normalize prec emax V 0 false = S754_finite false m e
    ∧ Z.pos (digits2_pos m) = 53 ∧ -52 ≤ e ≤ 0 ∧ Z.pos m = V * 2 ^ (- e).
Proof.
  intros [Hlo Hhi]. destruct V as [|p|p]; [lia| |lia].
  cbn [binary_normalize]. unfold binary_round.
  pose proof (digits2_pos_bounds p) as [Hdlo Hdhi].
  assert (Hd : 1 ≤ Z.pos (digits2_pos p) ≤ 53).
  { split; [lia|]. destruct (Z.le_gt_cases (Z.pos (digits2_pos p)) 53) as [|Hgt]; [done|].
    assert (2 ^ 53 ≤ 2 ^ (Z.pos (digits2_pos p) - 1)) by (apply Z.pow_le_mono_r; lia).
    lia. }
  rewrite Z.add_0_r, fexp_normal by lia. unfold shl_align. rewrite Z.sub_0_r.
  destruct (Z.pos (digits2_pos p) - 53) as [|k|k] eqn:Hk; [|lia|].
  - exists p, 0. rewrite <- (Z.mul_1_r (Z.pos p)) at 1. rewrite <- (Z.pow_0_r 2).
    rewrite binary_round_aux_exact by lia.
    split_and!; [done|lia|lia|lia|]. cbn. lia.
  - exists (Pos.iter xO p k), (Z.neg k).
    assert (Hdk : Z.pos (digits2_pos (Pos.iter xO p k)) = 53).
    { rewrite (digits2_pos_shift p _ (Z.pos k)); [lia|lia|apply iter_xO_spec]. }
    rewrite <- (Z.mul_1_r (Z.pos (Pos.iter xO p k))) at 1. rewrite <- (Z.pow_0_r 2).
    rewrite binary_round_aux_exact by lia. rewrite Z.add_0_r.
    split_and!; [done|done|lia|lia|]. rewrite iter_xO_spec. done.
Qed.

Lemma float_of_int_small (V : Z) :
  1 ≤ V < 2 ^ 53 →
  ∃ (m : positive) (e : Z),
    Prim2SF (float_of_int V) = S754_finite false m e
    ∧ Z.pos (digits2_pos m) = 53 ∧ -52 ≤ e ≤ 0 ∧ Z.pos m = V * 2 ^ (- e).
Proof.
  intros HV. destruct (binary_normalize_small V HV) as (m & e & Hn & Hd & He & Hm).
  exists m, e. split; [|done]. unfold float_of_int. rewrite Hn.
  apply Prim2SF_SF2Prim. cbn [valid_binary]. unfold SpecFloat.bounded, SpecFloat.canonical_mantissa.
  rewrite Hd, fexp_normal by lia. apply andb_true_iff. split.
  - apply Z.eqb_eq. lia.
  - apply Z.leb_le. unfold emax, prec. lia.
Qed.

Lemma round_nearest_even_bounds (m : Z) (l : location) :
  m ≤ round_nearest_even m l ≤ m + 1.
Proof.
  destruct l as [|[| |]]; cbn; try lia. destruct (Z.even m); lia.
Qed.

Lemma shr_record_of_loc_m (m : Z) (l : location) : shr_m (shr_record_of_loc m l) = m.
Proof. by destruct l as [|[| |]]. Qed.

Lemma shr_1_m (Q : positive) (l : location) :
  2 ≤ Z.pos Q →
  ∃ p : positive, shr_m (shr_1 (shr_record_of_loc (Z.pos Q) l)) = Z.pos p
                  ∧ Z.pos Q = 2 * Z.pos p ∨ 
                  shr_m (shr_1 (shr_record_of_loc (Z.pos Q) l)) = Z.pos p
                  ∧ Z.pos Q = 2 * Z.pos p + 1.
Proof.
  intros HQ. destruct Q as [p|p|]; [| |lia].
  - exists p. right. split; [by destruct l as [|[| |]]|lia].
  - exists p. left. split; [by destruct l as [|[| |]]|lia].
Qed.

(** The second, renormalising shift of [binary_round_aux]. *)
Lemma renormalise (M : positive) (e : Z) :
  2 ^ 52 ≤ Z.pos M ≤ 2 ^ 53 → -1074 ≤ e →
  ∃ (mf : positive) (ef : Z),
    shr_fexp prec emax (Z.pos M) e loc_Exact
    = ({| shr_m := Z.pos mf; shr_r := false; shr_s := false |}, ef)
    ∧ Z.pos (digits2_pos mf) = 53 ∧ e ≤ ef.
Proof.
  intros [Hlo Hhi] He.
  destruct (Z.eq_dec (Z.pos M) (2 ^ 53)) as [Heq|Hne].
  - assert (HdM : Z.pos (digits2_pos M) = 54).
    { apply digits2_pos_unique. rewrite Heq. split; [done|].
      apply Z.pow_lt_mono_r; lia. }
    rewrite (shr_fexp_normal M 54 e) by (done || lia).
    exists (Z.to_pos (2 ^ 52)), (e + 1). split_and!; [|done|lia].
    change (54 - 53) with 1. unfold shr. f_equal.
    cbn [shr_record_of_loc SpecFloat.iter_pos]. rewrite Heq. reflexivity.
  - assert (HdM : Z.pos (digits2_pos M) = 53).
    { apply digits2_pos_unique. split; [done|lia]. }
    rewrite (shr_fexp_normal M 53 e) by (done || lia).
    exists M, e. split_and!; [|done|lia].
    by rewrite Z.sub_diag, shr_zero.
Qed.

Lemma binary_round_aux_lower (Q : positive) (dq e : Z) (l : location) :
  Z.pos (digits2_pos Q) = dq → 53 ≤ dq ≤ 54 → -1074 ≤ e →
  binary_round_aux prec emax false (Z.pos Q) e l = S754_infinity false
  ∨ ∃ (mf : positive) (ef : Z),
      binary_round_aux prec emax false (Z.pos Q) e l = S754_finite false mf ef
      ∧ Z.pos (digits2_pos mf) = 53 ∧ e + dq - 53 ≤ ef.
Proof.
  intros Hd Hdq He. pose proof (digits2_pos_bounds Q) as [HQlo HQhi]. rewrite Hd in HQlo, HQhi.
  unfold binary_round_aux.
  rewrite (shr_fexp_normal Q dq e) by (done || lia).
  assert (Hstep : ∃ (M1 : positive) (e1 : Z),
            (let '(mrs', e') := shr (shr_record_of_loc (Z.pos Q) l) e (dq - 53) in
             (round_nearest_even (shr_m mrs') (loc_of_shr_record mrs'), e'))
            = (Z.pos M1, e1)
            ∧ 2 ^ 52 ≤ Z.pos M1 ≤ 2 ^ 53 ∧ e1 = e + dq - 53).
  { destruct (Z.eq_dec dq 53) as [->|Hne].
    - rewrite Z.sub_diag, shr_zero, shr_record_of_loc_m.
      pose proof (round_nearest_even_bounds (Z.pos Q)
                    (loc_of_shr_record (shr_record_of_loc (Z.pos Q) l))) as Hb.
      destruct (round_nearest_even _ _) as [|M1|M1] eqn:Hr; [lia| |lia].
      exists M1, e.
      change (53 - 1) with 52 in HQlo. split_and!; [done|lia|lia|lia].
    - assert (dq = 54) as -> by lia. change (54 - 53) with 1.
      change (54 - 1) with 53 in HQlo.
      assert (H2 : 2 ≤ Z.pos Q).
      { assert (2 ^ 1 ≤ 2 ^ 53) by (apply Z.pow_le_mono_r; lia). lia. }
      unfold shr. cbn [SpecFloat.iter_pos].
      destruct (shr_1_m Q l H2) as (p & [[Hp HQ]|[Hp HQ]]).
      + pose proof (round_nearest_even_bounds
                      (shr_m (shr_1 (shr_record_of_loc (Z.pos Q) l)))
                      (loc_of_shr_record (shr_1 (shr_record_of_loc (Z.pos Q) l)))) as Hb.
        rewrite Hp in Hb |- *.
        destruct (round_nearest_even _ _) as [|M1|M1] eqn:Hr; [lia| |lia].
        exists M1, (e + 1).
        change (2 ^ 54) with (2 * 2 ^ 53) in HQhi.
        change (2 ^ 53) with (2 * 2 ^ 52) in HQlo.
        split_and!; [done|lia|lia|lia].
      + pose proof (round_nearest_even_bounds
                      (shr_m (shr_1 (shr_record_of_loc (Z.pos Q) l)))
                      (loc_of_shr_record (shr_1 (shr_record_of_loc (Z.pos Q) l)))) as Hb.
        rewrite Hp in Hb |- *.
        destruct (round_nearest_even _ _) as [|M1|M1] eqn:Hr; [lia| |lia].
        exists M1, (e + 1).
        change (2 ^ 54) with (2 * 2 ^ 53) in HQhi.
        change (2 ^ 53) with (2 * 2 ^ 52) in HQlo.
        split_and!; [done|lia|lia|lia]. }
  destruct Hstep as (M1 & e1 & Hstep & HM1 & He1).
  destruct (shr (shr_record_of_loc (Z.pos Q) l) e (dq - 53)) as [mrs' e'] eqn:Hshr.
  injection Hstep as Hr ->. rewrite Hr.
  destruct (renormalise M1 e1 HM1 ltac:(lia)) as (mf & ef & -> & Hdf & Hef).
  cbn [shr_m]. destruct (ef <=? emax - prec); [|by left].
  right. exists mf, ef. split_and!; [done|done|lia].
Qed.


Lemma normal_forms_ordered (V v : Z) (mV mv : positive) (eV ev : Z) :
  1 ≤ v ≤ V →
  Z.pos (digits2_pos mV) = 53 → Z.pos (digits2_pos mv) = 53 →
  eV ≤ 0 → ev ≤ 0 →
  Z.pos mV = V * 2 ^ (- eV) → Z.pos mv = v * 2 ^ (- ev) →
  ev ≤ eV ∧ (ev = eV → Z.pos mv ≤ Z.pos mV).
Proof.
  intros Hv HdV Hdv HeV Hev HmV Hmv.
  pose proof (digits2_pos_bounds mV) as [HVlo HVhi]. rewrite HdV in HVlo, HVhi.
  pose proof (digits2_pos_bounds mv) as [Hvlo Hvhi]. rewrite Hdv in Hvlo, Hvhi.
  assert (E52 : 2 ^ (53 - 1) = 4503599627370496) by reflexivity.
  assert (E53 : 2 ^ 53 = 9007199254740992) by reflexivity.
  rewrite E52 in HVlo, Hvlo. rewrite E53 in HVhi, Hvhi. clear E52 E53.
  assert (HpV : 0 < 2 ^ (- eV)) by (apply Z.pow_pos_nonneg; lia).
  assert (Hpv : 0 < 2 ^ (- ev)) by (apply Z.pow_pos_nonneg; lia).
  split.
  - destruct (Z.le_gt_cases ev eV) as [|Hgt]; [done|exfalso].
    assert (Hpow : 2 ^ (- eV) = 2 ^ (- ev) * 2 ^ (ev - eV)).
    { rewrite <- Z.pow_add_r by lia. f_equal. lia. }
    assert (H2 : 2 ≤ 2 ^ (ev - eV)).
    { change 2 with (2 ^ 1) at 1. apply Z.pow_le_mono_r; lia. }
    rewrite Hpow in HmV.
    set (a := 2 ^ (- ev)) in *. set (k := 2 ^ (ev - eV)) in *.
    assert (Z.pos mv * 2 ≤ Z.pos mV).
    { rewrite HmV, Hmv. transitivity (V * a * 2); [nia|]. 
      rewrite <- Z.mul_assoc. apply Z.mul_le_mono_nonneg_l; [lia|]. nia. }
    lia.
  - intros ->. rewrite HmV, Hmv. apply Z.mul_le_mono_nonneg_r; lia.
Qed.

Lemma SF_one : Prim2SF 1 = S754_finite false 4503599627370496 (-52).
Proof. vm_compute. reflexivity. Qed.

Lemma le_normal (m1 mf : positive) (ef : Z) :
  Z.pos m1 = 2 ^ 52 → Z.pos (digits2_pos mf) = 53 → -52 ≤ ef →
  SFleb (S754_finite false m1 (-52)) (S754_finite false mf ef) = true.
Proof.
  intros H1 Hd He. pose proof (digits2_pos_bounds mf) as [Hlo _]. rewrite Hd in Hlo.
  replace (53 - 1) with 52 in Hlo by lia. rewrite <- H1 in Hlo.
  unfold SFleb, SFcompare.
  destruct (Z.compare_spec (-52) ef) as [Heq|Hlt|Hgt]; [|reflexivity|lia].
  change (Pos.compare_cont Eq m1 mf) with (m1 ?= mf)%positive.
  rewrite Pos2Z.inj_compare.
  destruct (Z.compare_spec (Z.pos m1) (Z.pos mf)) as [|Hlt|Hgt]; [reflexivity|reflexivity|lia].
Qed.

Lemma pow2_53_54 : 2 ^ 53 = 2 * 2 ^ 52 ∧ 2 ^ 54 = 4 * 2 ^ 52 ∧ 0 < 2 ^ 52.
Proof. split_and!; [reflexivity|reflexivity|reflexivity]. Qed.

Theorem float_div_ge_one (V v : Z) :
  1 ≤ v ≤ V → V < 2 ^ 53 →
  (1 <=? float_of_int V / float_of_int v)%float = true.
Proof.
  intros Hv HV.
  destruct (float_of_int_small V ltac:(lia)) as (mV & eV & HfV & HdV & HeV & HmV).
  destruct (float_of_int_small v ltac:(lia)) as (mv & ev & Hfv & Hdv & Hev & Hmv).
  destruct (normal_forms_ordered V v mV mv eV ev Hv HdV Hdv ltac:(lia) ltac:(lia) HmV Hmv)
    as [Hee Hmm].
  pose proof (digits2_pos_bounds mV) as [HVlo HVhi]. rewrite HdV in HVlo, HVhi.
  pose proof (digits2_pos_bounds mv) as [Hvlo Hvhi]. rewrite Hdv in Hvlo, Hvhi.
  replace (53 - 1) with 52 in HVlo, Hvlo by lia.
  rewrite FloatAxioms.leb_spec, FloatAxioms.div_spec, SF_one, HfV, Hfv.
  unfold SF64div, SFdiv, SFdiv_core_binary. cbn [Zdigits2 xorb].
  rewrite HdV, Hdv.
  replace (53 + eV - (53 + ev)) with (eV - ev) by lia.
  rewrite fexp_normal by lia.
  replace (Z.min (eV - ev - 53) (eV - ev)) with (eV - ev - 53) by lia.
  replace (eV - ev - (eV - ev - 53)) with 53 by lia.
  rewrite Z.shiftl_mul_pow2 by lia.
  destruct (Z.div_eucl (Z.pos mV * 2 ^ 53) (Z.pos mv)) as [q r] eqn:Hdiv.
  assert (Hq : q = (Z.pos mV * 2 ^ 53) / Z.pos mv).
  { unfold Z.div. by rewrite Hdiv. }
  clear Hdiv HfV Hfv HmV Hmv.
  destruct pow2_53_54 as (E53 & E54 & Hpos).
  rewrite E53 in HVhi, Hvhi, Hq. clear HV.
  remember (2 ^ 52) as P eqn:HP.
  assert (Hqlo : 2 * P ≤ q ∨ (P ≤ q < 2 * P ∧ ev < eV)).
  { destruct (Z.eq_dec ev eV) as [Heq|Hne].
    - left. specialize (Hmm Heq). rewrite Hq.
      apply Z.div_le_lower_bound; [lia|]. nia.
    - destruct (Z.lt_ge_cases q (2 * P)) as [Hlt|Hge]; [|by left].
      right. split; [|lia]. split; [|done]. rewrite Hq.
      apply Z.div_le_lower_bound; [lia|]. nia. }
  assert (Hqhi : q < 4 * P).
  { rewrite Hq. apply Z.div_lt_upper_bound; [lia|]. nia. }
  destruct q as [|Q|Q]; [lia| |lia].
  assert (Hcase : (Z.pos (digits2_pos Q) = 53 ∧ ev < eV)
                  ∨ Z.pos (digits2_pos Q) = 54).
  { destruct Hqlo as [Hge|[[Hlo Hhi] Hlt]].
    - right. apply digits2_pos_unique. replace (54 - 1) with 53 by lia.
      rewrite E53, E54. lia.
    - left. split; [|done]. apply digits2_pos_unique. replace (53 - 1) with 52 by lia.
      rewrite E53, <- ?HP. lia. }
  set (dq := Z.pos (digits2_pos Q)) in *.
  destruct (binary_round_aux_lower Q dq (eV - ev - 53) (new_location (Z.pos mv) r)
              eq_refl ltac:(lia) ltac:(lia)) as [->|(mf & ef & -> & Hdf & Hef)].
  - reflexivity.
  - apply le_normal; [by vm_compute|done|lia].
Qed.

(** Signs *)
Lemma binary_round_aux_nonneg (m e : Z) (l : location) :
  SFltb (binary_round_aux prec emax false m e l) (S754_zero false) = false.
Proof.
  unfold binary_round_aux.
  destruct (shr_fexp prec emax m e l) as [mrs' e'].
  destruct (shr_fexp prec emax _ e' loc_Exact) as [mrs'' e''].
  destruct (shr_m mrs'') as [|p|p]; [reflexivity| |reflexivity].
  destruct (e'' <=? emax - prec); reflexivity.
Qed.

Lemma SFmul_pos_nonneg (m2 : positive) (e2 : Z) (y : spec_float) :
  SFltb y (S754_zero false) = false →
  SFltb (SFmul prec emax (S754_finite false m2 e2) y) (S754_zero false) = false.
Proof.
  destruct y as [s|s| |s m e]; cbn [SFmul xorb].
  - intros _. by destruct s.
  - by destruct s.
  - done.
  - destruct s; [done|]. intros _. apply binary_round_aux_nonneg.
Qed.

Lemma SF_two : ∃ m e, Prim2SF 2 = S754_finite false m e.
Proof. eexists _, _. vm_compute. reflexivity. Qed.

Lemma SF_zero : Prim2SF 0 = S754_zero false.
Proof. vm_compute. reflexivity. Qed.

Lemma float_two_mul_nonneg (l : float) :
  (l <? 0)%float = false → (2 * l <? 0)%float = false.
Proof.
  rewrite !FloatAxioms.ltb_spec, FloatAxioms.mul_spec, SF_zero.
  destruct SF_two as (m & e & ->). apply SFmul_pos_nonneg.
Qed.

Lemma float_one_le_pos (q : float) :
  (1 <=? q)%float = true → (q <=? 0)%float = false.
Proof.
  rewrite !FloatAxioms.leb_spec, SF_zero, SF_one.
  destruct (Prim2SF q) as [s|s| |s m e]; cbn; try done.
  - by destruct s.
  - destruct s; [done|]. intros _. done.
Qed.

Lemma float_abs_nonneg (y : float) : (abs y <? 0)%float = false.
Proof.
  rewrite FloatAxioms.ltb_spec, FloatAxioms.abs_spec, SF_zero.
  by destruct (Prim2SF y) as [s|s| |s m e].
Qed.

(** Three quarters *)
Lemma SF_three_quarters :
  ∃ m75, Prim2SF 0.75 = S754_finite false m75 (-53) ∧ Z.pos m75 = 3 * 2 ^ 51.
Proof. eexists. split; vm_compute; reflexivity. Qed.

Lemma float_of_int_zero : Prim2SF (float_of_int 0) = S754_zero false.
Proof. vm_compute. reflexivity. Qed.

Lemma three_quarters_product (b : Z) :
  1 ≤ b ≤ 2 ^ 51 →
  ∃ (M0 : positive) (k : Z),
    Prim2SF (float_of_int b * 0.75) = S754_finite false M0 (- k - 2)
    ∧ 0 ≤ k ∧ Z.pos M0 = 3 * b * 2 ^ k.
Proof.
  intros Hb.
  assert (E53 : 2 ^ 53 = 4 * 2 ^ 51) by reflexivity.
  assert (P51 : 0 < 2 ^ 51) by reflexivity.
  destruct (float_of_int_small b) as (m & e & Hf & Hd & He & Hm).
  { rewrite E53. lia. }
  destruct SF_three_quarters as (m75 & H75 & Hm75).
  rewrite FloatAxioms.mul_spec, Hf, H75. unfold SF64mul, SFmul. cbn [xorb].
  (* the digits of 3 b *)
  assert (H3b : 0 < 3 * b) by lia.
  destruct (3 * b) as [|p3|p3] eqn:Hp3; [lia| |lia].
  pose proof (digits2_pos_bounds p3) as [Hlo3 Hhi3].
  set (d3 := Z.pos (digits2_pos p3)) in *.
  assert (Hd3 : 2 ≤ d3 ≤ 53).
  { split.
    - destruct (Z.le_gt_cases 2 d3) as [|Hlt]; [done|].
      assert (2 ^ d3 ≤ 2 ^ 1) by (apply Z.pow_le_mono_r; lia).
      change (2 ^ 1) with 2 in *. lia.
    - destruct (Z.le_gt_cases d3 53) as [|Hgt]; [done|].
      assert (2 ^ 53 ≤ 2 ^ (d3 - 1)) by (apply Z.pow_le_mono_r; lia).
      rewrite E53 in *. lia. }
  destruct (pos_mul_pow2 p3 (53 - d3) ltac:(lia)) as [M0 HM0].
  assert (HdM0 : Z.pos (digits2_pos M0) = 53).
  { rewrite (digits2_pos_shift p3 M0 (53 - d3)); [fold d3; lia|lia|done]. }
  exists M0, (53 - d3). 
  replace (Z.pos (m * m75)) with (Z.pos M0 * 2 ^ (d3 - e - 2)).
  - rewrite binary_round_aux_exact by (done || lia).
    split_and!; [f_equal; lia|lia|done].
  - rewrite Pos2Z.inj_mul, Hm, Hm75, HM0.
    replace (b * 2 ^ (- e) * (3 * 2 ^ 51)) with (Z.pos p3 * (2 ^ (- e) * 2 ^ 51)) by lia.
    rewrite <- Z.mul_assoc. f_equal.
    rewrite <- !Z.pow_add_r by lia. f_equal. lia.
Qed.

Lemma ceil_three_quarters (a k : Z) :
  0 ≤ a → 0 ≤ k → - ((- (a * 2 ^ k)) / 2 ^ (k + 2)) = (a + 3) / 4.
Proof.
  intros Ha Hk. rewrite Z.pow_add_r by lia. change (2 ^ 2) with 4.
  assert (Hp : 0 < 2 ^ k) by (by apply Z.pow_pos_nonneg).
  rewrite <- Z.mul_opp_l, (Z.mul_comm (2 ^ k) 4), Z.div_mul_cancel_r by lia.
  pose proof (Z.div_mod (a + 3) 4 ltac:(lia)) as Hdm.
  pose proof (Z.mod_pos_bound (a + 3) 4 ltac:(lia)) as Hmb.
  rewrite <- (Z.div_unique (- a) 4 (- ((a + 3) / 4)) (3 - (a + 3) mod 4)); lia.
Qed.

Theorem math_ceil_three_quarters (b : Z) :
  0 ≤ b ≤ 2 ^ 51 →
  math_ceil (float_of_int b * 0.75) = Ok ((3 * b + 3) / 4).
Proof.
  intros Hb. destruct (Z.eq_dec b 0) as [->|Hne].
  - vm_compute. reflexivity.
  - destruct (three_quarters_product b ltac:(lia)) as (M0 & k & Hp & Hk & HM0).
    unfold math_ceil. rewrite Hp.
    replace (0 <=? - k - 2) with false by (symmetry; apply Z.leb_gt; lia).
    f_equal. rewrite HM0. replace (- (- k - 2)) with (k + 2) by lia.
    apply ceil_three_quarters; lia.
Qed.

(** * Properties *)

Section Properties.

Context {State Action Loc : Type} {game : isolation.Isolation State Action Loc}.
Context {action_eq : EqDecision Action} {runtime : Runtime}.

Local Abbreviation node := (MCTSNode (State := State) (Action := Action)).
Local Abbreviation World := (world (State := State) (Action := Action)).
Local Abbreviation store := (list node).

Local Arguments ancestors : simpl never.
Local Arguments expanded : simpl never.
Local Arguments passes : simpl never.

(** ** Running statements *)

Lemma run_bind {A B} (m : M A) (k : A → M B) (w : World) :
  (m ≫= k) w =
  match m w with
  | (Ok a, w') => k a w'
  | (Raise e, w') => (Raise e, w')
  | (Outside, w') => (Outside, w')
  end.
Proof. reflexivity. Qed.

Lemma run_ret {A} (a : A) (w : World) : mret (M := M) a w = (Ok a, w).
Proof. reflexivity. Qed.

Lemma with_heap_heap (h : store) (w : World) : heap (with_heap h w) = h.
Proof. reflexivity. Qed.

Lemma with_heap_id (w : World) : with_heap (heap w) w = w.
Proof. by destruct w. Qed.

Lemma with_heap_twice (h h' : store) (w : World) :
  with_heap h' (with_heap h w) = with_heap h' w.
Proof. reflexivity. Qed.

(** ** The deadline of the search loop *)

Lemma allowed_time_upto_2000 :
  forallb (λ b, match allowed_time_of b with
                | Ok t => bool_decide (t = (3 * b + 3) `div` 4)
                | _ => false
                end) (seqZ 0 2001) = true.
Proof. vm_compute. reflexivity. Qed.


(** ** The selection score *)


(** ** [random.choice] *)

Lemma random_choice_empty {A} (w : World) :
  random_choice (A := A) [] w = (Raise IndexError, w).
Proof. unfold random_choice. by rewrite lookup_nil. Qed.

Lemma random_choice_nonempty {A} (l : list A) (w : World) :
  l ≠ [] →
  ∃ a, l !! (random_source (rand_calls w) `mod` length l)%nat = Some a
       ∧ random_choice l w = (Ok a, drawn w).
Proof.
  intros Hl. unfold random_choice.
  destruct (l !! (random_source (rand_calls w) `mod` length l)%nat) as [a|] eqn:Hlk.
  - exists a. done.
  - apply lookup_ge_None in Hlk.
    assert (length l ≠ 0)%nat by (destruct l; [done | simpl; lia]).
    pose proof (Nat.mod_upper_bound (random_source (rand_calls w)) (length l)). lia.
Qed.

Lemma random_choice_inv {A} (l : list A) (w w' : World) r :
  random_choice l w = (r, w') →
  (∃ a, r = Ok a ∧ a ∈ l ∧ w' = drawn w) ∨ (r = Raise IndexError ∧ l = [] ∧ w' = w).
Proof.
  destruct l as [|x l].
  - rewrite random_choice_empty. intros [= <- <-]. by right.
  - destruct (random_choice_nonempty (x :: l) w) as (a & Hlk & ->); [done|].
    intros [= <- <-]. left. exists a. split_and!; [done| |done].
    by eapply list_elem_of_lookup_2.
Qed.

(** ** The turn policy *)


(** ** The final selection of [best_action] *)

Lemma best_child_childless (h : store) (self : nat) (sn : node) (c_param : float) :
  h !! self = Some sn → children sn = [] →
  best_child h self c_param = Raise ValueError.
Proof.
  intros Hs Hc. unfold best_child, deref. rewrite Hs. cbn. rewrite Hc. reflexivity.
Qed.

(** What [best_action] returns once its loop is over: the action of the
    best child of the root, and a [ValueError] out of [max] when the root
    has no child at all. *)
Lemma best_action_after_loop fuel self b c_param (w w1 w2 : World) start t vs :
  time_time w = (Ok start, w1) →
  allowed_time_of b = Ok t →
  search_loop fuel fuel self start t w1 = (Ok vs, w2) →
  best_action fuel self b c_param w =
  match heap w2 !! root self with
  | None => (Outside, w2)
  | Some rn =>
      match children rn with
      | [] => (Raise ValueError, w2)
      | _ :: _ =>
          match best_child (heap w2) (root self) c_param with
          | Ok next_node =>
              match heap w2 !! next_node with
              | Some nn => (Ok (action nn), w2)
              | None => (Outside, w2)
              end
          | Raise e => (Raise e, w2)
          | Outside => (Outside, w2)
          end
      end
  end.
Proof.
  intros Ht Ha Hl. unfold best_action.
  rewrite run_bind, Ht, run_bind. unfold lift at 1. rewrite Ha.
  rewrite run_bind, Hl, run_bind. unfold best_child_of.
  destruct (heap w2 !! root self) as [rn|] eqn:Hr.
  - destruct (children rn) as [|c cs] eqn:Hc.
    + by rewrite (best_child_childless _ _ rn _ Hr Hc).
    + destruct (best_child (heap w2) (root self) c_param) as [next| |]; try reflexivity.
      rewrite run_bind. unfold get_node, deref.
      destruct (heap w2 !! next); reflexivity.
  - unfold best_child, deref. rewrite Hr. reflexivity.
Qed.

(** ** [expand] *)

Lemma list_remove_elem (a : Action) (l : list Action) :
  a ∈ l → ∃ l', list_remove a l = Ok l' ∧ a :: l' ≡ₚ l.
Proof.
  induction l as [|y l IH]; intros Hin; [by apply elem_of_nil in Hin|].
  cbn. destruct (decide (y = a)) as [->|Hne].
  - by exists l.
  - apply elem_of_cons in Hin as [->|Hin]; [done|].
    destruct (IH Hin) as (l' & -> & Hp). exists (y :: l'). split; [done|].
    rewrite Permutation_swap. by f_equiv.
Qed.

Lemma alter_as_insert {A} (f : A → A) (i : nat) (l : list A) (x : A) :
  l !! i = Some x → alter f i l = <[i := f x]> l.
Proof.
  intros Hx. apply list_eq. intros j.
  destruct (decide (i = j)) as [<-|Hne].
  - rewrite list_lookup_alter_eq, Hx, list_lookup_insert_eq; [done|].
    by eapply lookup_lt_Some.
  - by rewrite list_lookup_alter_ne, list_lookup_insert_ne.
Qed.

Lemma expand_spec (i : nat) (w w' : World) r :
  expand i w = (r, w') →
  (∃ sn act untried,
      heap w !! i = Some sn ∧ act ∈ untried_actions sn
      ∧ list_remove act (untried_actions sn) = Ok untried
      ∧ r = Ok (length (heap w))
      ∧ w' = with_heap (expanded (heap w) i sn act untried) (drawn w))
  ∨ ((r = Raise IndexError ∨ r = Outside) ∧ w' = w).
Proof.
  unfold expand. rewrite run_bind. unfold get_node at 1, deref.
  destruct (heap w !! i) as [sn|] eqn:Hi; [|intros [= <- <-]; right; auto].
  rewrite run_bind.
  destruct (random_choice (untried_actions sn) w) as [rc w1] eqn:Hrc.
  apply random_choice_inv in Hrc as [(act & -> & Hin & ->)|(-> & _ & ->)];
    [|intros [= <- <-]; right; auto].
  destruct (list_remove_elem act _ Hin) as (untried & Hrm & _).
  rewrite run_bind. unfold lift at 1. rewrite Hrm.
  intros [= <- <-]. left. exists sn, act, untried.
  pose proof (lookup_lt_Some _ _ _ Hi) as Hlt.
  split_and!; try done; cbn.
  - by rewrite length_alter.
  - rewrite !with_heap_twice, length_alter. f_equal. unfold expanded.
    rewrite alter_app_l by (by rewrite length_alter).
    f_equal. rewrite list_alter_alter_eq. by rewrite (alter_as_insert _ _ _ sn).
Qed.

Lemma expanded_length h i (sn : node) act untried :
  length (expanded h i sn act untried) = S (length h).
Proof. unfold expanded. rewrite length_app, length_insert. simpl. lia. Qed.

Lemma expanded_lookup h i (sn : node) act untried j :
  h !! i = Some sn →
  expanded h i sn act untried !! j =
  if decide (j = i) then Some (append_child (length h) (set_untried_actions untried sn))
  else if decide (j = length h)
       then Some (MCTSNode_init (isolation.result (state sn) act) (Some act) (Some i))
       else h !! j.
Proof.
  intros Hi. pose proof (lookup_lt_Some _ _ _ Hi) as Hlt. unfold expanded.
  destruct (decide (j = i)) as [->|Hji].
  - rewrite lookup_app_l by (by rewrite length_insert).
    by apply list_lookup_insert_eq.
  - destruct (decide (j = length h)) as [->|Hjl].
    + rewrite lookup_app_r by (rewrite length_insert; lia).
      rewrite length_insert, Nat.sub_diag. reflexivity.
    + destruct (decide (j < length h)%nat) as [Hj|Hj].
      * rewrite lookup_app_l by (by rewrite length_insert).
        by apply list_lookup_insert_ne.
      * rewrite (lookup_ge_None_2 h) by lia.
        apply lookup_ge_None_2. rewrite length_app, length_insert. simpl. lia.
Qed.

(** ** [backpropagate] touches visit counts and utilities only *)

Lemma same_frame_refl (n : node) : same_frame n n.
Proof. by repeat split. Qed.

Lemma same_frame_trans (n1 n2 n3 : node) :
  same_frame n1 n2 → same_frame n2 n3 → same_frame n1 n3.
Proof. unfold same_frame. intros (?&?&?&?&?) (?&?&?&?&?). split_and!; congruence. Qed.

Lemma backpropagate_inv fuel i r (w w' : World) res :
  backpropagate fuel i r w = (res, w') →
  (res = Ok () ∨ res = Outside)
  ∧ ∃ h', w' = with_heap h' w ∧ Forall2 same_frame (heap w) h'
          ∧ ∀ j, visit_of (heap w) j ≤ visit_of h' j.
Proof.
  revert i r w w' res. induction fuel as [|fuel IH]; intros i r w w' res.
  - cbn. intros [= <- <-]. split; [by right|]. exists (heap w).
    rewrite with_heap_id. split_and!; [done| |done].
    apply Forall_Forall2_diag, Forall_forall. intros; apply same_frame_refl.
  - cbn [backpropagate]. rewrite run_bind. unfold get_node at 1, deref.
    destruct (heap w !! i) as [sn|] eqn:Hi.
    + rewrite run_bind. cbn [update_node].
      set (w1 := with_heap (alter (record_result r) i (heap w)) w).
      assert (Hstep : Forall2 same_frame (heap w) (heap w1)
                      ∧ ∀ j, visit_of (heap w) j ≤ visit_of (heap w1) j).
      { subst w1. rewrite with_heap_heap. split.
        - apply Forall2_alter_r.
          + apply Forall_Forall2_diag, Forall_forall. intros; apply same_frame_refl.
          + intros n n' _ _ Hf. unfold same_frame in *. by cbn.
        - intros j. unfold visit_of.
          destruct (decide (i = j)) as [<-|Hne].
          + rewrite list_lookup_alter_eq, Hi. cbn. lia.
          + by rewrite list_lookup_alter_ne. }
      destruct Hstep as [Hf Hv].
      destruct (parent sn) as [p|].
      * intros Hrec. apply IH in Hrec as (Hres & h' & -> & Hf' & Hv').
        split; [done|]. exists h'. subst w1. rewrite with_heap_twice.
        split_and!; [done| |].
        -- eapply Forall2_trans; [|exact Hf|exact Hf'].
           intros ???. apply same_frame_trans.
        -- intros j. etrans; [apply Hv|apply Hv'].
      * intros [= <- <-]. split; [by left|]. exists (heap w1).
        subst w1. rewrite with_heap_heap. by split_and!.
    + intros [= <- <-]. split; [by right|]. exists (heap w).
      rewrite with_heap_id. split_and!; [done| |done].
      apply Forall_Forall2_diag, Forall_forall. intros; apply same_frame_refl.
Qed.

(** ** Expansion keeps children and untried actions in step *)

Lemma child_actions_ext (h h' : store) (n n' : node) :
  children n' = children n →
  (∀ c, c ∈ children n → h' !! c ≫= action = h !! c ≫= action) →
  child_actions h' n' = child_actions h n.
Proof.
  intros Hc Hl. unfold child_actions. rewrite Hc.
  apply list_fmap_ext. intros k c Hk. apply Hl. by eapply list_elem_of_lookup_2.
Qed.

Lemma expansion_ok_init (h : store) st act par :
  expansion_ok h → expansion_ok (h ++ [MCTSNode_init st act par]).
Proof.
  intros [Hin Hp]. split.
  - intros i n c Hi Hc. rewrite length_app. simpl.
    apply lookup_app_Some in Hi as [Hi|[_ Hi]].
    + specialize (Hin _ _ _ Hi Hc). lia.
    + apply list_lookup_singleton_Some in Hi as [_ <-]. by apply elem_of_nil in Hc.
  - intros i n Hi. apply lookup_app_Some in Hi as [Hi|[_ Hi]].
    + rewrite <- (Hp _ _ Hi). f_equiv. apply reflexive_eq, child_actions_ext; [done|].
      intros c Hc. by rewrite lookup_app_l by eauto.
    + apply list_lookup_singleton_Some in Hi as [_ <-]. reflexivity.
Qed.

Lemma expansion_ok_frame (h h' : store) :
  Forall2 same_frame h h' → expansion_ok h → expansion_ok h'.
Proof.
  intros Hf [Hin Hp].
  assert (Hact : ∀ c, h' !! c ≫= action = h !! c ≫= action).
  { intros c. destruct (h !! c) as [m|] eqn:Hc.
    - destruct (Forall2_lookup_l _ _ _ _ _ Hf Hc) as (m' & -> & Hm). cbn. apply Hm.
    - apply lookup_ge_None in Hc. rewrite (Forall2_length _ _ _ Hf) in Hc.
      by rewrite (lookup_ge_None_2 h'). }
  split.
  - intros i n' c Hi Hc.
    destruct (Forall2_lookup_r _ _ _ _ _ Hf Hi) as (n & Hn & Hm).
    rewrite <- (Forall2_length _ _ _ Hf). eapply Hin; [exact Hn|].
    destruct Hm as (_ & _ & <- & _). done.
  - intros i n' Hi.
    destruct (Forall2_lookup_r _ _ _ _ _ Hf Hi) as (n & Hn & Hm).
    destruct Hm as (Hst & _ & Hch & _ & Hun). rewrite Hst, Hun, <- (Hp _ _ Hn).
    f_equiv. by apply reflexive_eq, child_actions_ext.
Qed.

Lemma expansion_ok_expanded (h : store) i (sn : node) act untried :
  expansion_ok h → h !! i = Some sn → act :: untried ≡ₚ untried_actions sn →
  expansion_ok (expanded h i sn act untried).
Proof.
  intros [Hin Hp] Hi Hperm. pose proof (lookup_lt_Some _ _ _ Hi) as Hlt.
  assert (Hact : ∀ c, (c < length h)%nat →
                      expanded h i sn act untried !! c ≫= action = h !! c ≫= action).
  { intros c Hc. rewrite expanded_lookup by done.
    destruct (decide (c = i)) as [->|_]; [by rewrite Hi|].
    destruct (decide (c = length h)); [lia|done]. }
  split.
  - intros j n c. rewrite expanded_lookup, expanded_length by done.
    destruct (decide (j = i)) as [->|_]; [|destruct (decide (j = length h)) as [->|_]].
    + intros [= <-]. cbn. rewrite elem_of_app, list_elem_of_singleton.
      intros [Hc| ->]; [|lia]. specialize (Hin _ _ _ Hi Hc). lia.
    + intros [= <-]. cbn. intros Hc. by apply elem_of_nil in Hc.
    + intros Hj Hc. specialize (Hin _ _ _ Hj Hc). lia.
  - intros j n. rewrite expanded_lookup by done.
    destruct (decide (j = i)) as [->|_]; [|destruct (decide (j = length h)) as [->|_]].
    + intros [= <-]. cbn [state append_child set_untried_actions untried_actions].
      rewrite <- (Hp _ _ Hi), <- Hperm. unfold child_actions at 1.
      cbn [children append_child set_untried_actions].
      rewrite fmap_app, <- app_assoc. cbn [fmap list_fmap app].
      rewrite expanded_lookup by done.
      destruct (decide (length h = i)) as [|_]; [lia|].
      rewrite decide_True by done. cbn.
      apply reflexive_eq. f_equal.
      apply list_fmap_ext. intros k c Hk. apply Hact. eapply Hin; [exact Hi|].
      by eapply list_elem_of_lookup_2.
    + intros [= <-]. reflexivity.
    + intros Hj. rewrite <- (Hp _ _ Hj). f_equiv.
      apply reflexive_eq, child_actions_ext; [done|].
      intros c Hc. apply Hact. eauto.
Qed.

Lemma node_op_expansion_ok (h h' : store) :
  node_op h h' → expansion_ok h → expansion_ok h'.
Proof.
  intros Hop Hok. destruct Hop as [st act par h|i w|fuel i r w].
  - by apply expansion_ok_init.
  - destruct (expand i w) as [res w'] eqn:Hex. cbn.
    apply expand_spec in Hex as [(sn & act & untried & Hi & Hin & Hrm & _ & ->)|[_ ->]];
      [|done].
    rewrite with_heap_heap. apply expansion_ok_expanded; [done..|].
    destruct (list_remove_elem act _ Hin) as (l' & Hrm' & Hpm). congruence.
  - destruct (backpropagate fuel i r w) as [res w'] eqn:Hbp. cbn.
    apply backpropagate_inv in Hbp as (_ & h' & -> & Hf & _).
    rewrite with_heap_heap. by eapply expansion_ok_frame.
Qed.

Lemma node_op_keeps_nodes (h h' : store) :
  node_op h h' →
  ∀ i n, h !! i = Some n →
    ∃ n', h' !! i = Some n' ∧ state n' = state n
          ∧ (untried_actions n = [] → untried_actions n' = []).
Proof.
  intros Hop i n Hi. destruct Hop as [st act par h|j w|fuel j r w].
  - exists n. split; [by apply lookup_app_l_Some|done].
  - destruct (expand j w) as [res w'] eqn:Hex. cbn.
    apply expand_spec in Hex as [(sn & act & untried & Hj & Hin & Hrm & _ & ->)|[_ ->]];
      [|by exists n].
    rewrite with_heap_heap, expanded_lookup by done.
    destruct (decide (i = j)) as [->|_].
    + eexists. split; [done|]. cbn. assert (n = sn) as -> by congruence.
      split; [done|]. intros Hnil. rewrite Hnil in Hin. by apply elem_of_nil in Hin.
    + destruct (decide (i = length (heap w))) as [->|_].
      * apply lookup_lt_Some in Hi. lia.
      * by exists n.
  - destruct (backpropagate fuel j r w) as [res w'] eqn:Hbp. cbn.
    apply backpropagate_inv in Hbp as (_ & h' & -> & Hf & _).
    rewrite with_heap_heap.
    destruct (Forall2_lookup_l _ _ _ _ _ Hf Hi) as (n' & Hn' & (Hst & _ & _ & _ & Hun)).
    exists n'. split_and!; [done|done|]. intros Hnil. by rewrite Hun.
Qed.

Lemma is_fully_expanded_spec (n : node) :
  is_fully_expanded n = true ↔ untried_actions n = [].
Proof.
  unfold is_fully_expanded. rewrite bool_decide_eq_true. apply length_zero_iff_nil.
Qed.


(** ** Backpropagation along the path to the root *)

Lemma path_to_root_head (h : store) i l :
  path_to_root h i l → ∃ l', l = i :: l'.
Proof. destruct 1; eauto. Qed.

Lemma path_to_root_functional (h : store) i l1 l2 :
  path_to_root h i l1 → path_to_root h i l2 → l1 = l2.
Proof.
  intros Hp. revert l2. induction Hp as [i n Hi Hpar|i n p l Hi Hpar _ IH]; intros l2 Hp2.
  - destruct Hp2 as [i n' Hi' Hpar'|i n' p' l' Hi' Hpar' _]; [done|congruence].
  - destruct Hp2 as [i n' Hi' Hpar'|i n' p' l' Hi' Hpar' Hp2]; [congruence|].
    assert (p' = p) as -> by congruence. f_equal. by apply IH.
Qed.

Lemma path_to_root_suffix (h : store) i l j :
  path_to_root h i l → j ∈ l →
  ∃ l', path_to_root h j l' ∧ (length l' ≤ length l)%nat.
Proof.
  induction 1 as [i n Hi Hpar|i n p l Hi Hpar Hp IH]; intros Hj.
  - apply list_elem_of_singleton in Hj as ->. exists [i]. split; [|done].
    by eapply path_root.
  - apply elem_of_cons in Hj as [->|Hj].
    + exists (i :: l). split; [|done]. by eapply path_parent.
    + destruct (IH Hj) as (l' & Hl' & Hlen). exists l'. split; [done|]. simpl. lia.
Qed.

Lemma path_to_root_NoDup (h : store) i l : path_to_root h i l → NoDup l.
Proof.
  induction 1 as [i n Hi Hpar|i n p l Hi Hpar Hp IH].
  - apply NoDup_singleton.
  - apply NoDup_cons. split; [|done]. intros Hin.
    destruct (path_to_root_suffix _ _ _ _ Hp Hin) as (l' & Hl' & Hlen).
    assert (l' = i :: l) as ->.
    { eapply path_to_root_functional; [exact Hl'|]. by eapply path_parent. }
    simpl in Hlen. lia.
Qed.

Lemma path_to_root_frame (h h' : store) i l :
  Forall2 same_frame h h' → path_to_root h i l → path_to_root h' i l.
Proof.
  intros Hf. induction 1 as [i n Hi Hpar|i n p l Hi Hpar Hp IH].
  - destruct (Forall2_lookup_l _ _ _ _ _ Hf Hi) as (n' & Hn' & (_ & Hpn & _)).
    eapply path_root; [done|congruence].
  - destruct (Forall2_lookup_l _ _ _ _ _ Hf Hi) as (n' & Hn' & (_ & Hpn & _)).
    eapply path_parent; [done|by rewrite Hpn|done].
Qed.

Lemma record_result_frame (h : store) i r :
  Forall2 same_frame h (alter (record_result r) i h).
Proof.
  apply Forall2_alter_r.
  - apply Forall_Forall2_diag, Forall_forall. intros; apply same_frame_refl.
  - intros n n' _ _ Hf. unfold same_frame in *. by cbn.
Qed.

Lemma backpropagate_along_path (fuel : nat) (i : nat) (result : Z) (w : World)
    (l : list nat) :
  path_to_root (heap w) i l → (length l ≤ fuel)%nat →
  ∃ h', backpropagate fuel i result w = (Ok (), with_heap h' w)
        ∧ length h' = length (heap w)
        ∧ (∀ k j n, l !! k = Some j → heap w !! j = Some n →
             h' !! j = Some (record_result ((-1) ^ Z.of_nat k * result) n))
        ∧ (∀ j, j ∉ l → h' !! j = heap w !! j).
Proof.
  intros Hp. revert i fuel result w Hp.
  induction l as [|i0 l IH]; intros i fuel result w Hp Hfuel.
  { by apply path_to_root_head in Hp as [? ?]. }
  destruct (path_to_root_head _ _ _ Hp) as [l0 Heq]. injection Heq as -> <-.
  pose proof (path_to_root_NoDup _ _ _ Hp) as Hnd.
  apply NoDup_cons in Hnd as [Hnotin _].
  destruct fuel as [|fuel]; [simpl in Hfuel; lia|].
  cbn [backpropagate]. rewrite run_bind. unfold get_node at 1, deref.
  inversion Hp as [i' n Hi Hpar|i' n p l' Hi Hpar Hp']; subst i'; try subst l'.
  - subst l. rewrite Hi, run_bind. cbn [update_node]. rewrite Hpar, run_ret.
    eexists. split_and!; [done| | |].
    + by rewrite length_alter.
    + intros k j m Hk Hj. apply list_lookup_singleton_Some in Hk as [-> <-].
      rewrite list_lookup_alter_eq, Hj. cbn. do 2 f_equal. lia.
    + intros j Hj. apply not_elem_of_cons in Hj as [Hj _].
      by rewrite list_lookup_alter_ne.
  - rewrite Hi, run_bind. cbn [update_node]. rewrite Hpar.
    set (h1 := alter (record_result result) i (heap w)).
    assert (Hp1 : path_to_root (heap (with_heap h1 w)) p l).
    { rewrite with_heap_heap. eapply path_to_root_frame; [|exact Hp'].
      apply record_result_frame. }
    destruct (IH p fuel (- result) (with_heap h1 w) Hp1) as (h' & Hrun & Hlen & Hon & Hoff).
    { simpl in Hfuel. lia. }
    exists h'. rewrite Hrun, with_heap_twice. split_and!; [done| | |].
    + rewrite Hlen, with_heap_heap. apply length_alter.
    + intros k j m Hk Hj. destruct k as [|k].
      * injection Hk as <-. rewrite Hoff by done. rewrite with_heap_heap.
        subst h1. rewrite list_lookup_alter_eq, Hj. cbn. do 2 f_equal. lia.
      * cbn in Hk. assert (j ≠ i).
        { intros ->. apply Hnotin. by eapply list_elem_of_lookup_2. }
        rewrite (Hon k j m Hk).
        -- do 2 f_equal. rewrite Nat2Z.inj_succ, Z.pow_succ_r by lia. lia.
        -- rewrite with_heap_heap. subst h1. by rewrite list_lookup_alter_ne.
    + intros j Hj. apply not_elem_of_cons in Hj as [Hji Hjl].
      rewrite Hoff by done. rewrite with_heap_heap. subst h1.
      by rewrite list_lookup_alter_ne.
Qed.



(** ** Ancestors *)

Lemma links_ok_frame (h h' : store) :
  Forall2 same_frame h h' → links_ok h → links_ok h'.
Proof.
  intros Hf Hl i n' Hi.
  destruct (Forall2_lookup_r _ _ _ _ _ Hf Hi) as (n & Hn & (_ & Hpar & Hch & _)).
  destruct (Hl _ _ Hn) as (Hp & Hc & Hnd). rewrite Hpar, Hch. split_and!; [done| |done].
  intros c Hcin. destruct (Hc _ Hcin) as (m & Hm & Hpm).
  destruct (Forall2_lookup_l _ _ _ _ _ Hf Hm) as (m' & Hm' & (_ & Hpar' & _)).
  exists m'. split; [done|congruence].
Qed.

Lemma lineage_ext (h h' : store) fuel i :
  links_ok h →
  (∀ j n, (j ≤ i)%nat → h !! j = Some n → ∃ n', h' !! j = Some n' ∧ parent n' = parent n) →
  is_Some (h !! i) →
  lineage fuel h' i = lineage fuel h i.
Proof.
  intros Hl. revert i. induction fuel as [|fuel IH]; intros i Hsame [n Hi]; [done|].
  cbn. rewrite Hi. destruct (Hsame i n (le_n _) Hi) as (n' & -> & ->).
  f_equal. destruct (parent n) as [p|] eqn:Hpar; [|done].
  destruct (Hl _ _ Hi) as (Hp & _). specialize (Hp _ Hpar).
  apply IH.
  - intros j m Hj. apply Hsame. lia.
  - apply lookup_lt_is_Some. apply lookup_lt_Some in Hi. lia.
Qed.

Lemma lineage_path (h : store) fuel i :
  links_ok h → (i < fuel)%nat → is_Some (h !! i) →
  path_to_root h i (lineage fuel h i).
Proof.
  intros Hl. revert i. induction fuel as [|fuel IH]; intros i Hlt [n Hi]; [lia|].
  cbn. rewrite Hi. destruct (parent n) as [p|] eqn:Hpar.
  - destruct (Hl _ _ Hi) as (Hp & _). specialize (Hp _ Hpar).
    eapply path_parent; [done..|]. apply IH; [lia|].
    apply lookup_lt_is_Some. apply lookup_lt_Some in Hi. lia.
  - by eapply path_root.
Qed.

Lemma ancestors_path (h : store) i :
  links_ok h → is_Some (h !! i) → path_to_root h i (ancestors h i).
Proof. intros. apply lineage_path; [done|lia|done]. Qed.

Lemma ancestors_unfold (h : store) i n :
  links_ok h → h !! i = Some n →
  ancestors h i = i :: match parent n with
                       | Some p => ancestors h p
                       | None => []
                       end.
Proof.
  intros Hl Hi. unfold ancestors at 1. cbn. rewrite Hi. f_equal.
  destruct (parent n) as [p|] eqn:Hpar; [|done].
  destruct (Hl _ _ Hi) as (Hp & _). specialize (Hp _ Hpar).
  assert (is_Some (h !! p)).
  { apply lookup_lt_is_Some. apply lookup_lt_Some in Hi. lia. }
  eapply path_to_root_functional; [|by apply ancestors_path].
  by apply lineage_path.
Qed.

Lemma ancestors_self (h : store) i :
  is_Some (h !! i) → i ∈ ancestors h i.
Proof. intros [n Hi]. unfold ancestors. cbn. rewrite Hi. apply list_elem_of_here. Qed.

Lemma ancestors_frame (h h' : store) i :
  links_ok h → Forall2 same_frame h h' → is_Some (h !! i) →
  ancestors h' i = ancestors h i.
Proof.
  intros Hl Hf Hi. apply lineage_ext; [done| |done].
  intros j n _ Hj.
  destruct (Forall2_lookup_l _ _ _ _ _ Hf Hj) as (n' & Hn' & (_ & Hpar & _)). eauto.
Qed.

(** ** What [best_child] returns, and what it cannot raise *)

Lemma best_child_loop_subset (h : store) (sn : node) c ts ms acc ms' acc' :
  best_child_loop h sn c ts ms acc = Ok (ms', acc') →
  ∀ x, x ∈ acc' → x ∈ acc ∨ x ∈ ts.
Proof.
  revert ms acc. induction ts as [|t ts IH]; intros ms acc; cbn.
  - intros [= _ <-]. auto.
  - destruct (deref h t) as [tn| |]; cbn; [|done..].
    destruct (score sn tn c) as [sc| |]; cbn; [|done..].
    destruct (ms <? sc)%float; [|destruct (sc =? ms)%float].
    + intros Hl x Hx. destruct (IH _ _ Hl x Hx) as [Hin|Hin].
      * apply list_elem_of_singleton in Hin as ->. right. apply list_elem_of_here.
      * right. by apply list_elem_of_further.
    + intros Hl x Hx. destruct (IH _ _ Hl x Hx) as [Hin|Hin].
      * apply elem_of_app in Hin as [Hin|Hin]; [by left|].
        apply list_elem_of_singleton in Hin as ->. right. apply list_elem_of_here.
      * right. by apply list_elem_of_further.
    + intros Hl x Hx. destruct (IH _ _ Hl x Hx) as [Hin|Hin]; [by left|].
      right. by apply list_elem_of_further.
Qed.

Lemma py_getitem_elem {A} (l : list A) i x : py_getitem l i = Ok x → x ∈ l.
Proof.
  unfold py_getitem. destruct (l !! i) eqn:Hl; [|done].
  intros [= <-]. by eapply list_elem_of_lookup_2.
Qed.

Lemma best_child_elem (h : store) self c r :
  best_child h self c = Ok r →
  ∃ sn, h !! self = Some sn ∧ r ∈ children sn.
Proof.
  unfold best_child, deref. destruct (h !! self) as [sn|]; cbn; [|done].
  destruct (best_child_loop h sn c (children sn) (-999) []) as [[ms acc]| |] eqn:Hl;
    cbn; [|done..].
  destruct (helper_scores_of h acc) as [hs| |]; cbn; [|done..].
  destruct (py_max hs) as [m| |]; cbn; [|done..].
  destruct (py_index m hs) as [i| |]; cbn; [|done..].
  intros Hg%py_getitem_elem. exists sn. split; [done|].
  destruct (best_child_loop_subset _ _ _ _ _ _ _ _ Hl r Hg) as [Hin|Hin]; [|done].
  by apply elem_of_nil in Hin.
Qed.

Lemma score_not_zero_division (sn tn : node) c :
  visit tn ≠ 0 → score sn tn c ≠ Raise ZeroDivisionError.
Proof.
  intros Hv. unfold score, py_truediv. destruct (decide (visit tn = 0)); [done|]. cbn.
  unfold math_log. destruct (_ <=? 0)%float; cbn; [done|].
  unfold math_sqrt. destruct (_ <? 0)%float; cbn; done.
Qed.

Lemma best_child_loop_not_zero_division (h : store) (sn : node) c ts ms acc :
  (∀ t tn, t ∈ ts → h !! t = Some tn → visit tn ≠ 0) →
  best_child_loop h sn c ts ms acc ≠ Raise ZeroDivisionError.
Proof.
  revert ms acc. induction ts as [|t ts IH]; intros ms acc Hv; cbn; [done|].
  unfold deref. destruct (h !! t) as [tn|] eqn:Ht; cbn; [|done].
  pose proof (score_not_zero_division sn tn c) as Hs.
  destruct (score sn tn c) as [sc|e|]; cbn; [| |done].
  - assert (∀ t' tn', t' ∈ ts → h !! t' = Some tn' → visit tn' ≠ 0).
    { intros t' tn' Hin. apply Hv. by apply list_elem_of_further. }
    destruct (ms <? sc)%float; [|destruct (sc =? ms)%float]; by apply IH.
  - intros [= ->]. apply Hs; [|done]. eapply Hv; [|done]. apply list_elem_of_here.
Qed.

Lemma helper_scores_of_never_raises (h : store) xs e :
  helper_scores_of h xs ≠ Raise e.
Proof.
  induction xs as [|x xs IH]; cbn; [done|].
  unfold deref. destruct (h !! x); cbn; [|done].
  destruct (helper_scores_of h xs); cbn; done.
Qed.

Lemma py_index_raises x l e : py_index x l = Raise e → e = ValueError.
Proof.
  induction l as [|y l IH]; cbn; [by intros [= <-]|].
  destruct (decide (y = x)); [done|].
  destruct (py_index x l); cbn; [done| |done]. intros [= <-]. by apply IH.
Qed.

Lemma py_max_raises l e : py_max l = Raise e → e = ValueError.
Proof. destruct l; cbn; [by intros [= <-]|done]. Qed.

Lemma best_child_not_zero_division (h : store) self c :
  (∀ sn t tn, h !! self = Some sn → t ∈ children sn → h !! t = Some tn → visit tn ≠ 0) →
  best_child h self c ≠ Raise ZeroDivisionError.
Proof.
  intros Hv. unfold best_child, deref. destruct (h !! self) as [sn|] eqn:Hs; cbn; [|done].
  pose proof (best_child_loop_not_zero_division h sn c (children sn) (-999) []) as Hl.
  destruct (best_child_loop h sn c (children sn) (-999) []) as [[ms acc]|e|]; cbn; [| |done].
  - pose proof (helper_scores_of_never_raises h acc) as Hh.
    destruct (helper_scores_of h acc) as [hs|e|]; cbn; [| |done].
    + pose proof (py_max_raises hs) as Hm.
      destruct (py_max hs) as [m|e|]; cbn; [| |done].
      * pose proof (py_index_raises m hs) as Hi.
        destruct (py_index m hs) as [i|e|]; cbn; [| |done].
        -- unfold py_getitem. destruct (acc !! i); done.
        -- intros [= ->]. by specialize (Hi _ eq_refl).
      * intros [= ->]. by specialize (Hm _ eq_refl).
    + intros [= ->]. by eapply Hh.
  - intros [= ->]. apply Hl; [|done]. intros t tn. by apply Hv.
Qed.

(** ** The tree between two turns of the search loop *)

Lemma visit_of_lookup (h : store) i n : h !! i = Some n → visit_of h i = visit n.
Proof. unfold visit_of. by intros ->. Qed.

Lemma sum_visits_cons (h : store) c cs :
  sum_visits h (c :: cs) = visit_of h c + sum_visits h cs.
Proof. reflexivity. Qed.

Lemma sum_visits_ext (h h' : store) cs :
  (∀ c, c ∈ cs → visit_of h' c = visit_of h c) →
  sum_visits h' cs = sum_visits h cs.
Proof.
  induction cs as [|c cs IH]; intros Hv; [done|].
  rewrite !sum_visits_cons, Hv by apply list_elem_of_here. rewrite IH; [done|].
  intros c' Hc'. apply Hv. by apply list_elem_of_further.
Qed.

Lemma sum_visits_app (h : store) cs1 cs2 :
  sum_visits h (cs1 ++ cs2) = sum_visits h cs1 + sum_visits h cs2.
Proof.
  induction cs1 as [|c cs1 IH]; [done|].
  rewrite <- app_comm_cons, !sum_visits_cons, IH. lia.
Qed.

Lemma visit_of_record_result (h : store) v r j :
  visit_of (alter (record_result r) v h) j =
  visit_of h j + (if decide (v = j) then match h !! v with Some _ => 1 | None => 0 end
                  else 0).
Proof.
  unfold visit_of. destruct (decide (v = j)) as [<-|Hne].
  - rewrite list_lookup_alter_eq. destruct (h !! v); cbn; lia.
  - rewrite list_lookup_alter_ne by done. lia.
Qed.

Lemma sum_visits_record_result (h : store) v r cs :
  NoDup cs → is_Some (h !! v) →
  sum_visits (alter (record_result r) v h) cs =
  sum_visits h cs + (if decide (v ∈ cs) then 1 else 0).
Proof.
  intros Hnd [n Hv]. induction Hnd as [|c cs Hc Hnd IH].
  - rewrite decide_False by apply not_elem_of_nil. done.
  - rewrite !sum_visits_cons, IH, visit_of_record_result, Hv.
    destruct (decide (v = c)) as [->|Hne].
    + rewrite (decide_True (P := c ∈ c :: cs)) by apply list_elem_of_here.
      rewrite (decide_False (P := c ∈ cs)) by done. lia.
    + destruct (decide (v ∈ cs)) as [Hin|Hin].
      * rewrite decide_True by (by apply list_elem_of_further). lia.
      * rewrite decide_False; [lia|]. rewrite elem_of_cons. tauto.
Qed.

Lemma expanded_tree_ok (h : store) i (sn : node) act untried :
  tree_ok h → h !! i = Some sn →
  links_ok (expanded h i sn act untried)
  ∧ visited_except (Some (length h)) (expanded h i sn act untried)
  ∧ sums_ok (expanded h i sn act untried)
  ∧ grows h (expanded h i sn act untried)
  ∧ (∀ j, visit_of (expanded h i sn act untried) j = visit_of h j).
Proof.
  intros (Hl & Hv & Hs) Hi. pose proof (lookup_lt_Some _ _ _ Hi) as Hlt.
  set (h' := expanded h i sn act untried).
  set (sn' := append_child (length h) (set_untried_actions untried sn)).
  assert (Hold : ∀ j m, h !! j = Some m →
            ∃ m', h' !! j = Some m' ∧ parent m' = parent m ∧ visit m' = visit m).
  { intros j m Hj. subst h'. rewrite expanded_lookup by done.
    destruct (decide (j = i)) as [->|_].
    - exists sn'. assert (m = sn) as -> by congruence. done.
    - destruct (decide (j = length h)) as [->|_]; [|by exists m].
      apply lookup_lt_Some in Hj. lia. }
  assert (Hcs : ∀ j m c, h !! j = Some m → c ∈ children m → (c < length h)%nat).
  { intros j m c Hj Hc. destruct (Hl _ _ Hj) as (_ & Hch & _).
    destruct (Hch _ Hc) as (mc & Hmc & _). by eapply lookup_lt_Some. }
  assert (Hvo : ∀ c, (c < length h)%nat → visit_of h' c = visit_of h c).
  { intros c Hc. destruct (lookup_lt_is_Some_2 h c Hc) as [m Hm].
    destruct (Hold _ _ Hm) as (m' & Hm' & _ & Hvm).
    by rewrite (visit_of_lookup _ _ _ Hm), (visit_of_lookup _ _ _ Hm'). }
  split_and!.
  - intros j n. subst h'. rewrite expanded_lookup by done.
    destruct (decide (j = i)) as [->|_]; [|destruct (decide (j = length h)) as [->|_]].
    + intros [= <-]. destruct (Hl _ _ Hi) as (Hp & Hch & Hnd). cbn. split_and!; [done| |].
      * intros c [Hc| ->%list_elem_of_singleton]%elem_of_app.
        -- destruct (Hch _ Hc) as (m & Hm & Hpm).
           destruct (Hold _ _ Hm) as (m' & Hm' & Hpm' & _).
           exists m'. split; [done|congruence].
        -- eexists. rewrite expanded_lookup by done.
           rewrite decide_False by lia. rewrite decide_True by done. done.
      * apply NoDup_app. split_and!; [done| |apply NoDup_singleton].
        intros c Hc ->%list_elem_of_singleton. specialize (Hcs _ _ _ Hi Hc). lia.
    + intros [= <-]. cbn. split_and!.
      * by intros p [= <-].
      * intros c Hc. by apply elem_of_nil in Hc.
      * apply NoDup_nil_2.
    + intros Hj. destruct (Hl _ _ Hj) as (Hp & Hch & Hnd). split_and!; [done| |done].
      intros c Hc. destruct (Hch _ Hc) as (m & Hm & Hpm).
      destruct (Hold _ _ Hm) as (m' & Hm' & Hpm' & _).
      exists m'. split; [done|congruence].
  - intros j n. subst h'. rewrite expanded_lookup by done.
    assert (Haux : ∀ n0 c m, h !! j = Some n0 → c ∈ children n0 →
               expanded h i sn act untried !! c = Some m → 1 ≤ visit m).
    { intros n0 c m Hj Hc Hm. destruct (Hl _ _ Hj) as (_ & Hch & _).
      destruct (Hch _ Hc) as (mc & Hmc & _).
      destruct (Hold _ _ Hmc) as (m' & Hm' & _ & Hvm).
      assert (m' = m) as -> by congruence. rewrite Hvm.
      destruct (Hv _ _ Hj) as [_ Hvc]. by eapply Hvc. }
    destruct (decide (j = i)) as [->|_]; [|destruct (decide (j = length h)) as [->|_]].
    + intros [= <-]. cbn. split; [by apply (Hv _ _ Hi)|].
      intros c m [Hc| ->%list_elem_of_singleton]%elem_of_app Hm Hne; [|done].
      by eapply Haux.
    + intros [= <-]. cbn. split; [done|]. intros c m Hc. by apply elem_of_nil in Hc.
    + intros Hj. split; [by apply (Hv _ _ Hj)|]. intros c m Hc Hm _. by eapply Haux.
  - intros j n. subst h'. rewrite expanded_lookup by done.
    destruct (decide (j = i)) as [->|_]; [|destruct (decide (j = length h)) as [->|_]].
    + intros [= <-]. cbn [children append_child set_untried_actions visit].
      rewrite sum_visits_app, sum_visits_cons.
      assert (visit_of (expanded h i sn act untried) (length h) = 0) as ->.
      { unfold visit_of. rewrite expanded_lookup by done.
        rewrite decide_False by lia. by rewrite decide_True. }
      rewrite (sum_visits_ext h _ (children sn)).
      * specialize (Hs _ _ Hi). unfold sum_visits at 2. cbn. lia.
      * intros c Hc. apply Hvo. eauto.
    + intros [= <-]. cbn. done.
    + intros Hj. rewrite (sum_visits_ext h); [by apply (Hs _ _ Hj)|].
      intros c Hc. apply Hvo. eauto.
  - intros j m Hj. destruct (Hold _ _ Hj) as (m' & Hm' & Hpm & _). eauto.
  - intros j. destruct (decide (j < length h)%nat) as [Hj|Hj]; [by apply Hvo|].
    unfold visit_of. rewrite (lookup_ge_None_2 h) by lia.
    subst h'. rewrite expanded_lookup by done.
    rewrite decide_False by lia.
    destruct (decide (j = length h)) as [->|Hne]; [done|].
    by rewrite (lookup_ge_None_2 h) by lia.
Qed.

Lemma backpropagate_visits_start fuel v r (w w' : World) :
  backpropagate fuel v r w = (Ok (), w') →
  visit_of (heap w) v + 1 ≤ visit_of (heap w') v.
Proof.
  destruct fuel as [|fuel]; [done|].
  cbn [backpropagate]. rewrite run_bind. unfold get_node at 1, deref.
  destruct (heap w !! v) as [sn|] eqn:Hv; [|done].
  rewrite run_bind. cbn [update_node].
  set (w1 := with_heap (alter (record_result r) v (heap w)) w).
  assert (visit_of (heap w1) v = visit_of (heap w) v + 1) as Hw1.
  { subst w1. rewrite with_heap_heap, visit_of_record_result, Hv.
    by rewrite decide_True. }
  destruct (parent sn) as [p|].
  - intros Hrec. apply backpropagate_inv in Hrec as (_ & h' & -> & _ & Hmono).
    rewrite with_heap_heap. specialize (Hmono v). lia.
  - intros [= <-]. lia.
Qed.

Lemma backpropagate_sums fuel v r (w w' : World) :
  links_ok (heap w) →
  (∀ j n, j ≠ v → heap w !! j = Some n → sum_visits (heap w) (children n) ≤ visit n) →
  (∀ n, heap w !! v = Some n → sum_visits (heap w) (children n) ≤ visit n + 1) →
  backpropagate fuel v r w = (Ok (), w') →
  sums_ok (heap w').
Proof.
  revert v r w. induction fuel as [|fuel IH]; intros v r w Hl Hoth Hat; [done|].
  cbn [backpropagate]. rewrite run_bind. unfold get_node at 1, deref.
  destruct (heap w !! v) as [sn|] eqn:Hv; [|done].
  rewrite run_bind. cbn [update_node].
  set (h1 := alter (record_result r) v (heap w)).
  assert (Hl1 : links_ok h1).
  { eapply links_ok_frame; [|exact Hl]. apply record_result_frame. }
  assert (Hsum : ∀ j n, heap w !! j = Some n →
            sum_visits h1 (children n) ≤
            sum_visits (heap w) (children n)
            + (if decide (parent sn = Some j) then 1 else 0)).
  { intros j n Hj. destruct (Hl _ _ Hj) as (_ & Hch & Hnd).
    subst h1. rewrite sum_visits_record_result by (done || by rewrite Hv).
    destruct (decide (v ∈ children n)) as [Hin|Hin].
    - destruct (Hch _ Hin) as (m & Hm & Hpm). assert (m = sn) as -> by congruence.
      by rewrite decide_True.
    - destruct (decide (parent sn = Some j)); lia. }
  assert (Hself : ∀ j n, h1 !! j = Some n →
            ∃ n0, heap w !! j = Some n0 ∧ children n = children n0
                  ∧ visit n = visit n0 + (if decide (v = j) then 1 else 0)).
  { intros j n. subst h1. destruct (decide (v = j)) as [<-|Hne].
    - rewrite list_lookup_alter_eq, Hv. intros [= <-]. by exists sn.
    - rewrite list_lookup_alter_ne by done. intros Hj. exists n. split_and!; [done..|lia]. }
  destruct (parent sn) as [p|] eqn:Hpar.
  - intros Hrec. eapply (IH p (- r) (with_heap h1 w)); [done| | |exact Hrec];
      rewrite with_heap_heap.
    + intros j n Hjp Hj. destruct (Hself _ _ Hj) as (n0 & Hn0 & -> & ->).
      pose proof (Hsum _ _ Hn0) as Hle.
      rewrite decide_False in Hle by congruence.
      destruct (decide (v = j)) as [<-|Hne].
      * assert (n0 = sn) as -> by congruence. specialize (Hat _ eq_refl). lia.
      * specialize (Hoth _ _ (not_eq_sym Hne) Hn0). lia.
    + intros n Hj. destruct (Hself _ _ Hj) as (n0 & Hn0 & -> & ->).
      pose proof (Hsum _ _ Hn0) as Hle. rewrite decide_True in Hle by done.
      destruct (Hl _ _ Hv) as (Hp & _). specialize (Hp _ Hpar).
      rewrite decide_False by lia. specialize (Hoth p n0 ltac:(lia) Hn0). lia.
  - intros [= <-]. rewrite with_heap_heap. intros j n Hj.
    destruct (Hself _ _ Hj) as (n0 & Hn0 & -> & ->).
    pose proof (Hsum _ _ Hn0) as Hle. rewrite decide_False in Hle by done.
    destruct (decide (v = j)) as [<-|Hne].
    + assert (n0 = sn) as -> by congruence. specialize (Hat _ eq_refl). lia.
    + specialize (Hoth _ _ (not_eq_sym Hne) Hn0). lia.
Qed.

Lemma grows_refl (h : store) : grows h h.
Proof. intros j n Hj. eauto. Qed.

Lemma grows_trans (h1 h2 h3 : store) : grows h1 h2 → grows h2 h3 → grows h1 h3.
Proof.
  intros H12 H23 j n Hj. destruct (H12 _ _ Hj) as (n2 & Hn2 & Hp2).
  destruct (H23 _ _ Hn2) as (n3 & Hn3 & Hp3). exists n3. split; [done|congruence].
Qed.

Lemma grows_frame (h h' : store) : Forall2 same_frame h h' → grows h h'.
Proof.
  intros Hf j n Hj.
  destruct (Forall2_lookup_l _ _ _ _ _ Hf Hj) as (n' & Hn' & (_ & Hpar & _)). eauto.
Qed.

Lemma ancestors_grows (h h' : store) i :
  links_ok h → grows h h' → is_Some (h !! i) → ancestors h' i = ancestors h i.
Proof. intros Hl Hg Hi. apply lineage_ext; [done| |done]. intros j n _. apply Hg. Qed.

Lemma ancestors_valid (h : store) i x : x ∈ ancestors h i → is_Some (h !! i).
Proof.
  unfold ancestors. cbn. destruct (h !! i); [eauto|]. intros Hx. by apply elem_of_nil in Hx.
Qed.

Lemma backpropagate_restores fuel v r (w w' : World) :
  links_ok (heap w) → visited_except (Some v) (heap w) → sums_ok (heap w) →
  backpropagate fuel v r w = (Ok (), w') →
  tree_ok (heap w') ∧ Forall2 same_frame (heap w) (heap w').
Proof.
  intros Hl Hv Hs Hbp.
  pose proof (backpropagate_visits_start _ _ _ _ _ Hbp) as Hstart.
  pose proof (backpropagate_sums fuel v r w w' Hl) as Hsums.
  destruct (backpropagate_inv _ _ _ _ _ _ Hbp) as (_ & h' & -> & Hf & Hmono).
  rewrite with_heap_heap in *. split; [|done]. split_and!.
  - by eapply links_ok_frame.
  - intros i n' Hi.
    destruct (Forall2_lookup_r _ _ _ _ _ Hf Hi) as (n & Hn & (_ & _ & Hch & _)).
    destruct (Hv _ _ Hn) as [Hn0 Hc]. split.
    + specialize (Hmono i). rewrite (visit_of_lookup _ _ _ Hn) in Hmono.
      rewrite (visit_of_lookup _ _ _ Hi) in Hmono. lia.
    + intros c m' Hcin Hm' _. rewrite Hch in Hcin.
      destruct (Forall2_lookup_r _ _ _ _ _ Hf Hm') as (m & Hm & _).
      specialize (Hmono c). rewrite (visit_of_lookup _ _ _ Hm) in Hmono.
      rewrite (visit_of_lookup _ _ _ Hm') in Hmono.
      destruct (decide (c = v)) as [->|Hne].
      * rewrite (visit_of_lookup _ _ _ Hm), (visit_of_lookup _ _ _ Hm') in Hstart.
        destruct (Hv _ _ Hm) as [Hm0 _]. lia.
      * assert (1 ≤ visit m) by (eapply Hc; [done..|congruence]). lia.
  - eapply Hsums; [| |exact Hbp].
    + intros j n _ Hj. exact (Hs _ _ Hj).
    + intros n Hn. specialize (Hs _ _ Hn). lia.
Qed.

Lemma backpropagate_ok_fuel fuel v r (w w' : World) l :
  path_to_root (heap w) v l →
  backpropagate fuel v r w = (Ok (), w') → (length l ≤ fuel)%nat.
Proof.
  intros Hp. revert v fuel r w w' Hp.
  induction l as [|i0 l IH]; intros v fuel r w w' Hp; [simpl; lia|].
  destruct fuel as [|fuel]; [done|].
  cbn [backpropagate]. rewrite run_bind. unfold get_node at 1, deref.
  inversion Hp as [i' n Hi Hpar|i' n p l' Hi Hpar Hp']; subst.
  - simpl. lia.
  - rewrite Hi, run_bind. cbn [update_node]. rewrite Hpar. intros Hrec.
    apply (IH p) in Hrec; [simpl; lia|].
    rewrite with_heap_heap. eapply path_to_root_frame; [|exact Hp'].
    apply record_result_frame.
Qed.

Lemma backpropagate_visits fuel v r (w w' : World) :
  links_ok (heap w) → is_Some (heap w !! v) →
  backpropagate fuel v r w = (Ok (), w') →
  ∀ j, visit_of (heap w') j =
       visit_of (heap w) j + (if decide (j ∈ ancestors (heap w) v) then 1 else 0).
Proof.
  intros Hl Hv Hbp j.
  pose proof (ancestors_path _ _ Hl Hv) as Hp.
  pose proof (backpropagate_ok_fuel _ _ _ _ _ _ Hp Hbp) as Hfuel.
  destruct (backpropagate_along_path fuel v r w _ Hp Hfuel) as (h' & Hrun & Hlen & Hon & Hoff).
  rewrite Hbp in Hrun. injection Hrun as ->. rewrite with_heap_heap.
  destruct (decide (j ∈ ancestors (heap w) v)) as [Hin|Hin].
  - apply list_elem_of_lookup_1 in Hin as [k Hk].
    destruct (lookup_lt_is_Some_2 (heap w) j) as [n Hn].
    { destruct (path_to_root_suffix _ _ _ j Hp) as (l' & Hl' & _).
      { by eapply list_elem_of_lookup_2. }
      destruct Hl'; by eapply lookup_lt_Some. }
    unfold visit_of. rewrite (Hon _ _ _ Hk Hn), Hn. done.
  - unfold visit_of. rewrite (Hoff _ Hin). lia.
Qed.

(** ** One turn of the search loop *)

Lemma playout_loop_heap fuel st (w w' : World) r :
  playout_loop fuel st w = (r, w') →
  heap w' = heap w ∧ r ≠ Raise ZeroDivisionError.
Proof.
  revert st w. induction fuel as [|fuel IH]; intros st w; cbn [playout_loop].
  - intros [= <- <-]. done.
  - destruct (negb (isolation.terminal_test st)).
    + rewrite run_bind. unfold rollout_policy.
      destruct (random_choice (isolation.actions st) w) as [rc w1] eqn:Hrc.
      apply random_choice_inv in Hrc as [(a & -> & _ & ->)|(-> & _ & ->)].
      * intros Hrec. apply IH in Hrec as [-> ?]. done.
      * intros [= <- <-]. done.
    + intros [= <- <-]. done.
Qed.

Lemma playout_policy_heap fuel v pid (w w' : World) r :
  playout_policy fuel v pid w = (r, w') →
  heap w' = heap w ∧ r ≠ Raise ZeroDivisionError
  ∧ ∀ x, r = Ok x → x = 1 ∨ x = -1 ∨ x = 0.
Proof.
  unfold playout_policy. rewrite run_bind. unfold get_node at 1, deref.
  destruct (heap w !! v) as [sn|]; [|by intros [= <- <-]].
  rewrite run_bind.
  destruct (playout_loop fuel (state sn) w) as [rl w1] eqn:Hl.
  apply playout_loop_heap in Hl as [Hh Hz].
  destruct rl as [st|e|];
    [|intros [= <- <-]; split_and!; [done|by intros [= ->]|by intros ? [=]]
     |intros [= <- <-]; split_and!; [done|done|by intros ? [=]]].
  destruct (_ =? infinity)%float; [|destruct (_ =? neg_infinity)%float];
    intros [= <- <-]; split_and!; try done; intros x [= <-]; auto.
Qed.

Lemma tree_policy_loop_spec fuel cur rt (w w' : World) r :
  tree_ok (heap w) → rt ∈ ancestors (heap w) cur →
  tree_policy_loop fuel cur w = (r, w') →
  match r with
  | Ok v =>
      links_ok (heap w') ∧ visited_except (Some v) (heap w') ∧ sums_ok (heap w')
      ∧ grows (heap w) (heap w')
      ∧ rt ∈ ancestors (heap w') v
      ∧ ∀ j, visit_of (heap w') j = visit_of (heap w) j
  | Raise e => e ≠ ZeroDivisionError
  | Outside => True
  end.
Proof.
  intros Hok. pose proof Hok as (Hl & Hv & Hs).
  revert cur w Hok Hl Hv Hs.
  induction fuel as [|fuel IH]; intros cur w Hok Hl Hv Hs Hrt; cbn [tree_policy_loop].
  { by intros [= <- <-]. }
  rewrite run_bind. unfold get_node at 1, deref.
  destruct (ancestors_valid _ _ _ Hrt) as [cn Hcur]. rewrite Hcur.
  destruct (negb (is_terminal_node cn)).
  - destruct (negb (is_fully_expanded cn)).
    + rewrite run_bind. destruct (expand cur w) as [re w1] eqn:Hex.
      apply expand_spec in Hex
        as [(sn & act & untried & Hi & Hin & Hrm & -> & ->)|[[->| ->] ->]];
        [|by intros [= <- <-]..].
      rewrite run_bind. cbn. intros [= <- <-]. cbn [heap with_heap].
      destruct (expanded_tree_ok _ _ _ act untried Hok Hi)
        as (Hl' & Hv' & Hs' & Hg' & Hvo').
      split_and!; try done.
      assert (Hnew : expanded (heap w) cur sn act untried !! length (heap w)
                     = Some (MCTSNode_init (isolation.result (state sn) act)
                               (Some act) (Some cur))).
      { rewrite expanded_lookup by done.
        rewrite decide_False by (apply lookup_lt_Some in Hi; lia).
        by rewrite decide_True. }
      rewrite (ancestors_unfold _ _ _ Hl' Hnew). cbn [parent MCTSNode_init].
      apply list_elem_of_further.
      rewrite (ancestors_grows (heap w)); [done..|by eexists].
    + rewrite run_bind. unfold best_child_of at 1.
      destruct (best_child (heap w) cur 0.5) as [next|e|] eqn:Hbc.
      * apply best_child_elem in Hbc as (sn & Hsn & Hnext).
        assert (sn = cn) as -> by congruence.
        destruct (Hl _ _ Hcur) as (_ & Hch & _).
        destruct (Hch _ Hnext) as (m & Hm & Hpm).
        apply IH; try done.
        rewrite (ancestors_unfold _ _ _ Hl Hm), Hpm. by apply list_elem_of_further.
      * intros [= <- <-] ->. revert Hbc. apply best_child_not_zero_division.
        intros sn t tn Hsn Ht Htn.
        destruct (Hv _ _ Hsn) as [_ Hc]. specialize (Hc _ _ Ht Htn ltac:(done)). lia.
      * by intros [= <- <-].
  - intros [= <- <-]. split_and!; try done.
    + intros i n Hi. destruct (Hv _ _ Hi) as [H0' Hc]. split; [done|].
      intros c m Hcin Hm _. by eapply Hc.
    + apply grows_refl.
Qed.

Lemma simulate_spec fuel self (w w' : World) r :
  tree_ok (heap w) → is_Some (heap w !! root self) →
  simulate fuel self w = (r, w') →
  match r with
  | Ok v =>
      tree_ok (heap w') ∧ grows (heap w) (heap w')
      ∧ root self ∈ ancestors (heap w') v
      ∧ ∀ j, visit_of (heap w') j =
             visit_of (heap w) j
             + (if decide (j ∈ ancestors (heap w') v) then 1 else 0)
  | Raise e => e ≠ ZeroDivisionError
  | Outside => True
  end.
Proof.
  intros Hok Hroot. unfold simulate, tree_policy. rewrite run_bind.
  destruct (tree_policy_loop fuel (root self) w) as [rt w1] eqn:Htp.
  apply (tree_policy_loop_spec _ _ (root self)) in Htp;
    [|done|by apply ancestors_self].
  destruct rt as [v|e|]; [|by intros [= <- <-]..].
  destruct Htp as (Hl1 & Hv1 & Hs1 & Hg1 & Hrt1 & Hvo1).
  rewrite run_bind.
  destruct (playout_policy fuel v (player_id self) w1) as [rp w2] eqn:Hpo.
  apply playout_policy_heap in Hpo as (Hh2 & Hz2 & _).
  destruct rp as [reward|e|]; [|intros [= <- <-]; by intros ->|by intros [= <- <-]].
  rewrite run_bind.
  destruct (backpropagate fuel v reward w2) as [rb w3] eqn:Hbp.
  destruct (backpropagate_inv _ _ _ _ _ _ Hbp) as ([->| ->] & _);
    [|by intros [= <- <-]].
  intros [= <- <-]. rewrite <- Hh2 in *.
  destruct (backpropagate_restores _ _ _ _ _ Hl1 Hv1 Hs1 Hbp) as (Hok3 & Hf3).
  pose proof (ancestors_valid _ _ _ Hrt1) as Hvalid.
  pose proof (backpropagate_visits _ _ _ _ _ Hl1 Hvalid Hbp) as Hvis.
  rewrite (ancestors_frame (heap w2)) by done.
  split_and!; [done| |done|].
  - eapply grows_trans; [exact Hg1|]. by apply grows_frame.
  - intros j. rewrite Hvis, Hvo1. done.
Qed.

Lemma passes_cons (h : store) v vs j :
  Z.of_nat (passes h (v :: vs) j) =
  (if decide (j ∈ ancestors h v) then 1 else 0) + Z.of_nat (passes h vs j).
Proof.
  unfold passes. rewrite filter_cons.
  destruct (decide (j ∈ ancestors h v)); simpl; lia.
Qed.

Lemma passes_grows (h h' : store) vs j :
  links_ok h → grows h h' → Forall (λ v, is_Some (h !! v)) vs →
  passes h' vs j = passes h vs j.
Proof.
  intros Hl Hg Hvs. unfold passes. f_equal.
  induction Hvs as [|v vs Hv _ IH]; [done|].
  rewrite !filter_cons, IH, (ancestors_grows h h') by done. done.
Qed.

Lemma search_loop_spec turns fuel self start t (w w' : World) r :
  tree_ok (heap w) → is_Some (heap w !! root self) →
  search_loop turns fuel self start t w = (r, w') →
  match r with
  | Ok vs =>
      tree_ok (heap w') ∧ grows (heap w) (heap w')
      ∧ Forall (λ v, root self ∈ ancestors (heap w') v) vs
      ∧ ∀ j, visit_of (heap w') j =
             visit_of (heap w) j + Z.of_nat (passes (heap w') vs j)
  | Raise e => e ≠ ZeroDivisionError
  | Outside => True
  end.
Proof.
  revert w w' r. induction turns as [|turns IH]; intros w w' r Hok Hroot;
    cbn [search_loop].
  { by intros [= <- <-]. }
  rewrite run_bind. cbn [time_time].
  destruct (within_allowed_time start (wall_clock (time_calls w)) t).
  - rewrite run_bind.
    destruct (simulate fuel self (ticked w)) as [rs w1] eqn:Hsim.
    apply simulate_spec in Hsim; [|done..].
    destruct rs as [v|e|]; [|by intros [= <- <-]..].
    destruct Hsim as (Hok1 & Hg1 & Hrt1 & Hvis1). cbn [heap ticked] in *.
    rewrite run_bind.
    destruct (search_loop turns fuel self start t w1) as [rl w2] eqn:Hloop.
    assert (Hroot1 : is_Some (heap w1 !! root self)).
    { destruct Hroot as [rn Hrn]. destruct (Hg1 _ _ Hrn) as (rn' & ? & _). eauto. }
    apply IH in Hloop; [|done..].
    destruct rl as [vs|e|]; [|by intros [= <- <-]..].
    destruct Hloop as (Hok2 & Hg2 & Hrt2 & Hvis2).
    intros [= <- <-]. pose proof Hok1 as (Hl1 & _).
    assert (Hanc : ancestors (heap w2) v = ancestors (heap w1) v).
    { apply ancestors_grows; [done..|]. by eapply ancestors_valid. }
    split_and!; [done| | |].
    + by eapply grows_trans.
    + apply Forall_cons. split; [by rewrite Hanc|done].
    + intros j. rewrite Hvis2, Hvis1, passes_cons, Hanc. lia.
  - intros [= <- <-]. cbn [heap ticked]. split_and!; [done| |done|].
    + apply grows_refl.
    + intros j. unfold passes. cbn. lia.
Qed.

(** ** Where a search starts *)

Lemma tree_ok_nil : tree_ok ([] : store).
Proof. split_and!; intros i n Hi; by rewrite lookup_nil in Hi. Qed.

Lemma tree_ok_init (h : store) st :
  tree_ok h → tree_ok (h ++ [MCTSNode_init st None None]).
Proof.
  intros (Hl & Hv & Hs).
  assert (Hcs : ∀ j m c, h !! j = Some m → c ∈ children m → is_Some (h !! c)).
  { intros j m c Hj Hc. destruct (Hl _ _ Hj) as (_ & Hch & _).
    destruct (Hch _ Hc) as (mc & Hmc & _). eauto. }
  split_and!.
  - intros i n [Hi|[_ Hi]]%lookup_app_Some.
    + destruct (Hl _ _ Hi) as (Hp & Hch & Hnd). split_and!; [done| |done].
      intros c Hc. destruct (Hch _ Hc) as (m & Hm & Hpm). exists m.
      split; [by apply lookup_app_l_Some|done].
    + apply list_lookup_singleton_Some in Hi as [_ <-]. cbn. split_and!.
      * done.
      * intros c Hc. by apply elem_of_nil in Hc.
      * apply NoDup_nil_2.
  - intros i n [Hi|[_ Hi]]%lookup_app_Some.
    + destruct (Hv _ _ Hi) as [Hn0 Hc]. split; [done|].
      intros c m Hcin Hm _. destruct (Hcs _ _ _ Hi Hcin) as [m0 Hm0].
      rewrite (lookup_app_l_Some _ _ _ _ Hm0) in Hm. injection Hm as <-.
      by eapply Hc.
    + apply list_lookup_singleton_Some in Hi as [_ <-]. cbn. split; [done|].
      intros c m Hc. by apply elem_of_nil in Hc.
  - intros i n [Hi|[_ Hi]]%lookup_app_Some.
    + rewrite (sum_visits_ext h); [exact (Hs _ _ Hi)|].
      intros c Hc. destruct (Hcs _ _ _ Hi Hc) as [m Hm].
      unfold visit_of. by rewrite (lookup_app_l_Some _ _ _ _ Hm), Hm.
    + apply list_lookup_singleton_Some in Hi as [_ <-]. done.
Qed.

(** ** No child is read before it was visited *)

Lemma allowed_time_of_raises b e :
  allowed_time_of b = Raise e → e ≠ ZeroDivisionError.
Proof.
  unfold allowed_time_of, math_ceil.
  destruct (Prim2SF _) as [| | |s m ex]; intros [= <-]; done.
Qed.

Lemma best_action_not_zero_division fuel self b c_param (w w' : World) r :
  tree_ok (heap w) → is_Some (heap w !! root self) →
  best_action fuel self b c_param w = (r, w') → r ≠ Raise ZeroDivisionError.
Proof.
  intros Hok Hroot. unfold best_action. rewrite run_bind. cbn [time_time].
  rewrite run_bind. unfold lift at 1.
  pose proof (allowed_time_of_raises b) as Hat.
  destruct (allowed_time_of b) as [t|e|]; [|intros [= <- <-] [= ->]; by eapply Hat|
                                           by intros [= <- <-]].
  rewrite run_bind.
  destruct (search_loop fuel fuel self (wall_clock (time_calls w)) t (ticked w))
    as [rl w1] eqn:Hloop.
  apply search_loop_spec in Hloop; [|done..].
  destruct rl as [vs|e|]; [|intros [= <- <-] [= ->]; done|by intros [= <- <-]].
  destruct Hloop as ((_ & Hv & _) & _).
  rewrite run_bind. unfold best_child_of at 1.
  pose proof (best_child_not_zero_division (heap w1) (root self) c_param) as Hbc.
  destruct (best_child (heap w1) (root self) c_param) as [next|e|];
    [| |by intros [= <- <-]].
  - rewrite run_bind. unfold get_node, deref.
    destruct (heap w1 !! next); by intros [= <- <-].
  - intros [= <- <-] [= ->]. apply Hbc; [|done].
    intros sn t' tn Hsn Ht Htn. destruct (Hv _ _ Hsn) as [_ Hc].
    specialize (Hc _ _ Ht Htn ltac:(done)). lia.
Qed.

(** C5: starting from a tree in which every child has been visited (as in
    the store that holds only a new root), no turn of the search reads a
    child whose visit count is 0: [tree_policy] and [best_action], and with
    it the search [get_action] runs on a new root, never end in a
    [ZeroDivisionError], and after every completed turn of the loop each
    child in the store has a visit count of at least 1, since the child
    [expand] creates is the node that same turn propagates from. *)
Theorem no_zero_visit_read (fuel : nat) (self : MCTSSearch) (w : World) :
  tree_ok (heap w) → is_Some (heap w !! root self) →
  (∀ r w', tree_policy fuel self w = (r, w') → r ≠ Raise ZeroDivisionError)
  ∧ (∀ b c_param r w',
       best_action fuel self b c_param w = (r, w') → r ≠ Raise ZeroDivisionError)
  ∧ (∀ st r w', mcts_engine fuel st w = (r, w') → r ≠ Raise ZeroDivisionError)
  ∧ (∀ turns start t vs w',
       search_loop turns fuel self start t w = (Ok vs, w') →
       ∀ i n c m, heap w' !! i = Some n → c ∈ children n → heap w' !! c = Some m →
                  1 ≤ visit m).
Proof.
  intros Hok Hroot. split_and!.
  - intros r w' Htp. unfold tree_policy in Htp.
    apply (tree_policy_loop_spec _ _ (root self)) in Htp;
      [|done|by apply ancestors_self].
    destruct r as [v|e|]; [done| |done]. by intros [= ->].
  - intros b c_param r w'. by apply best_action_not_zero_division.
  - intros st r w'. unfold mcts_engine. rewrite run_bind. cbn [new_node].
    rewrite run_bind. unfold MCTSSearch_init at 1. rewrite run_bind.
    unfold get_node at 1, deref. cbn [heap with_heap].
    rewrite lookup_app_r, Nat.sub_diag by done. cbn [lookup list_lookup].
    rewrite run_bind. cbn [set_node_no]. rewrite run_ret.
    apply best_action_not_zero_division; cbn [heap root with_heap].
    + by apply tree_ok_init.
    + rewrite lookup_app_r, Nat.sub_diag by done. by eexists.
  - intros turns start t vs w' Hloop.
    apply search_loop_spec in Hloop; [|done..].
    destruct Hloop as ((_ & Hv & _) & _).
    intros i n c m Hi Hc Hm. destruct (Hv _ _ Hi) as [_ Hvc]. by eapply Hvc.
Qed.

(** ** Visit counts *)

Lemma passes_all (h : store) vs j :
  Forall (λ v, j ∈ ancestors h v) vs → passes h vs j = length vs.
Proof.
  intros Hall. unfold passes. induction Hall as [|v vs Hv _ IH]; [done|].
  rewrite filter_cons, decide_True by done. simpl. by rewrite IH.
Qed.

(** C7: when the search loop has completed its turns, propagating from the
    nodes [vs] in turn, the visit count of every node of the store is what
    it was before the loop (0 for the nodes the loop created) plus the
    number of those propagations whose path to the root goes through the
    node; the count of the root has grown by the number of completed turns;
    and every node, fully expanded or not, has been visited at least as
    often as its children together. *)
Theorem visit_conservation (turns fuel : nat) (self : MCTSSearch) (start : float)
    (t : Z) (w w' : World) (vs : list nat) :
  tree_ok (heap w) → is_Some (heap w !! root self) →
  search_loop turns fuel self start t w = (Ok vs, w') →
  (∀ j n, heap w' !! j = Some n →
     visit n = visit_of (heap w) j + Z.of_nat (passes (heap w') vs j))
  ∧ (∃ rn, heap w' !! root self = Some rn
           ∧ visit rn = visit_of (heap w) (root self) + Z.of_nat (length vs))
  ∧ (∀ j n, heap w' !! j = Some n → sum_visits (heap w') (children n) ≤ visit n).
Proof.
  intros Hok Hroot Hloop. apply search_loop_spec in Hloop; [|done..].
  destruct Hloop as ((Hl & Hv & Hs) & Hg & Hrt & Hvis). split_and!.
  - intros j n Hj. by rewrite <- Hvis, (visit_of_lookup _ _ _ Hj).
  - destruct Hroot as [rn Hrn]. destruct (Hg _ _ Hrn) as (rn' & Hrn' & _).
    exists rn'. split; [done|].
    rewrite <- (passes_all (heap w') vs (root self)) by done.
    by rewrite <- Hvis, (visit_of_lookup _ _ _ Hrn').
  - exact Hs.
Qed.

(** ** A parent is visited at least as often as its children *)

Lemma visit_le_sum_visits (h : store) cs c :
  (∀ c', c' ∈ cs → 0 ≤ visit_of h c') → c ∈ cs → visit_of h c ≤ sum_visits h cs.
Proof.
  induction cs as [|c0 cs IH]; intros Hpos Hc; [by apply elem_of_nil in Hc|].
  rewrite sum_visits_cons.
  assert (0 ≤ sum_visits h cs).
  { clear IH Hc. induction cs as [|c1 cs IH]; [done|].
    rewrite sum_visits_cons.
    assert (0 ≤ visit_of h c1).
    { apply Hpos. apply list_elem_of_further, list_elem_of_here. }
    assert (0 ≤ sum_visits h cs); [|lia].
    apply IH. intros c' [->|Hc']%elem_of_cons; apply Hpos.
    - apply list_elem_of_here.
    - by do 2 apply list_elem_of_further. }
  apply elem_of_cons in Hc as [->|Hc]; [lia|].
  assert (0 ≤ visit_of h c0) by apply Hpos, list_elem_of_here.
  assert (visit_of h c ≤ sum_visits h cs); [|lia].
  apply IH; [|done]. intros c' Hc'. by apply Hpos, list_elem_of_further.
Qed.

Lemma ratio_of_counts (V v : Z) :
  1 ≤ v → v ≤ V →
  (1 <= IZR V / IZR v)%R ∧ (0 <= 2 * ln (IZR V / IZR v))%R.
Proof.
  intros Hv HV.
  assert (Hv0 : (0 < IZR v)%R) by (apply IZR_lt; lia).
  assert (Hle : (IZR v <= IZR V)%R) by (by apply IZR_le).
  assert (H1 : (1 <= IZR V / IZR v)%R).
  { apply (Rmult_le_reg_r (IZR v)); [done|].
    unfold Rdiv. rewrite Rmult_assoc, Rinv_l by lra. lra. }
  split; [done|].
  assert (0 <= ln (IZR V / IZR v))%R; [|lra].
  destruct H1 as [Hlt| <-]; [|rewrite ln_1; lra].
  rewrite <- ln_1. apply Rlt_le, ln_increasing; lra.
Qed.

Lemma tree_policy_descends_in_place fuel cur (cn : node) (w : World) :
  heap w !! cur = Some cn → is_terminal_node cn = false →
  is_fully_expanded cn = true →
  tree_policy_loop (S fuel) cur w =
  match best_child (heap w) cur 0.5 with
  | Ok next => tree_policy_loop fuel next w
  | Raise e => (Raise e, w)
  | Outside => (Outside, w)
  end.
Proof.
  intros Hcur Ht Hf. cbn [tree_policy_loop]. rewrite run_bind.
  unfold get_node at 1, deref. rewrite Hcur, Ht, Hf. cbn [negb].
  rewrite run_bind. unfold best_child_of at 1.
  by destruct (best_child (heap w) cur 0.5).
Qed.


(** ** Comparing floats *)

Ltac sf_cases :=
  unfold SFltb, SFeqb, SFleb, SFcompare;
  repeat match goal with
         | x : spec_float |- _ => destruct x as [[]|[]| |[] ? ?]
         end;
  try discriminate; try reflexivity;
  change (Pos.compare_cont Eq) with Pos.compare;
  repeat match goal with
         | |- context [Z.compare ?a ?b] => destruct (Z.compare_spec a b); try subst
         | |- context [Pos.compare ?a ?b] => destruct (Pos.compare_spec a b); try subst
         end;
  cbn; try discriminate; try reflexivity; try lia.

Lemma SF_lt_le_trans (a s x : spec_float) :
  SFltb a s = true → SFltb a x = false → SFltb s x = false.
Proof. sf_cases. Qed.

Lemma SF_lt_le_ne (a s x : spec_float) :
  SFltb a s = true → SFltb a x = false → SFeqb x s = false.
Proof. sf_cases. Qed.

Lemma SF_eq_le (a b x : spec_float) :
  SFeqb a b = true → SFltb b x = false → SFltb a x = false.
Proof. sf_cases. Qed.

Lemma SF_le_not_lt (a x : spec_float) :
  SFleb a x = true → SFltb a x = false → SFeqb x a = true.
Proof. sf_cases. Qed.

Lemma SF_lt_ordinary (a b : spec_float) : SFltb a b = true → SFeqb b b = true.
Proof. sf_cases. Qed.

Lemma SF_lt_irrefl (a : spec_float) : SFltb a a = false.
Proof. sf_cases. Qed.

Lemma SF_eq_trans (a b x : spec_float) :
  SFeqb a b = true → SFeqb b x = true → SFeqb a x = true.
Proof. sf_cases. Qed.

Lemma float_lt_le_trans (a s x : float) :
  (a <? s)%float = true → (a <? x)%float = false → (s <? x)%float = false.
Proof. rewrite !FloatAxioms.ltb_spec. apply SF_lt_le_trans. Qed.

Lemma float_lt_le_ne (a s x : float) :
  (a <? s)%float = true → (a <? x)%float = false → (x =? s)%float = false.
Proof. rewrite !FloatAxioms.ltb_spec, FloatAxioms.eqb_spec. apply SF_lt_le_ne. Qed.

Lemma float_eq_le (a b x : float) :
  (a =? b)%float = true → (b <? x)%float = false → (a <? x)%float = false.
Proof. rewrite !FloatAxioms.ltb_spec, FloatAxioms.eqb_spec. apply SF_eq_le. Qed.

Lemma float_le_not_lt (a x : float) :
  (a <=? x)%float = true → (a <? x)%float = false → (x =? a)%float = true.
Proof. rewrite FloatAxioms.ltb_spec, FloatAxioms.leb_spec, FloatAxioms.eqb_spec. apply SF_le_not_lt. Qed.

Lemma float_lt_ordinary (a b : float) :
  (a <? b)%float = true → (b =? b)%float = true.
Proof. rewrite FloatAxioms.ltb_spec, FloatAxioms.eqb_spec. apply SF_lt_ordinary. Qed.

Lemma float_eq_trans (a b x : float) :
  (a =? b)%float = true → (b =? x)%float = true → (a =? x)%float = true.
Proof. rewrite !FloatAxioms.eqb_spec. apply SF_eq_trans. Qed.

Lemma float_lt_irrefl (a : float) : (a <? a)%float = false.
Proof. rewrite FloatAxioms.ltb_spec. apply SF_lt_irrefl. Qed.

(** ** The scan of [best_child] *)

Lemma score_of_Some (h : store) (sn : node) c t s :
  score_of h sn c t = Some s →
  ∃ tn, deref h t = Ok tn ∧ score sn tn c = Ok s.
Proof.
  unfold score_of, deref. destruct (h !! t) as [tn|]; [|done].
  destruct (score sn tn c) as [s'| |] eqn:Hs; [|done..].
  intros [= <-]. eauto.
Qed.

Lemma filter_none {A} (P : A → Prop) `{!∀ x, Decision (P x)} (l : list A) :
  (∀ x, x ∈ l → ¬ P x) → filter P l = [].
Proof.
  induction l as [|x l IH]; intros Hl; [done|].
  rewrite filter_cons_False by (apply Hl, list_elem_of_here).
  apply IH. intros y Hy. by apply Hl, list_elem_of_further.
Qed.

Lemma scan_inv_snoc_above (h : store) (sn : node) c seen ms acc t s :
  scan_inv h sn c seen ms acc → score_of h sn c t = Some s →
  (ms <? s)%float = true →
  scan_inv h sn c (seen ++ [t]) s [t].
Proof.
  intros (Hle & -> & Hms) Ht Hlt.
  pose proof (float_lt_ordinary _ _ Hlt) as Hord. split_and!.
  - intros t' s' [Hin| ->%list_elem_of_singleton]%elem_of_app Hs'.
    + eapply float_lt_le_trans; [exact Hlt|]. by eapply Hle.
    + assert (s' = s) as -> by congruence. apply float_lt_irrefl.
  - rewrite filter_app, filter_none.
    + rewrite filter_cons_True, filter_nil; [done|].
      unfold ties_with. by rewrite Ht, Hord.
    + intros t' Hin. unfold ties_with.
      destruct (score_of h sn c t') as [s'|] eqn:Hs'; [|exact (λ x, x)].
      rewrite (float_lt_le_ne ms s s'); [exact (λ x, x)|done|]. by eapply Hle.
  - right. exists t. split_and!; [|done..].
    apply elem_of_app. right. apply list_elem_of_here.
Qed.

Lemma scan_inv_snoc_other (h : store) (sn : node) c seen ms acc t s :
  scan_inv h sn c seen ms acc → score_of h sn c t = Some s →
  (ms <? s)%float = false →
  scan_inv h sn c (seen ++ [t]) ms (if (s =? ms)%float then acc ++ [t] else acc).
Proof.
  intros (Hle & -> & Hms) Ht Hlt. split_and!.
  - intros t' s' [Hin| ->%list_elem_of_singleton]%elem_of_app Hs'.
    + by eapply Hle.
    + congruence.
  - rewrite filter_app. destruct (s =? ms)%float eqn:Heq.
    + rewrite (filter_cons_True _ t), filter_nil; [done|].
      unfold ties_with. by rewrite Ht, Heq.
    + rewrite (filter_cons_False _ t), filter_nil, app_nil_r; [done|].
      unfold ties_with. rewrite Ht, Heq. exact (λ x, x).
  - destruct Hms as [->|(t' & Hin & Hs' & Hord)]; [by left|].
    right. exists t'. split_and!; [|done..]. apply elem_of_app. by left.
Qed.

Lemma best_child_loop_spec (h : store) (sn : node) c ts seen ms acc :
  (∀ t, t ∈ ts → is_Some (score_of h sn c t)) →
  scan_inv h sn c seen ms acc →
  ∃ ms' acc', best_child_loop h sn c ts ms acc = Ok (ms', acc')
              ∧ scan_inv h sn c (seen ++ ts) ms' acc'.
Proof.
  revert seen ms acc. induction ts as [|t ts IH]; intros seen ms acc Hts Hinv.
  - exists ms, acc. by rewrite app_nil_r.
  - destruct (Hts t) as [s Hs]; [apply list_elem_of_here|].
    destruct (score_of_Some _ _ _ _ _ Hs) as (tn & Htn & Hsc).
    assert (Hts' : ∀ t', t' ∈ ts → is_Some (score_of h sn c t')).
    { intros t' Hin. by apply Hts, list_elem_of_further. }
    cbn [best_child_loop]. rewrite Htn. cbn. rewrite Hsc. cbn.
    rewrite (cons_middle t seen ts), app_assoc.
    destruct (ms <? s)%float eqn:Hlt.
    + apply IH; [done|]. by eapply scan_inv_snoc_above.
    + pose proof (scan_inv_snoc_other _ _ _ _ _ _ _ _ Hinv Hs Hlt) as Hinv'.
      destruct (s =? ms)%float; by apply IH.
Qed.

(** ** [max] and [index] on the mobilities *)

Lemma foldl_max_spec (l : list Z) (x : Z) :
  x ≤ foldl Z.max x l ∧ (∀ y, y ∈ l → y ≤ foldl Z.max x l)
  ∧ foldl Z.max x l ∈ x :: l.
Proof.
  revert x. induction l as [|y l IH]; intros x; cbn.
  - split_and!; [lia| |apply list_elem_of_here].
    intros y Hy. by apply elem_of_nil in Hy.
  - destruct (IH (Z.max x y)) as (H1 & H2 & H3). split_and!.
    + lia.
    + intros z [->|Hz]%elem_of_cons; [lia|by apply H2].
    + apply elem_of_cons in H3 as [H3|H3].
      * rewrite H3. destruct (Z.max_spec x y) as [[_ ->]|[_ ->]].
        -- apply list_elem_of_further, list_elem_of_here.
        -- apply list_elem_of_here.
      * by do 2 apply list_elem_of_further.
Qed.

Lemma py_index_first (m : Z) (l : list Z) :
  m ∈ l →
  ∃ i, py_index m l = Ok i ∧ l !! i = Some m
       ∧ ∀ j y, (j < i)%nat → l !! j = Some y → y ≠ m.
Proof.
  induction l as [|y l IH]; intros Hin; [by apply elem_of_nil in Hin|].
  cbn [py_index]. destruct (decide (y = m)) as [->|Hne].
  - exists 0%nat. split_and!; [done..|]. intros j z Hj. lia.
  - apply elem_of_cons in Hin as [->|Hin]; [done|].
    destruct (IH Hin) as (i & -> & Hi & Hbefore). exists (S i).
    split_and!; [done..|]. intros [|j] z Hj; cbn.
    + by intros [= <-].
    + apply Hbefore. lia.
Qed.

Lemma py_max_index (l : list Z) :
  l ≠ [] →
  ∃ m i, py_max l = Ok m ∧ py_index m l = Ok i ∧ l !! i = Some m
         ∧ (∀ j y, l !! j = Some y → y ≤ m)
         ∧ (∀ j y, (j < i)%nat → l !! j = Some y → y < m).
Proof.
  destruct l as [|x l]; [done|]. intros _.
  destruct (foldl_max_spec l x) as (H1 & H2 & H3).
  assert (Hall : ∀ j y, (x :: l) !! j = Some y → y ≤ foldl Z.max x l).
  { intros j y Hj. apply list_elem_of_lookup_2 in Hj.
    apply elem_of_cons in Hj as [->|Hj]; [done|by apply H2]. }
  destruct (py_index_first _ _ H3) as (i & Hi & Hlk & Hbefore).
  exists (foldl Z.max x l), i. split_and!; [done..|].
  intros j y Hj Hy. specialize (Hbefore _ _ Hj Hy). specialize (Hall _ _ Hy). lia.
Qed.

Lemma helper_scores_of_spec (h : store) xs :
  (∀ x, x ∈ xs → is_Some (h !! x)) →
  helper_scores_of h xs = Ok (mobility_of h <$> xs).
Proof.
  induction xs as [|x xs IH]; intros Hxs; [done|].
  destruct (Hxs x) as [xn Hx]; [apply list_elem_of_here|].
  cbn [helper_scores_of]. unfold deref. rewrite Hx. cbn.
  rewrite IH by (intros y Hy; by apply Hxs, list_elem_of_further). cbn.
  unfold mobility_of at 2. by rewrite Hx.
Qed.

Lemma filter_split {A} (P : A → Prop) `{!∀ x, Decision (P x)} (l l1 l2 : list A) r :
  filter P l = l1 ++ r :: l2 →
  ∃ b a, l = b ++ r :: a ∧ filter P b = l1 ∧ filter P a = l2.
Proof.
  revert l1. induction l as [|x l IH]; intros l1.
  - rewrite filter_nil. by destruct l1.
  - destruct (decide (P x)) as [Hx|Hx].
    + rewrite filter_cons_True by done. destruct l1 as [|y l1]; cbn.
      * intros [= -> Hl]. exists [], l. by rewrite filter_nil.
      * intros [= -> Hl]. destruct (IH _ Hl) as (b & a & -> & Hb & Ha).
        exists (y :: b), a. split_and!; [done| |done].
        by rewrite filter_cons_True, Hb.
    + rewrite filter_cons_False by done. intros Hl.
      destruct (IH _ Hl) as (b & a & -> & Hb & Ha).
      exists (x :: b), a. split_and!; [done| |done].
      by rewrite filter_cons_False.
Qed.

(** ** The choice of [best_child] *)


(** * More about the search *)

(** ** What a turn leaves alone *)

Lemma search_frame_refl (w : World) : search_frame w w.
Proof. split_and!; [done|lia|apply rtc_refl]. Qed.

Lemma search_frame_trans (w1 w2 w3 : World) :
  search_frame w1 w2 → search_frame w2 w3 → search_frame w1 w3.
Proof.
  intros (Hq1 & Hn1 & Hr1) (Hq2 & Hn2 & Hr2).
  split_and!; [congruence|lia|by etrans].
Qed.

Lemma search_frame_same (w w' : World) :
  heap w' = heap w → queue w' = queue w → node_no w' = node_no w →
  search_frame w w'.
Proof. intros Hh Hq Hn. split_and!; [done|rewrite Hh; lia|rewrite Hh; apply rtc_refl]. Qed.

Lemma tree_policy_loop_shape fuel cur (w w' : World) r :
  tree_policy_loop fuel cur w = (r, w') →
  (w' = w ∧ ∀ v, r = Ok v → ∃ vn, heap w !! v = Some vn ∧ is_terminal_node vn = true)
  ∨ (∃ i sn act untried,
       heap w !! i = Some sn ∧ is_terminal_node sn = false
       ∧ act ∈ untried_actions sn
       ∧ list_remove act (untried_actions sn) = Ok untried
       ∧ r = Ok (length (heap w))
       ∧ heap w' = expanded (heap w) i sn act untried
       ∧ node_op (heap w) (heap w')
       ∧ node_no w' = node_no w + 1 ∧ queue w' = queue w
       ∧ time_calls w' = time_calls w ∧ rand_calls w' = S (rand_calls w)).
Proof.
  revert cur. induction fuel as [|fuel IH]; intros cur; cbn [tree_policy_loop].
  { intros [= <- <-]. left. split; [done|]. by intros v [=]. }
  rewrite run_bind. unfold get_node at 1, deref.
  destruct (heap w !! cur) as [cn|] eqn:Hcur;
    [|intros [= <- <-]; left; split; [done|]; by intros v [=]].
  destruct (is_terminal_node cn) eqn:Hterm; cbn [negb].
  { intros [= <- <-]. left. split; [done|]. intros v [= <-]. eauto. }
  destruct (negb (is_fully_expanded cn)).
  - rewrite run_bind. pose proof (op_expand cur w) as Hop.
    destruct (expand cur w) as [re w1] eqn:Hex.
    apply expand_spec in Hex
      as [(sn & act & untried & Hi & Hin & Hrm & -> & ->)|[[->| ->] ->]];
      [|intros [= <- <-]; left; split; [done|]; by intros v [=]..].
    cbn [snd] in Hop. rewrite with_heap_heap in Hop.
    rewrite run_bind. cbn. intros [= <- <-]. right.
    exists cur, sn, act, untried. assert (sn = cn) as -> by congruence.
    split_and!; done.
  - rewrite run_bind. unfold best_child_of at 1.
    destruct (best_child (heap w) cur 0.5) as [next|e|];
      [apply IH|intros [= <- <-]; left; split; [done|]; by intros v [=]..].
Qed.

Lemma playout_loop_world fuel st (w w' : World) r :
  playout_loop fuel st w = (r, w') →
  heap w' = heap w ∧ node_no w' = node_no w ∧ queue w' = queue w
  ∧ time_calls w' = time_calls w.
Proof.
  revert st w. induction fuel as [|fuel IH]; intros st w; cbn [playout_loop].
  - by intros [= <- <-].
  - destruct (negb (isolation.terminal_test st)); [|by intros [= <- <-]].
    rewrite run_bind. unfold rollout_policy.
    destruct (random_choice (isolation.actions st) w) as [rc w1] eqn:Hrc.
    apply random_choice_inv in Hrc as [(a & -> & _ & ->)|(-> & _ & ->)].
    + intros Hrec. apply IH in Hrec as (-> & -> & -> & ->). done.
    + by intros [= <- <-].
Qed.

Lemma playout_policy_world fuel v pid (w w' : World) r :
  playout_policy fuel v pid w = (r, w') →
  heap w' = heap w ∧ node_no w' = node_no w ∧ queue w' = queue w
  ∧ time_calls w' = time_calls w.
Proof.
  unfold playout_policy. rewrite run_bind. unfold get_node at 1, deref.
  destruct (heap w !! v) as [sn|]; [|by intros [= <- <-]].
  rewrite run_bind.
  destruct (playout_loop fuel (state sn) w) as [rl w1] eqn:Hl.
  apply playout_loop_world in Hl.
  destruct rl as [st|e|]; [|by intros [= <- <-]..].
  destruct (_ =? infinity)%float; [|destruct (_ =? neg_infinity)%float];
    by intros [= <- <-].
Qed.

Lemma backpropagate_frame fuel v r (w w' : World) res :
  backpropagate fuel v r w = (res, w') →
  search_frame w w' ∧ time_calls w' = time_calls w.
Proof.
  intros Hbp. pose proof (op_backpropagate fuel v r w) as Hop.
  rewrite Hbp in Hop. cbn [snd] in Hop.
  apply backpropagate_inv in Hbp as (_ & h' & -> & Hf & _).
  split; [|done]. split_and!; [done| |by apply rtc_once].
  cbn. rewrite <- (Forall2_length _ _ _ Hf). lia.
Qed.

Lemma simulate_frame fuel self (w w' : World) r :
  simulate fuel self w = (r, w') →
  search_frame w w' ∧ time_calls w' = time_calls w.
Proof.
  unfold simulate, tree_policy. rewrite run_bind.
  destruct (tree_policy_loop fuel (root self) w) as [rt w1] eqn:Htp.
  assert (Hf1 : search_frame w w1 ∧ time_calls w1 = time_calls w).
  { apply tree_policy_loop_shape in Htp
      as [[-> _]|(i & sn & act & untried & Hi & _ & _ & _ & _ & Hh & Hop & Hn & Hq & Ht & _)].
    - split; [apply search_frame_refl|done].
    - split; [|done]. split_and!; [done| |by apply rtc_once].
      rewrite Hh, expanded_length. lia. }
  destruct Hf1 as [Hf1 Ht1].
  destruct rt as [v|e|]; [|by intros [= <- <-]..].
  rewrite run_bind.
  destruct (playout_policy fuel v (player_id self) w1) as [rp w2] eqn:Hpo.
  apply playout_policy_world in Hpo as (Hh2 & Hn2 & Hq2 & Ht2).
  assert (Hf2 : search_frame w w2).
  { eapply search_frame_trans; [exact Hf1|]. by apply search_frame_same. }
  destruct rp as [reward|e|]; [|intros [= <- <-]; split; [done|congruence]..].
  rewrite run_bind.
  destruct (backpropagate fuel v reward w2) as [rb w3] eqn:Hbp.
  apply backpropagate_frame in Hbp as [Hf3 Ht3].
  assert (search_frame w w3 ∧ time_calls w3 = time_calls w).
  { split; [by eapply search_frame_trans|congruence]. }
  destruct rb; by intros [= <- <-].
Qed.

Lemma ticked_frame (w : World) : search_frame w (ticked w).
Proof. by apply search_frame_same. Qed.

Lemma search_loop_frame turns fuel self start t (w w' : World) r :
  search_loop turns fuel self start t w = (r, w') → search_frame w w'.
Proof.
  revert w w' r. induction turns as [|turns IH]; intros w w' r; cbn [search_loop].
  { intros [= <- <-]. apply search_frame_refl. }
  rewrite run_bind. cbn [time_time].
  destruct (within_allowed_time start (wall_clock (time_calls w)) t);
    [|intros [= <- <-]; apply ticked_frame].
  rewrite run_bind.
  destruct (simulate fuel self (ticked w)) as [rs w1] eqn:Hsim.
  apply simulate_frame in Hsim as [Hf1 _].
  assert (Hf : search_frame w w1).
  { eapply search_frame_trans; [apply ticked_frame|done]. }
  destruct rs as [v|e|]; [|by intros [= <- <-]..].
  rewrite run_bind.
  destruct (search_loop turns fuel self start t w1) as [rl w2] eqn:Hloop.
  apply IH in Hloop.
  assert (search_frame w w2) by (by eapply search_frame_trans).
  destruct rl; by intros [= <- <-].
Qed.

Lemma best_action_frame fuel self b c_param (w w' : World) r :
  best_action fuel self b c_param w = (r, w') → search_frame w w'.
Proof.
  unfold best_action. rewrite run_bind. cbn [time_time]. rewrite run_bind.
  unfold lift at 1.
  destruct (allowed_time_of b) as [t|e|]; [|intros [= <- <-]; apply ticked_frame..].
  rewrite run_bind.
  destruct (search_loop fuel fuel self (wall_clock (time_calls w)) t (ticked w))
    as [rl w1] eqn:Hloop.
  apply search_loop_frame in Hloop.
  assert (Hf : search_frame w w1).
  { eapply search_frame_trans; [apply ticked_frame|done]. }
  destruct rl as [vs|e|]; [|by intros [= <- <-]..].
  rewrite run_bind. unfold best_child_of at 1.
  destruct (best_child (heap w1) (root self) c_param) as [next|e|];
    [|by intros [= <- <-]..].
  rewrite run_bind. unfold get_node, deref.
  destruct (heap w1 !! next); by intros [= <- <-].
Qed.

Lemma mcts_engine_unfold fuel st (w : World) :
  mcts_engine fuel st w =
  best_action fuel {| root := length (heap w); player_id := isolation.player st |}
    150 0.5
    (snd (set_node_no 1 (with_heap (heap w ++ [MCTSNode_init st None None]) w))).
Proof.
  unfold mcts_engine. rewrite run_bind. cbn [new_node].
  rewrite run_bind. unfold MCTSSearch_init at 1. rewrite run_bind.
  unfold get_node at 1, deref. cbn [heap with_heap].
  rewrite lookup_app_r, Nat.sub_diag by done. cbn [lookup list_lookup].
  rewrite run_bind. cbn [set_node_no]. by rewrite run_ret.
Qed.

(** ** What holds of the store throughout a search

    A turn changes the store in two ways: [tree_policy] expands one node of
    an unfinished game, and [backpropagate] records the outcome of the
    playout, a number from -1 to 1 that for a node of a finished game is
    the outcome of that game. *)

Lemma playout_policy_outcome fuel v pid (w w' : World) r :
  playout_policy fuel v pid w = (Ok r, w') →
  -1 ≤ r ≤ 1
  ∧ ∀ vn, heap w !! v = Some vn → is_terminal_node vn = true →
      r = outcome_of (state vn).
Proof.
  unfold playout_policy. rewrite run_bind. unfold get_node at 1, deref.
  destruct (heap w !! v) as [sn|] eqn:Hv; [|done].
  rewrite run_bind.
  destruct (playout_loop fuel (state sn) w) as [rl w1] eqn:Hl.
  destruct rl as [st|e|]; [|done..].
  intros Hr.
  assert (Hout : r = outcome_of st).
  { unfold outcome_of. revert Hr.
    destruct (_ =? infinity)%float; [|destruct (_ =? neg_infinity)%float];
      by intros [= <- _]. }
  split.
  - rewrite Hout. unfold outcome_of.
    destruct (_ =? infinity)%float; [|destruct (_ =? neg_infinity)%float]; lia.
  - intros vn [= <-] Ht. rewrite Hout. f_equal.
    destruct fuel as [|fuel]; [done|].
    cbn [playout_loop] in Hl. unfold is_terminal_node in Ht. rewrite Ht in Hl.
    cbn [negb] in Hl. rewrite run_ret in Hl. congruence.
Qed.

Section Invariant.

Variable P : store → Prop.

Hypothesis P_expand : ∀ h i (sn : node) act untried,
  P h → h !! i = Some sn → is_terminal_node sn = false →
  act ∈ untried_actions sn → list_remove act (untried_actions sn) = Ok untried →
  P (expanded h i sn act untried).

Hypothesis P_backpropagate : ∀ fuel v r (w w' : World) res,
  P (heap w) → -1 ≤ r ≤ 1 →
  (∀ vn, heap w !! v = Some vn → is_terminal_node vn = true →
     r = outcome_of (state vn)) →
  backpropagate fuel v r w = (res, w') → P (heap w').

Lemma simulate_invariant fuel self (w w' : World) r :
  P (heap w) → simulate fuel self w = (r, w') → P (heap w').
Proof.
  intros HP. unfold simulate, tree_policy. rewrite run_bind.
  destruct (tree_policy_loop fuel (root self) w) as [rt w1] eqn:Htp.
  assert (HP1 : P (heap w1)).
  { apply tree_policy_loop_shape in Htp
      as [[-> _]|(i & sn & act & untried & Hi & Ht & Hin & Hrm & _ & -> & _)];
      [done|by apply P_expand]. }
  destruct rt as [v|e|]; [|by intros [= <- <-]..].
  rewrite run_bind.
  destruct (playout_policy fuel v (player_id self) w1) as [rp w2] eqn:Hpo.
  pose proof (playout_policy_world _ _ _ _ _ _ Hpo) as (Hh2 & _).
  destruct rp as [reward|e|]; [|intros [= <- <-]; by rewrite Hh2..].
  apply playout_policy_outcome in Hpo as [Hb Hout].
  rewrite run_bind.
  destruct (backpropagate fuel v reward w2) as [rb w3] eqn:Hbp.
  assert (P (heap w3)).
  { eapply P_backpropagate; [| |by rewrite Hh2|exact Hbp]; [by rewrite Hh2|done]. }
  destruct rb; by intros [= <- <-].
Qed.

Lemma search_loop_invariant turns fuel self start t (w w' : World) r :
  P (heap w) → search_loop turns fuel self start t w = (r, w') → P (heap w').
Proof.
  revert w w' r. induction turns as [|turns IH]; intros w w' r HP; cbn [search_loop].
  { by intros [= <- <-]. }
  rewrite run_bind. cbn [time_time].
  destruct (within_allowed_time start (wall_clock (time_calls w)) t);
    [|by intros [= <- <-]].
  rewrite run_bind.
  destruct (simulate fuel self (ticked w)) as [rs w1] eqn:Hsim.
  apply simulate_invariant in Hsim; [|done].
  destruct rs as [v|e|]; [|by intros [= <- <-]..].
  rewrite run_bind.
  destruct (search_loop turns fuel self start t w1) as [rl w2] eqn:Hloop.
  apply IH in Hloop; [|done].
  destruct rl; by intros [= <- <-].
Qed.

Lemma best_action_invariant fuel self b c_param (w : World) :
  P (heap w) → P (heap (best_action fuel self b c_param w).2).
Proof.
  intros HP. unfold best_action. rewrite run_bind. cbn [time_time]. rewrite run_bind.
  unfold lift at 1.
  destruct (allowed_time_of b) as [t|e|]; [|done..].
  rewrite run_bind.
  destruct (search_loop fuel fuel self (wall_clock (time_calls w)) t (ticked w))
    as [rl w1] eqn:Hloop.
  apply search_loop_invariant in Hloop; [|done].
  destruct rl as [vs|e|]; [|done..].
  rewrite run_bind. unfold best_child_of at 1.
  destruct (best_child (heap w1) (root self) c_param) as [next|e|]; [|done..].
  rewrite run_bind. unfold get_node, deref.
  by destruct (heap w1 !! next).
Qed.

Hypothesis P_init : ∀ h st, P h → P (h ++ [MCTSNode_init st None None]).

Lemma mcts_engine_invariant fuel st (w : World) :
  P (heap w) → P (heap (mcts_engine fuel st w).2).
Proof.
  intros HP. rewrite mcts_engine_unfold. apply best_action_invariant.
  cbn. by apply P_init.
Qed.

End Invariant.

(** ** Finished games stay leaves *)

Lemma terminal_childless_expanded (h : store) i (sn : node) act untried :
  terminal_childless h → h !! i = Some sn → is_terminal_node sn = false →
  terminal_childless (expanded h i sn act untried).
Proof.
  intros Htc Hi Ht j n. rewrite expanded_lookup by done.
  destruct (decide (j = i)) as [->|_]; [|destruct (decide (j = length h)) as [->|_]].
  - intros [= <-]. unfold is_terminal_node in *. cbn. congruence.
  - by intros [= <-].
  - apply Htc.
Qed.

Lemma terminal_childless_frame (h h' : store) :
  Forall2 same_frame h h' → terminal_childless h → terminal_childless h'.
Proof.
  intros Hf Htc j n' Hj.
  destruct (Forall2_lookup_r _ _ _ _ _ Hf Hj) as (n & Hn & (Hst & _ & Hch & _)).
  unfold is_terminal_node. rewrite Hst, Hch. by apply (Htc j).
Qed.

(** ** The tree follows the game *)

Lemma moves_ok_expanded (h : store) i (sn : node) act untried :
  moves_ok h → h !! i = Some sn → moves_ok (expanded h i sn act untried).
Proof.
  intros Hm Hi. pose proof (lookup_lt_Some _ _ _ Hi) as Hlt.
  assert (Hold : ∀ p pn, h !! p = Some pn →
            ∃ pn', expanded h i sn act untried !! p = Some pn'
                   ∧ state pn' = state pn
                   ∧ ∀ c, c ∈ children pn → c ∈ children pn').
  { intros p pn Hp. rewrite expanded_lookup by done.
    destruct (decide (p = i)) as [->|_].
    - eexists. split; [done|]. assert (pn = sn) as -> by congruence.
      cbn. split; [done|]. intros c Hc. apply elem_of_app. by left.
    - destruct (decide (p = length h)) as [->|_].
      + apply lookup_lt_Some in Hp. lia.
      + by exists pn. }
  intros j n p. rewrite expanded_lookup by done.
  destruct (decide (j = i)) as [->|_]; [|destruct (decide (j = length h)) as [->|_]].
  - intros [= <-]. cbn. intros Hpar.
    destruct (Hm _ _ _ Hi Hpar) as (pn & a & Hp & Hin & Ha & Hst).
    destruct (Hold _ _ Hp) as (pn' & Hp' & Hst' & Hch').
    exists pn', a. split_and!; [done|by apply Hch'|done|congruence].
  - intros [= <-]. cbn. intros [= <-].
    rewrite expanded_lookup by done. rewrite decide_True by done.
    eexists _, act. split_and!; [done| |done|done].
    cbn. apply elem_of_app. right. by apply list_elem_of_singleton.
  - intros Hj Hpar.
    destruct (Hm _ _ _ Hj Hpar) as (pn & a & Hp & Hin & Ha & Hst).
    destruct (Hold _ _ Hp) as (pn' & Hp' & Hst' & Hch').
    exists pn', a. split_and!; [done|by apply Hch'|done|congruence].
Qed.

Lemma moves_ok_frame (h h' : store) :
  Forall2 same_frame h h' → moves_ok h → moves_ok h'.
Proof.
  intros Hf Hm j n' p Hj Hpar.
  destruct (Forall2_lookup_r _ _ _ _ _ Hf Hj) as (n & Hn & (Hst & Hpa & _ & Hac & _)).
  rewrite Hpa in Hpar.
  destruct (Hm _ _ _ Hn Hpar) as (pn & a & Hp & Hin & Ha & Hs).
  destruct (Forall2_lookup_l _ _ _ _ _ Hf Hp) as (pn' & Hp' & (Hst' & _ & Hch' & _)).
  exists pn', a. split_and!; [done|by rewrite Hch'|congruence|congruence].
Qed.

(** ** The root and its answers *)

Lemma root_of_expanded (h : store) r st i (sn : node) act untried :
  root_of h r st → h !! i = Some sn → act ∈ untried_actions sn →
  list_remove act (untried_actions sn) = Ok untried →
  root_of (expanded h i sn act untried) r st.
Proof.
  intros (rn & Hr & Hst & Hun & Hch) Hi Hin Hrm.
  pose proof (lookup_lt_Some _ _ _ Hi) as Hlt.
  destruct (list_remove_elem act _ Hin) as (l' & Hrm' & Hperm).
  assert (l' = untried) as -> by congruence.
  assert (Hold : ∀ c cn, h !! c = Some cn →
            ∃ cn', expanded h i sn act untried !! c = Some cn'
                   ∧ action cn' = action cn).
  { intros c cn Hc. rewrite expanded_lookup by done.
    destruct (decide (c = i)) as [->|_].
    - eexists. split; [done|]. cbn. congruence.
    - destruct (decide (c = length h)) as [->|_].
      + apply lookup_lt_Some in Hc. lia.
      + by exists cn. }
  assert (Hkeep : ∀ c, c ∈ children rn →
            ∃ cn a, expanded h i sn act untried !! c = Some cn
                    ∧ action cn = Some a ∧ a ∈ isolation.actions st).
  { intros c Hc. destruct (Hch _ Hc) as (cn & a & Hcn & Ha & Hleg).
    destruct (Hold _ _ Hcn) as (cn' & Hcn' & Ha').
    exists cn', a. split_and!; [done|congruence|done]. }
  unfold root_of. rewrite expanded_lookup by done.
  destruct (decide (r = i)) as [->|_].
  - assert (rn = sn) as -> by congruence.
    eexists. split; [done|]. cbn. split_and!; [done| |].
    + intros a Ha. apply Hun. rewrite <- Hperm. by apply list_elem_of_further.
    + intros c [Hc| ->%list_elem_of_singleton]%elem_of_app; [by apply Hkeep|].
      rewrite expanded_lookup by done.
      destruct (decide (length h = i)) as [|_]; [lia|].
      rewrite decide_True by done.
      eexists _, act. split_and!; [done..|]. by apply Hun.
  - destruct (decide (r = length h)) as [->|_].
    + apply lookup_lt_Some in Hr. lia.
    + exists rn. split_and!; done.
Qed.

Lemma root_of_frame (h h' : store) r st :
  Forall2 same_frame h h' → root_of h r st → root_of h' r st.
Proof.
  intros Hf (rn & Hr & Hst & Hun & Hch).
  destruct (Forall2_lookup_l _ _ _ _ _ Hf Hr)
    as (rn' & Hr' & (Hst' & _ & Hch' & _ & Hun')).
  exists rn'. split_and!; [done|congruence|by rewrite Hun'|].
  intros c Hc. rewrite Hch' in Hc.
  destruct (Hch _ Hc) as (cn & a & Hcn & Ha & Hleg).
  destruct (Forall2_lookup_l _ _ _ _ _ Hf Hcn) as (cn' & Hcn' & (_ & _ & _ & Hac & _)).
  exists cn', a. split_and!; [done|congruence|done].
Qed.

Lemma root_of_init (h : store) st :
  root_of (h ++ [MCTSNode_init st None None]) (length h) st.
Proof.
  eexists. rewrite lookup_app_r, Nat.sub_diag by done.
  split; [done|]. cbn. split_and!; [done|done|].
  intros c Hc. by apply elem_of_nil in Hc.
Qed.

(** ** Utilities stay within the visit counts *)

Lemma bounded_utility_record (h : store) v r :
  -1 ≤ r ≤ 1 → bounded_utility h → bounded_utility (alter (record_result r) v h).
Proof.
  intros Hr Hb j n. destruct (decide (v = j)) as [<-|Hne].
  - rewrite list_lookup_alter_eq. destruct (h !! v) as [m|] eqn:Hv; [|done].
    cbn. intros [= <-]. cbn. specialize (Hb _ _ Hv). lia.
  - rewrite list_lookup_alter_ne by done. apply Hb.
Qed.

Lemma backpropagate_bounded fuel v r (w w' : World) res :
  -1 ≤ r ≤ 1 → bounded_utility (heap w) →
  backpropagate fuel v r w = (res, w') → bounded_utility (heap w').
Proof.
  revert v r w. induction fuel as [|fuel IH]; intros v r w Hr Hb.
  { cbn. by intros [= <- <-]. }
  cbn [backpropagate]. rewrite run_bind. unfold get_node at 1, deref.
  destruct (heap w !! v) as [sn|] eqn:Hv; [|by intros [= <- <-]].
  rewrite run_bind. cbn [update_node].
  pose proof (bounded_utility_record _ v _ Hr Hb) as Hb1.
  destruct (parent sn) as [p|].
  - apply IH; [lia|by rewrite with_heap_heap].
  - intros [= <- <-]. by rewrite with_heap_heap.
Qed.

Lemma bounded_utility_expanded (h : store) i (sn : node) act untried :
  bounded_utility h → h !! i = Some sn →
  bounded_utility (expanded h i sn act untried).
Proof.
  intros Hb Hi j n. rewrite expanded_lookup by done.
  destruct (decide (j = i)) as [->|_]; [|destruct (decide (j = length h)) as [->|_]].
  - intros [= <-]. cbn. by apply (Hb i).
  - intros [= <-]. cbn. lia.
  - apply Hb.
Qed.

Lemma backpropagate_same_frame fuel v r (w w' : World) res :
  backpropagate fuel v r w = (res, w') → Forall2 same_frame (heap w) (heap w').
Proof. intros (_ & h' & -> & Hf & _)%backpropagate_inv. done. Qed.

Lemma child_action_legal (h : store) p (pn : node) c (cn : node) a :
  expansion_ok h → h !! p = Some pn → c ∈ children pn → h !! c = Some cn →
  action cn = Some a → a ∈ isolation.actions (state pn).
Proof.
  intros [_ Hperm] Hp Hc Hcn Ha.
  assert (Hin : Some a ∈ Some <$> isolation.actions (state pn)).
  { rewrite <- (Hperm _ _ Hp). apply elem_of_app. left.
    unfold child_actions. apply list_elem_of_fmap. exists c.
    split; [|done]. by rewrite Hcn. }
  apply list_elem_of_fmap in Hin as (a' & [= ->] & Hin). done.
Qed.

Lemma best_action_answer fuel self b c_param st (w w' : World) r :
  root_of (heap w) (root self) st →
  best_action fuel self b c_param w = (r, w') →
  ∀ oa, r = Ok oa → ∃ a, oa = Some a ∧ a ∈ isolation.actions st.
Proof.
  intros Hroot. unfold best_action. rewrite run_bind. cbn [time_time].
  rewrite run_bind. unfold lift at 1.
  destruct (allowed_time_of b) as [t|e|]; [|by intros [= <- <-]..].
  rewrite run_bind.
  destruct (search_loop fuel fuel self (wall_clock (time_calls w)) t (ticked w))
    as [rl w1] eqn:Hloop.
  apply (search_loop_invariant (λ h, root_of h (root self) st)) in Hloop; [| | |done].
  2:{ intros h i sn act untried Hr Hi _ Hin Hrm. by apply root_of_expanded. }
  2:{ intros fuel' v r' w0 w0' res Hr _ _ Hbp.
      eapply root_of_frame; [|done]. by eapply backpropagate_same_frame. }
  destruct rl as [vs|e|]; [|by intros [= <- <-]..].
  rewrite run_bind. unfold best_child_of at 1.
  destruct (best_child (heap w1) (root self) c_param) as [next|e|] eqn:Hbc;
    [|by intros [= <- <-]..].
  apply best_child_elem in Hbc as (sn & Hsn & Hnext).
  destruct Hloop as (rn & Hrn & _ & _ & Hch).
  assert (sn = rn) as -> by congruence.
  destruct (Hch _ Hnext) as (cn & a & Hcn & Ha & Hleg).
  rewrite run_bind. unfold get_node, deref. rewrite Hcn, run_ret.
  intros [= <- <-] oa [= <-]. by exists a.
Qed.

Lemma mcts_engine_answer fuel st (w w' : World) r :
  mcts_engine fuel st w = (r, w') →
  queue w' = queue w
  ∧ ∀ oa, r = Ok oa → ∃ a, oa = Some a ∧ a ∈ isolation.actions st.
Proof.
  rewrite mcts_engine_unfold. intros Hba. split.
  - by apply best_action_frame in Hba as (Hq & _).
  - eapply best_action_answer; [|exact Hba]. cbn. apply root_of_init.
Qed.

(** X2: the search never gives a child to a node of a finished game.  If
    no node of a finished game has a child before [best_action] is called,
    none has one afterwards, however the call ends; the same holds of the
    search [get_action] runs on a new root. *)
Theorem finished_games_stay_leaves (fuel : nat) (self : MCTSSearch) (b : Z)
    (c_param : float) (st : State) (w : World) :
  terminal_childless (heap w) →
  terminal_childless (heap (best_action fuel self b c_param w).2)
  ∧ terminal_childless (heap (mcts_engine fuel st w).2).
Proof.
  intros Htc.
  assert (Hex : ∀ h i (sn : node) act untried,
            terminal_childless h → h !! i = Some sn → is_terminal_node sn = false →
            act ∈ untried_actions sn →
            list_remove act (untried_actions sn) = Ok untried →
            terminal_childless (expanded h i sn act untried)).
  { intros. by apply terminal_childless_expanded. }
  assert (Hbp : ∀ fuel' v r (w0 w0' : World) res,
            terminal_childless (heap w0) → -1 ≤ r ≤ 1 →
            (∀ vn, heap w0 !! v = Some vn → is_terminal_node vn = true →
                   r = outcome_of (state vn)) →
            backpropagate fuel' v r w0 = (res, w0') → terminal_childless (heap w0')).
  { intros fuel' v r w0 w0' res H0 _ _ Hrun.
    eapply terminal_childless_frame; [|done]. by eapply backpropagate_same_frame. }
  split.
  - by apply best_action_invariant.
  - apply mcts_engine_invariant; [done..| |done].
    intros h st' Hh i n [Hi|[_ Hi]]%lookup_app_Some; [by apply (Hh i)|].
    by apply list_lookup_singleton_Some in Hi as [_ <-].
Qed.

(** X3: the tree follows the game.  If every node below another is listed
    by its parent and holds the state its action leads to from the state of
    the parent, and the children and untried actions of the nodes are the
    legal actions of their states, then after [best_action], however it
    ends, every node that has a parent is listed among its children, was
    made by an action that is legal in the state of the parent, and holds
    the state that action leads to. *)
Theorem search_tree_follows_the_game (fuel : nat) (self : MCTSSearch) (b : Z)
    (c_param : float) (w : World) :
  moves_ok (heap w) → expansion_ok (heap w) →
  ∀ i n p, heap (best_action fuel self b c_param w).2 !! i = Some n →
    parent n = Some p →
    ∃ pn a, heap (best_action fuel self b c_param w).2 !! p = Some pn
            ∧ i ∈ children pn ∧ action n = Some a
            ∧ a ∈ isolation.actions (state pn)
            ∧ state n = isolation.result (state pn) a.
Proof.
  intros Hm He.
  assert (Hinv : moves_ok (heap (best_action fuel self b c_param w).2)
                 ∧ expansion_ok (heap (best_action fuel self b c_param w).2)).
  { apply (best_action_invariant (λ h, moves_ok h ∧ expansion_ok h)); [| |done].
    - intros h i sn act untried [H1 H2] Hi _ Hin Hrm. split.
      + by apply moves_ok_expanded.
      + apply expansion_ok_expanded; [done..|].
        destruct (list_remove_elem act _ Hin) as (l' & Hrm' & Hperm). congruence.
    - intros fuel' v r w0 w0' res [H1 H2] _ _ Hbp.
      apply backpropagate_same_frame in Hbp. split.
      + by eapply moves_ok_frame.
      + by eapply expansion_ok_frame. }
  destruct Hinv as [Hm' He']. intros i n p Hi Hpar.
  destruct (Hm' _ _ _ Hi Hpar) as (pn & a & Hp & Hin & Ha & Hst).
  exists pn, a. split_and!; [done..| |done].
  by eapply child_action_legal.
Qed.

(** X4: [best_action] answers with a legal move.  When the root holds the
    state [st] and its children were made by actions that are legal in
    [st], as are the actions it has yet to try (a new root in particular),
    a call of [best_action] that returns, returns an action, never [None],
    and that action is legal in [st]. *)
Theorem best_action_answers_legal_move (fuel : nat) (self : MCTSSearch) (b : Z)
    (c_param : float) (st : State) (w w' : World) (oa : option Action) :
  root_of (heap w) (root self) st →
  best_action fuel self b c_param w = (Ok oa, w') →
  ∃ a, oa = Some a ∧ a ∈ isolation.actions st.
Proof.
  intros Hroot Hba. by eapply best_action_answer.
Qed.

(** X5: what [get_action] puts on the queue.  Whatever the position, the
    store, the draws and the clock, [get_action] raises nothing; it leaves
    the queue as it was or adds one item to it, and that item is an action
    that is legal in the position it was asked about.  The search it runs
    never returns [None], so [None] is never queued and the branches of
    lines 201-204 are never taken. *)
Theorem get_action_queues_legal_move (fuel : nat) (st : State) (w : World) :
  (∀ e, (get_action fuel st w).1 ≠ Raise e)
  ∧ (queue (get_action fuel st w).2 = queue w
     ∨ ∃ a, a ∈ isolation.actions st
            ∧ queue (get_action fuel st w).2 = queue w ++ [Some a])
  ∧ (mcts_engine fuel st w).1 ≠ Ok None.
Proof.
  assert (Hsome : (mcts_engine fuel st w).1 ≠ Ok None).
  { destruct (mcts_engine fuel st w) as [r w1] eqn:Heng.
    apply mcts_engine_answer in Heng as [_ Hans]. cbn. intros ->.
    by destruct (Hans None eq_refl) as (a & [=] & _). }
  split_and!; [| |exact Hsome]; clear Hsome;
    unfold get_action, get_action_with, try_except;
    destruct (isolation.terminal_test st || bool_decide (isolation.ply_count st < 2)).
  - rewrite run_bind.
    destruct (random_choice (isolation.actions st) w) as [rc w1] eqn:Hrc.
    by apply random_choice_inv in Hrc as [(a & -> & Hin & ->)|(-> & _ & ->)].
  - rewrite run_bind.
    destruct (mcts_engine fuel st w) as [r w1] eqn:Heng.
    apply mcts_engine_answer in Heng as [Hq Hans].
    destruct r as [oa|e|]; [|done..].
    by destruct (Hans oa eq_refl) as (a & -> & Hin).
  - rewrite run_bind.
    destruct (random_choice (isolation.actions st) w) as [rc w1] eqn:Hrc.
    apply random_choice_inv in Hrc as [(a & -> & Hin & ->)|(-> & _ & ->)].
    + cbn. right. by exists a.
    + cbn. by left.
  - rewrite run_bind.
    destruct (mcts_engine fuel st w) as [r w1] eqn:Heng.
    apply mcts_engine_answer in Heng as [Hq Hans].
    destruct r as [oa|e|].
    + destruct (Hans oa eq_refl) as (a & -> & Hin). cbn.
      right. exists a. by rewrite Hq.
    + cbn. by left.
    + cbn. by left.
Qed.

(** X6: the utility of a node stays within its visit count.  If every
    node has a utility between minus and plus its visit count before
    [best_action] is called, so has every node afterwards, however the call
    ends: the quotient [utility / visit] that [best_child] adds the
    exploration term to is a mean outcome between -1 and 1.  The same holds
    of the search [get_action] runs on a new root. *)
Theorem utility_within_visits (fuel : nat) (self : MCTSSearch) (b : Z)
    (c_param : float) (st : State) (w : World) :
  bounded_utility (heap w) →
  bounded_utility (heap (best_action fuel self b c_param w).2)
  ∧ bounded_utility (heap (mcts_engine fuel st w).2).
Proof.
  intros Hb.
  assert (Hex : ∀ h i (sn : node) act untried,
            bounded_utility h → h !! i = Some sn → is_terminal_node sn = false →
            act ∈ untried_actions sn →
            list_remove act (untried_actions sn) = Ok untried →
            bounded_utility (expanded h i sn act untried)).
  { intros. by apply bounded_utility_expanded. }
  assert (Hbp : ∀ fuel' v r (w0 w0' : World) res,
            bounded_utility (heap w0) → -1 ≤ r ≤ 1 →
            (∀ vn, heap w0 !! v = Some vn → is_terminal_node vn = true →
                   r = outcome_of (state vn)) →
            backpropagate fuel' v r w0 = (res, w0') → bounded_utility (heap w0')).
  { intros fuel' v r w0 w0' res H0 Hr _ Hrun. by eapply backpropagate_bounded. }
  split.
  - by apply best_action_invariant.
  - apply mcts_engine_invariant; [done..| |done].
    intros h st' Hh i n [Hi|[_ Hi]]%lookup_app_Some; [by apply (Hh i)|].
    apply list_lookup_singleton_Some in Hi as [_ <-]. cbn. lia.
Qed.

(** ** The clock *)

Lemma search_loop_clock turns fuel self start t (w w' : World) vs :
  search_loop turns fuel self start t w = (Ok vs, w') →
  time_calls w' = (time_calls w + length vs + 1)%nat
  ∧ (∀ k, (k < length vs)%nat →
       within_allowed_time start (wall_clock (time_calls w + k)) t = true)
  ∧ within_allowed_time start (wall_clock (time_calls w + length vs)) t = false.
Proof.
  revert w w' vs. induction turns as [|turns IH]; intros w w' vs; cbn [search_loop].
  { by intros [=]. }
  rewrite run_bind. cbn [time_time].
  destruct (within_allowed_time start (wall_clock (time_calls w)) t) eqn:Hin.
  - rewrite run_bind.
    destruct (simulate fuel self (ticked w)) as [rs w1] eqn:Hsim.
    apply simulate_frame in Hsim as [_ Ht1]. cbn in Ht1.
    destruct rs as [v|e|]; [|by intros [=]..].
    rewrite run_bind.
    destruct (search_loop turns fuel self start t w1) as [rl w2] eqn:Hloop.
    destruct rl as [vs'|e|]; [|by intros [=]..].
    apply IH in Hloop as (Htc & Hbefore & Hlast).
    rewrite run_ret. intros [= <- <-]. cbn [length]. split_and!.
    + lia.
    + intros [|k] Hk.
      * by rewrite Nat.add_0_r.
      * replace (time_calls w + S k)%nat with (time_calls w1 + k)%nat by lia.
        apply Hbefore. lia.
    + replace (time_calls w + S (length vs'))%nat
        with (time_calls w1 + length vs')%nat by lia.
      done.
  - rewrite run_ret. intros [= <- <-]. cbn. split_and!; [lia| |].
    + intros k Hk. lia.
    + by rewrite Nat.add_0_r.
Qed.

(** ** Playouts *)

Lemma playout_loop_run fuel st (w w' : World) r :
  playout_loop fuel st w = (r, w') →
  ∃ k st', nsteps plays k st st' ∧ w' = Nat.iter k drawn w ∧ (k ≤ fuel)%nat
    ∧ match r with
      | Ok s => s = st' ∧ isolation.terminal_test st' = true ∧ (k < fuel)%nat
      | Raise e => e = IndexError ∧ isolation.terminal_test st' = false
                   ∧ isolation.actions st' = []
      | Outside => k = fuel
      end.
Proof.
  revert st w. induction fuel as [|fuel IH]; intros st w; cbn [playout_loop].
  { intros [= <- <-]. exists 0%nat, st. split_and!; [constructor|done..]. }
  destruct (isolation.terminal_test st) eqn:Ht; cbn [negb].
  { rewrite run_ret. intros [= <- <-]. exists 0%nat, st.
    split_and!; [constructor|done|lia|done|done|lia]. }
  rewrite run_bind. unfold rollout_policy.
  destruct (random_choice (isolation.actions st) w) as [rc w1] eqn:Hrc.
  apply random_choice_inv in Hrc as [(a & -> & Hin & ->)|(-> & Hnil & ->)].
  - intros (k & st' & Hsteps & -> & Hk & Hr)%IH. exists (S k), st'. split_and!.
    + eapply nsteps_l; [|exact Hsteps]. split; [done|]. by exists a.
    + by rewrite Nat.iter_succ_r.
    + lia.
    + destruct r as [s|e|]; [|done|lia]. destruct Hr as (? & ? & ?).
      split_and!; [done..|lia].
  - intros [= <- <-]. exists 0%nat, st. split_and!; [constructor|done|lia|done..].
Qed.

Lemma playout_loop_terminates (rank : State → nat) fuel st (w : World) :
  (∀ s, isolation.terminal_test s = false → isolation.actions s ≠ []) →
  (∀ s a, isolation.terminal_test s = false → a ∈ isolation.actions s →
          (rank (isolation.result s a) < rank s)%nat) →
  (rank st < fuel)%nat →
  ∃ st' w', playout_loop fuel st w = (Ok st', w').
Proof.
  intros Hmove Hrank. revert st w.
  induction fuel as [|fuel IH]; intros st w Hlt; [lia|].
  cbn [playout_loop]. destruct (isolation.terminal_test st) eqn:Ht; cbn [negb].
  { by eexists _, _. }
  rewrite run_bind. unfold rollout_policy.
  destruct (random_choice_nonempty _ w (Hmove _ Ht)) as (a & Hlk & ->).
  apply IH. apply list_elem_of_lookup_2 in Hlk.
  specialize (Hrank _ _ Ht Hlk). lia.
Qed.

(** ** The exceptions of a search *)

Lemma score_raises (sn tn : node) c e :
  score sn tn c = Raise e → e = ValueError ∨ e = ZeroDivisionError.
Proof.
  unfold score, py_truediv.
  destruct (decide (visit tn = 0)); cbn; [intros [= <-]; by right|].
  unfold math_log. destruct (_ <=? 0)%float; cbn; [intros [= <-]; by left|].
  unfold math_sqrt. destruct (_ <? 0)%float; cbn; [intros [= <-]; by left|done].
Qed.

Lemma best_child_loop_raises (h : store) (sn : node) c ts ms acc e :
  best_child_loop h sn c ts ms acc = Raise e →
  e = ValueError ∨ e = ZeroDivisionError.
Proof.
  revert ms acc. induction ts as [|t ts IH]; intros ms acc; cbn; [done|].
  unfold deref. destruct (h !! t) as [tn|]; cbn; [|done].
  pose proof (score_raises sn tn c) as Hs.
  destruct (score sn tn c) as [sc|e'|]; cbn; [| |done].
  - destruct (ms <? sc)%float; [|destruct (sc =? ms)%float]; apply IH.
  - intros [= ->]. by apply Hs.
Qed.

Lemma helper_scores_of_length (h : store) xs hs :
  helper_scores_of h xs = Ok hs → length hs = length xs.
Proof.
  revert hs. induction xs as [|x xs IH]; intros hs; cbn; [by intros [= <-]|].
  unfold deref. destruct (h !! x); cbn; [|done].
  destruct (helper_scores_of h xs) as [rest| |]; cbn; [|done..].
  intros [= <-]. cbn. f_equal. by apply IH.
Qed.

Lemma py_index_lt x l i : py_index x l = Ok i → (i < length l)%nat.
Proof.
  revert i. induction l as [|y l IH]; intros i; cbn; [done|].
  destruct (decide (y = x)); [intros [= <-]; lia|].
  destruct (py_index x l) as [j| |]; cbn; [|done..].
  intros [= <-]. specialize (IH _ eq_refl). lia.
Qed.

Lemma best_child_raises (h : store) self c e :
  best_child h self c = Raise e → e = ValueError ∨ e = ZeroDivisionError.
Proof.
  unfold best_child, deref. destruct (h !! self) as [sn|]; cbn; [|done].
  pose proof (best_child_loop_raises h sn c (children sn) (-999) []) as Hl.
  destruct (best_child_loop h sn c (children sn) (-999) []) as [[ms acc]|e'|];
    cbn; [| |done].
  - pose proof (helper_scores_of_never_raises h acc) as Hh.
    pose proof (helper_scores_of_length h acc) as Hlen.
    destruct (helper_scores_of h acc) as [hs|e'|]; cbn; [| |done].
    + pose proof (py_max_raises hs) as Hm.
      destruct (py_max hs) as [m|e'|]; cbn; [| |done].
      * pose proof (py_index_raises m hs) as Hi.
        pose proof (py_index_lt m hs) as Hlt.
        destruct (py_index m hs) as [i|e'|]; cbn; [| |done].
        -- unfold py_getitem. specialize (Hlt _ eq_refl).
           rewrite (Hlen _ eq_refl) in Hlt.
           destruct (lookup_lt_is_Some_2 acc i Hlt) as [x ->]. done.
        -- intros [= ->]. left. by apply Hi.
      * intros [= ->]. left. by apply Hm.
    + intros [= ->]. by destruct (Hh e).
  - intros [= ->]. by apply Hl.
Qed.

Lemma expand_succeeds (i : nat) (sn : node) (w : World) :
  heap w !! i = Some sn → untried_actions sn ≠ [] →
  ∃ c w', expand i w = (Ok c, w').
Proof.
  intros Hi Hne. unfold expand. rewrite run_bind. unfold get_node at 1, deref.
  rewrite Hi. rewrite run_bind.
  destruct (random_choice_nonempty _ w Hne) as (act & Hlk & ->).
  apply list_elem_of_lookup_2 in Hlk.
  destruct (list_remove_elem act _ Hlk) as (untried & Hrm & _).
  rewrite run_bind. unfold lift at 1. rewrite Hrm. by eexists _, _.
Qed.

Lemma tree_policy_loop_raises fuel cur (w w' : World) e :
  tree_policy_loop fuel cur w = (Raise e, w') →
  e = ValueError ∨ e = ZeroDivisionError.
Proof.
  revert cur. induction fuel as [|fuel IH]; intros cur; cbn [tree_policy_loop]; [done|].
  rewrite run_bind. unfold get_node at 1, deref.
  destruct (heap w !! cur) as [cn|] eqn:Hcur; [|done].
  destruct (is_terminal_node cn); cbn [negb]; [done|].
  destruct (is_fully_expanded cn) eqn:Hfull; cbn [negb].
  - rewrite run_bind. unfold best_child_of at 1.
    pose proof (best_child_raises (heap w) cur 0.5) as Hbc.
    destruct (best_child (heap w) cur 0.5) as [next|e'|]; [apply IH| |done].
    intros [= -> _]. by apply Hbc.
  - rewrite run_bind.
    destruct (expand_succeeds cur cn w Hcur) as (c & w1 & ->).
    + intros Hnil. apply is_fully_expanded_spec in Hnil. congruence.
    + rewrite run_bind. cbn. done.
Qed.

Lemma playout_policy_raises fuel v pid (w w' : World) e :
  playout_policy fuel v pid w = (Raise e, w') → search_error e.
Proof.
  unfold playout_policy. rewrite run_bind. unfold get_node at 1, deref.
  destruct (heap w !! v) as [sn|]; [|done].
  rewrite run_bind.
  destruct (playout_loop fuel (state sn) w) as [rl w1] eqn:Hl.
  apply playout_loop_run in Hl as (k & st' & _ & _ & _ & Hr).
  destruct rl as [st|e'|]; [| |done].
  - destruct (_ =? infinity)%float; [|destruct (_ =? neg_infinity)%float]; done.
  - intros [= -> _]. destruct Hr as (-> & Ht & Hnil).
    right; right. split; [done|]. by exists st'.
Qed.

Lemma simulate_raises fuel self (w w' : World) e :
  simulate fuel self w = (Raise e, w') → search_error e.
Proof.
  unfold simulate, tree_policy. rewrite run_bind.
  destruct (tree_policy_loop fuel (root self) w) as [rt w1] eqn:Htp.
  destruct rt as [v|e'|]; [| |done].
  2:{ intros [= -> _]. apply tree_policy_loop_raises in Htp as [->| ->].
      - by left.
      - right; by left. }
  rewrite run_bind.
  destruct (playout_policy fuel v (player_id self) w1) as [rp w2] eqn:Hpo.
  destruct rp as [reward|e'|]; [| |done].
  2:{ intros [= -> _]. by eapply playout_policy_raises. }
  rewrite run_bind.
  destruct (backpropagate fuel v reward w2) as [rb w3] eqn:Hbp.
  apply backpropagate_inv in Hbp as ([->| ->] & _); done.
Qed.

Lemma search_loop_raises turns fuel self start t (w w' : World) e :
  search_loop turns fuel self start t w = (Raise e, w') → search_error e.
Proof.
  revert w. induction turns as [|turns IH]; intros w; cbn [search_loop]; [done|].
  rewrite run_bind. cbn [time_time].
  destruct (within_allowed_time start (wall_clock (time_calls w)) t); [|done].
  rewrite run_bind.
  destruct (simulate fuel self (ticked w)) as [rs w1] eqn:Hsim.
  destruct rs as [v|e'|]; [| |done].
  2:{ intros [= -> _]. by eapply simulate_raises. }
  rewrite run_bind.
  destruct (search_loop turns fuel self start t w1) as [rl w2] eqn:Hloop.
  destruct rl as [vs|e'|]; [done| |done].
  intros [= -> ->]. by eapply IH.
Qed.

Lemma allowed_time_of_in_range (b : Z) :
  0 ≤ b ≤ 2000 → allowed_time_of b = Ok ((3 * b + 3) `div` 4).
Proof.
  intros Hb. pose proof allowed_time_upto_2000 as Hall.
  rewrite forallb_forall in Hall. specialize (Hall b).
  assert (Hin : In b (seqZ 0 2001)).
  { apply list_elem_of_In, elem_of_seqZ. lia. }
  specialize (Hall Hin).
  destruct (allowed_time_of b) as [t| |]; try discriminate.
  apply bool_decide_eq_true in Hall. by subst.
Qed.

Lemma best_action_raises fuel self b c_param (w w' : World) e :
  0 ≤ b ≤ 2000 →
  best_action fuel self b c_param w = (Raise e, w') → search_error e.
Proof.
  intros Hb. unfold best_action. rewrite run_bind. cbn [time_time]. rewrite run_bind.
  unfold lift at 1.
  rewrite (allowed_time_of_in_range b Hb). rewrite run_bind.
  destruct (search_loop fuel fuel self (wall_clock (time_calls w))
              ((3 * b + 3) `div` 4) (ticked w)) as [rl w1] eqn:Hloop.
  destruct rl as [vs|e'|]; [| |done].
  2:{ intros [= -> _]. by eapply search_loop_raises. }
  rewrite run_bind. unfold best_child_of at 1.
  pose proof (best_child_raises (heap w1) (root self) c_param) as Hbc.
  destruct (best_child (heap w1) (root self) c_param) as [next|e'|]; [| |done].
  - rewrite run_bind. unfold get_node, deref. by destruct (heap w1 !! next).
  - intros [= -> _]. destruct (Hbc _ eq_refl) as [->| ->]; [by left|right; by left].
Qed.

(** ** [best_child] on a child that was never visited *)

Lemma best_child_loop_app (h : store) (sn : node) c l1 l2 ms acc :
  best_child_loop h sn c (l1 ++ l2) ms acc =
  match best_child_loop h sn c l1 ms acc with
  | Ok (ms', acc') => best_child_loop h sn c l2 ms' acc'
  | Raise e => Raise e
  | Outside => Outside
  end.
Proof.
  revert ms acc. induction l1 as [|t l1 IH]; intros ms acc; cbn; [done|].
  unfold deref. destruct (h !! t) as [tn|]; cbn; [|done].
  destruct (score sn tn c) as [sc|e|]; cbn; [|done..].
  destruct (ms <? sc)%float; [|destruct (sc =? ms)%float]; apply IH.
Qed.

Lemma best_child_loop_scored (h : store) (sn : node) c l ms acc :
  (∀ t, t ∈ l → is_Some (score_of h sn c t)) →
  ∃ ms' acc', best_child_loop h sn c l ms acc = Ok (ms', acc').
Proof.
  revert ms acc. induction l as [|t l IH]; intros ms acc Hall; cbn; [by eexists _, _|].
  destruct (Hall t) as [s Hs]; [apply list_elem_of_here|].
  apply score_of_Some in Hs as (tn & Hd & Hsc). rewrite Hd. cbn. rewrite Hsc. cbn.
  assert (Hl : ∀ t', t' ∈ l → is_Some (score_of h sn c t')).
  { intros t' Ht'. by apply Hall, list_elem_of_further. }
  destruct (ms <? s)%float; [|destruct (s =? ms)%float]; by apply IH.
Qed.

(** ** The statistics of finished games *)

(** [backpropagate] passes through nodes that have a child, the node it
    starts from apart. *)
Lemma backpropagate_childless fuel v r (w w' : World) res :
  moves_ok (heap w) →
  backpropagate fuel v r w = (res, w') →
  ∀ j n, heap w !! j = Some n → children n = [] →
    heap w' !! j = Some n
    ∨ (j = v ∧ heap w' !! j = Some (record_result r n)).
Proof.
  revert v r w. induction fuel as [|fuel IH]; intros v r w Hm.
  { cbn. intros [= <- <-] j n Hj _. by left. }
  cbn [backpropagate]. rewrite run_bind. unfold get_node at 1, deref.
  destruct (heap w !! v) as [sn|] eqn:Hv; [|intros [= <- <-] j n Hj _; by left].
  rewrite run_bind. cbn [update_node].
  set (w1 := with_heap (alter (record_result r) v (heap w)) w).
  assert (Hstep : ∀ j n, heap w !! j = Some n →
            heap w1 !! j = Some (if decide (j = v) then record_result r n else n)).
  { intros j n Hj. subst w1. rewrite with_heap_heap.
    destruct (decide (j = v)) as [->|Hne].
    - by rewrite list_lookup_alter_eq, Hj.
    - by rewrite list_lookup_alter_ne. }
  destruct (parent sn) as [p|] eqn:Hpar.
  - intros Hrec j n Hj Hnil.
    destruct (Hm _ _ _ Hv Hpar) as (pn & a & Hp & Hin & _).
    assert (Hjp : j ≠ p).
    { intros ->. assert (pn = n) as -> by congruence.
      rewrite Hnil in Hin. by apply elem_of_nil in Hin. }
    assert (Hm1 : moves_ok (heap w1)).
    { eapply moves_ok_frame; [|exact Hm]. subst w1. rewrite with_heap_heap.
      apply record_result_frame. }
    specialize (Hstep _ _ Hj).
    destruct (decide (j = v)) as [->|Hne].
    + destruct (IH _ _ _ Hm1 Hrec _ _ Hstep Hnil) as [Hk|[Heq _]]; [|done].
      by right.
    + destruct (IH _ _ _ Hm1 Hrec _ _ Hstep Hnil) as [Hk|[Heq _]]; [|done].
      by left.
  - intros [= <- <-] j n Hj Hnil. specialize (Hstep _ _ Hj).
    destruct (decide (j = v)) as [->|Hne]; [by right|by left].
Qed.

Lemma terminal_stats_backpropagate fuel v r (w w' : World) res :
  moves_ok (heap w) → terminal_childless (heap w) → terminal_stats (heap w) →
  (∀ vn, heap w !! v = Some vn → is_terminal_node vn = true →
         r = outcome_of (state vn)) →
  backpropagate fuel v r w = (res, w') → terminal_stats (heap w').
Proof.
  intros Hm Htc Hts Hr Hbp j n' Hj Hterm.
  pose proof (backpropagate_same_frame _ _ _ _ _ _ Hbp) as Hf.
  destruct (Forall2_lookup_r _ _ _ _ _ Hf Hj) as (n & Hn & (Hst & _)).
  assert (Hterm0 : is_terminal_node n = true).
  { unfold is_terminal_node in *. by rewrite <- Hst. }
  destruct (backpropagate_childless _ _ _ _ _ _ Hm Hbp _ _ Hn (Htc _ _ Hn Hterm0))
    as [Hk|[-> Hk]].
  - assert (n' = n) as -> by congruence. by apply (Hts j).
  - assert (n' = record_result r n) as -> by congruence. cbn.
    rewrite (Hr _ Hn Hterm0), (Hts _ _ Hn Hterm0). lia.
Qed.

Lemma terminal_stats_expanded (h : store) i (sn : node) act untried :
  terminal_stats h → h !! i = Some sn →
  terminal_stats (expanded h i sn act untried).
Proof.
  intros Hts Hi j n. rewrite expanded_lookup by done.
  destruct (decide (j = i)) as [->|_]; [|destruct (decide (j = length h)) as [->|_]].
  - intros [= <-]. unfold is_terminal_node. cbn. by apply (Hts i).
  - intros [= <-]. cbn. lia.
  - apply Hts.
Qed.

(** ** The way of [tree_policy] through the tree *)

Lemma tree_policy_loop_path fuel cur (w w' : World) v :
  tree_policy_loop fuel cur w = (Ok v, w') →
  ∃ last ln,
    rtc (descends (heap w)) cur last ∧ heap w !! last = Some ln
    ∧ ((is_terminal_node ln = true ∧ v = last ∧ w' = w)
       ∨ (is_terminal_node ln = false ∧ is_fully_expanded ln = false
          ∧ v = length (heap w)
          ∧ ∃ act untried,
              act ∈ untried_actions ln
              ∧ list_remove act (untried_actions ln) = Ok untried
              ∧ heap w' = expanded (heap w) last ln act untried
              ∧ node_no w' = node_no w + 1 ∧ queue w' = queue w
              ∧ rand_calls w' = S (rand_calls w)
              ∧ time_calls w' = time_calls w)).
Proof.
  revert cur. induction fuel as [|fuel IH]; intros cur; cbn [tree_policy_loop]; [done|].
  rewrite run_bind. unfold get_node at 1, deref.
  destruct (heap w !! cur) as [cn|] eqn:Hcur; [|done].
  destruct (is_terminal_node cn) eqn:Hterm; cbn [negb].
  { rewrite run_ret. intros [= <- <-]. exists cur, cn.
    split_and!; [apply rtc_refl|done|]. by left. }
  destruct (is_fully_expanded cn) eqn:Hfull; cbn [negb].
  - rewrite run_bind. unfold best_child_of at 1.
    destruct (best_child (heap w) cur 0.5) as [next|e|] eqn:Hbc; [|done..].
    intros (last & ln & Hrtc & Hrest)%IH. exists last, ln. split; [|done].
    eapply rtc_l; [|exact Hrtc]. by exists cn.
  - rewrite run_bind.
    destruct (expand cur w) as [re w1] eqn:Hex.
    apply expand_spec in Hex
      as [(sn & act & untried & Hi & Hin & Hrm & -> & ->)|[[->| ->] ->]]; [|done..].
    rewrite run_bind. cbn. intros [= <- <-].
    assert (sn = cn) as -> by congruence.
    exists cur, cn. split_and!; [apply rtc_refl|done|]. right.
    split_and!; [done..|]. by exists act, untried.
Qed.

(** ** A search keeps to its own tree *)

Lemma closed_from_frame r0 (h h' : store) :
  Forall2 same_frame h h' → closed_from r0 h → closed_from r0 h'.
Proof.
  intros Hf Hc j n' Hj Hle.
  destruct (Forall2_lookup_r _ _ _ _ _ Hf Hj) as (n & Hn & (_ & Hpar & Hch & _)).
  rewrite Hpar, Hch. by apply (Hc j).
Qed.

Lemma closed_from_expanded r0 (h : store) i (sn : node) act untried :
  closed_from r0 h → h !! i = Some sn → (r0 ≤ i)%nat →
  closed_from r0 (expanded h i sn act untried)
  ∧ ∀ j, (j < r0)%nat → expanded h i sn act untried !! j = h !! j.
Proof.
  intros Hc Hi Hle. pose proof (lookup_lt_Some _ _ _ Hi) as Hlt. split.
  - intros j n. rewrite expanded_lookup by done.
    destruct (decide (j = i)) as [->|_]; [|destruct (decide (j = length h)) as [->|_]].
    + intros [= <-] _. destruct (Hc _ _ Hi Hle) as [Hp Hch]. cbn. split; [done|].
      intros c [Hin| ->%list_elem_of_singleton]%elem_of_app; [by apply Hch|lia].
    + intros [= <-] _. cbn. split.
      * by intros p [= <-].
      * intros c Hin. by apply elem_of_nil in Hin.
    + apply Hc.
  - intros j Hj. rewrite expanded_lookup by done.
    rewrite decide_False by lia. by rewrite decide_False by lia.
Qed.

Lemma backpropagate_outside r0 fuel v r (w w' : World) res :
  closed_from r0 (heap w) → (r0 ≤ v)%nat →
  backpropagate fuel v r w = (res, w') →
  ∀ j, (j < r0)%nat → heap w' !! j = heap w !! j.
Proof.
  revert v r w. induction fuel as [|fuel IH]; intros v r w Hc Hle.
  { cbn. by intros [= <- <-]. }
  cbn [backpropagate]. rewrite run_bind. unfold get_node at 1, deref.
  destruct (heap w !! v) as [sn|] eqn:Hv; [|by intros [= <- <-]].
  rewrite run_bind. cbn [update_node].
  assert (Hstep : ∀ j, (j < r0)%nat →
            alter (record_result r) v (heap w) !! j = heap w !! j).
  { intros j Hj. apply list_lookup_alter_ne. lia. }
  destruct (parent sn) as [p|] eqn:Hpar.
  - intros Hrec j Hj. rewrite <- (Hstep j Hj).
    assert (Hc1 : closed_from r0
                    (heap (with_heap (alter (record_result r) v (heap w)) w))).
    { rewrite with_heap_heap. eapply closed_from_frame; [|exact Hc].
      apply record_result_frame. }
    assert (Hp : (r0 ≤ p)%nat).
    { destruct (Hc _ _ Hv Hle) as [Hp _]. by apply Hp. }
    by rewrite (IH p (- r) _ Hc1 Hp Hrec j Hj).
  - intros [= <- <-] j Hj. rewrite with_heap_heap. by apply Hstep.
Qed.

Lemma descends_from r0 (h : store) x y :
  closed_from r0 h → (r0 ≤ x)%nat → rtc (descends h) x y → (r0 ≤ y)%nat.
Proof.
  intros Hc Hle Hrtc. induction Hrtc as [|x y z (xn & Hx & _ & _ & Hbc) _ IH]; [done|].
  apply IH. apply best_child_elem in Hbc as (sn & Hsn & Hin).
  assert (sn = xn) as -> by congruence.
  destruct (Hc _ _ Hx Hle) as [_ Hch]. by apply Hch.
Qed.

Lemma tree_policy_loop_local r0 fuel cur (w w' : World) r :
  closed_from r0 (heap w) → (r0 ≤ cur)%nat →
  tree_policy_loop fuel cur w = (r, w') →
  closed_from r0 (heap w')
  ∧ (∀ j, (j < r0)%nat → heap w' !! j = heap w !! j)
  ∧ ∀ v, r = Ok v → (r0 ≤ v)%nat.
Proof.
  intros Hc Hle Htp. destruct r as [v|e|].
  - apply tree_policy_loop_path in Htp
      as (last & ln & Hrtc & Hlast & [(_ & -> & ->)|(_ & _ & -> & Hex)]).
    + split_and!; [done|done|]. intros v [= <-]. by eapply descends_from.
    + destruct Hex as (act & untried & _ & _ & -> & _).
      pose proof (descends_from _ _ _ _ Hc Hle Hrtc) as Hl.
      destruct (closed_from_expanded r0 _ _ _ act untried Hc Hlast Hl) as [H1 H2].
      split_and!; [done|done|]. intros v [= <-].
      apply lookup_lt_Some in Hlast. lia.
  - apply tree_policy_loop_shape in Htp as [[-> _]|(? & ? & ? & ? & _ & _ & _ & _ & [=] & _)].
    split_and!; done.
  - apply tree_policy_loop_shape in Htp as [[-> _]|(? & ? & ? & ? & _ & _ & _ & _ & [=] & _)].
    split_and!; done.
Qed.

Lemma simulate_local r0 fuel self (w w' : World) r :
  closed_from r0 (heap w) → (r0 ≤ root self)%nat →
  simulate fuel self w = (r, w') →
  closed_from r0 (heap w')
  ∧ ∀ j, (j < r0)%nat → heap w' !! j = heap w !! j.
Proof.
  intros Hc Hle. unfold simulate, tree_policy. rewrite run_bind.
  destruct (tree_policy_loop fuel (root self) w) as [rt w1] eqn:Htp.
  apply (tree_policy_loop_local r0) in Htp as (Hc1 & Hold1 & Hv); [|done..].
  destruct rt as [v|e|]; [|by intros [= <- <-]..].
  specialize (Hv _ eq_refl). rewrite run_bind.
  destruct (playout_policy fuel v (player_id self) w1) as [rp w2] eqn:Hpo.
  apply playout_policy_world in Hpo as (Hh2 & _).
  destruct rp as [reward|e|]; [|intros [= <- <-]; by rewrite Hh2..].
  rewrite run_bind.
  destruct (backpropagate fuel v reward w2) as [rb w3] eqn:Hbp.
  assert (closed_from r0 (heap w3) ∧ ∀ j, (j < r0)%nat → heap w3 !! j = heap w !! j).
  { split.
    - eapply closed_from_frame; [by eapply backpropagate_same_frame|].
      by rewrite Hh2.
    - intros j Hj. rewrite <- (Hold1 j Hj), <- Hh2.
      eapply backpropagate_outside; [|exact Hv|exact Hbp|exact Hj].
      by rewrite Hh2. }
  destruct rb; by intros [= <- <-].
Qed.

Lemma search_loop_local r0 turns fuel self start t (w w' : World) r :
  closed_from r0 (heap w) → (r0 ≤ root self)%nat →
  search_loop turns fuel self start t w = (r, w') →
  ∀ j, (j < r0)%nat → heap w' !! j = heap w !! j.
Proof.
  intros Hc Hle. revert w w' r Hc.
  induction turns as [|turns IH]; intros w w' r Hc; cbn [search_loop].
  { by intros [= <- <-]. }
  rewrite run_bind. cbn [time_time].
  destruct (within_allowed_time start (wall_clock (time_calls w)) t);
    [|by intros [= <- <-]].
  rewrite run_bind.
  destruct (simulate fuel self (ticked w)) as [rs w1] eqn:Hsim.
  apply (simulate_local r0) in Hsim as [Hc1 Hold1]; [|done..].
  destruct rs as [v|e|]; [|by intros [= <- <-]..].
  rewrite run_bind.
  destruct (search_loop turns fuel self start t w1) as [rl w2] eqn:Hloop.
  pose proof (IH _ _ _ Hc1 Hloop) as Hold2.
  assert (∀ j, (j < r0)%nat → heap w2 !! j = heap w !! j).
  { intros j Hj. rewrite (Hold2 j Hj). by apply Hold1. }
  destruct rl; by intros [= <- <-].
Qed.

Lemma best_action_local r0 fuel self b c_param (w : World) :
  closed_from r0 (heap w) → (r0 ≤ root self)%nat →
  ∀ j, (j < r0)%nat → heap (best_action fuel self b c_param w).2 !! j = heap w !! j.
Proof.
  intros Hc Hle. unfold best_action. rewrite run_bind. cbn [time_time].
  rewrite run_bind. unfold lift at 1.
  destruct (allowed_time_of b) as [t|e|]; [|done..].
  rewrite run_bind.
  destruct (search_loop fuel fuel self (wall_clock (time_calls w)) t (ticked w))
    as [rl w1] eqn:Hloop.
  pose proof (search_loop_local r0 _ _ _ _ _ (ticked w) _ _ Hc Hle Hloop) as Hold.
  destruct rl as [vs|e|]; [|done..].
  rewrite run_bind. unfold best_child_of at 1.
  destruct (best_child (heap w1) (root self) c_param) as [next|e|]; [|done..].
  rewrite run_bind. unfold get_node, deref.
  by destruct (heap w1 !! next).
Qed.

Lemma mcts_engine_local fuel st (w : World) j :
  (j < length (heap w))%nat → heap (mcts_engine fuel st w).2 !! j = heap w !! j.
Proof.
  intros Hj. rewrite mcts_engine_unfold.
  rewrite (best_action_local (length (heap w))); [| |done|done].
  - cbn. by rewrite lookup_app_l.
  - cbn. intros k n [Hk|[_ Hk]]%lookup_app_Some Hle.
    + apply lookup_lt_Some in Hk. lia.
    + apply list_lookup_singleton_Some in Hk as [_ <-]. cbn. split; [done|].
      intros c Hin. by apply elem_of_nil in Hin.
Qed.

(** ** Utilities add up to zero along the tree *)

Lemma sum_utilities_cons (h : store) c cs :
  sum_utilities h (c :: cs) = utility_of h c + sum_utilities h cs.
Proof. reflexivity. Qed.

Lemma sum_utilities_ext (h h' : store) cs :
  (∀ c, c ∈ cs → utility_of h' c = utility_of h c) →
  sum_utilities h' cs = sum_utilities h cs.
Proof.
  induction cs as [|c cs IH]; intros Hu; [done|].
  rewrite !sum_utilities_cons, Hu by apply list_elem_of_here. rewrite IH; [done|].
  intros c' Hc'. apply Hu. by apply list_elem_of_further.
Qed.

Lemma sum_utilities_app (h : store) cs1 cs2 :
  sum_utilities h (cs1 ++ cs2) = sum_utilities h cs1 + sum_utilities h cs2.
Proof.
  induction cs1 as [|c cs1 IH]; [done|].
  rewrite <- app_comm_cons, !sum_utilities_cons, IH. lia.
Qed.

Lemma utility_of_record_result (h : store) v r j :
  utility_of (alter (record_result r) v h) j =
  utility_of h j + (if decide (v = j) then match h !! v with Some _ => r | None => 0 end
                    else 0).
Proof.
  unfold utility_of. destruct (decide (v = j)) as [<-|Hne].
  - rewrite list_lookup_alter_eq. destruct (h !! v); cbn; lia.
  - rewrite list_lookup_alter_ne by done. lia.
Qed.

Lemma sum_utilities_record_result (h : store) v r cs :
  NoDup cs → is_Some (h !! v) →
  sum_utilities (alter (record_result r) v h) cs =
  sum_utilities h cs + (if decide (v ∈ cs) then r else 0).
Proof.
  intros Hnd [n Hv]. induction Hnd as [|c cs Hc Hnd IH].
  - rewrite decide_False by apply not_elem_of_nil. cbn. lia.
  - rewrite !sum_utilities_cons, IH, utility_of_record_result, Hv.
    destruct (decide (v = c)) as [->|Hne].
    + rewrite (decide_True (P := c ∈ c :: cs)) by apply list_elem_of_here.
      rewrite (decide_False (P := c ∈ cs)) by done. lia.
    + destruct (decide (v ∈ cs)) as [Hin|Hin].
      * rewrite decide_True by (by apply list_elem_of_further). lia.
      * rewrite decide_False; [lia|]. rewrite elem_of_cons. tauto.
Qed.

Lemma expanded_stats (h : store) i (sn : node) act untried j :
  h !! i = Some sn →
  visit_of (expanded h i sn act untried) j = visit_of h j
  ∧ utility_of (expanded h i sn act untried) j = utility_of h j.
Proof.
  intros Hi. pose proof (lookup_lt_Some _ _ _ Hi) as Hlt.
  unfold visit_of, utility_of. rewrite expanded_lookup by done.
  destruct (decide (j = i)) as [->|_]; [by rewrite Hi|].
  destruct (decide (j = length h)) as [->|_]; [|done].
  by rewrite (lookup_ge_None_2 h) by lia.
Qed.

Lemma balanced_expanded (h : store) i (sn : node) act untried :
  balanced h → h !! i = Some sn → balanced (expanded h i sn act untried).
Proof.
  intros Hb Hi.
  assert (Hsv : ∀ cs, sum_visits (expanded h i sn act untried) cs = sum_visits h cs).
  { intros cs. apply sum_visits_ext. intros c _. by apply expanded_stats. }
  assert (Hsu : ∀ cs, sum_utilities (expanded h i sn act untried) cs
                      = sum_utilities h cs).
  { intros cs. apply sum_utilities_ext. intros c _. by apply expanded_stats. }
  pose proof (lookup_lt_Some _ _ _ Hi) as Hlt.
  assert (Hnew : visit_of h (length h) = 0 ∧ utility_of h (length h) = 0).
  { unfold visit_of, utility_of. by rewrite (lookup_ge_None_2 h) by lia. }
  destruct Hnew as [Hnv Hnu].
  intros j n. rewrite expanded_lookup by done. unfold own_visits, net_utility.
  rewrite Hsv, Hsu.
  destruct (decide (j = i)) as [->|_]; [|destruct (decide (j = length h)) as [->|_]].
  - intros [= <-]. cbn [children append_child set_untried_actions visit utility].
    rewrite sum_visits_app, sum_utilities_app, sum_visits_cons, sum_utilities_cons.
    rewrite Hnv, Hnu. specialize (Hb _ _ Hi). unfold own_visits, net_utility in Hb.
    cbn. lia.
  - intros [= <-]. cbn. lia.
  - apply Hb.
Qed.

Lemma backpropagate_balance fuel v r (w w' : World) :
  links_ok (heap w) → -1 ≤ r ≤ 1 →
  (∀ j n, j ≠ v → heap w !! j = Some n →
     - own_visits (heap w) n ≤ net_utility (heap w) n ≤ own_visits (heap w) n) →
  (∀ n, heap w !! v = Some n →
     - (own_visits (heap w) n + 1) ≤ net_utility (heap w) n + r
     ≤ own_visits (heap w) n + 1) →
  backpropagate fuel v r w = (Ok (), w') →
  balanced (heap w').
Proof.
  revert v r w. induction fuel as [|fuel IH]; intros v r w Hl Hr Hoth Hat; [done|].
  cbn [backpropagate]. rewrite run_bind. unfold get_node at 1, deref.
  destruct (heap w !! v) as [sn|] eqn:Hv; [|done].
  rewrite run_bind. cbn [update_node].
  set (h1 := alter (record_result r) v (heap w)).
  assert (Hl1 : links_ok h1).
  { eapply links_ok_frame; [|exact Hl]. apply record_result_frame. }
  assert (Hsum : ∀ j n, heap w !! j = Some n →
            (v ∈ children n → parent sn = Some j)
            ∧ sum_visits h1 (children n)
              = sum_visits (heap w) (children n)
                + (if decide (v ∈ children n) then 1 else 0)
            ∧ sum_utilities h1 (children n)
              = sum_utilities (heap w) (children n)
                + (if decide (v ∈ children n) then r else 0)).
  { intros j n Hj. destruct (Hl _ _ Hj) as (_ & Hch & Hnd). split_and!.
    - intros Hin. destruct (Hch _ Hin) as (m & Hm & Hpm). congruence.
    - subst h1. by rewrite sum_visits_record_result by (done || by rewrite Hv).
    - subst h1. by rewrite sum_utilities_record_result by (done || by rewrite Hv). }
  assert (Hself : ∀ j n, h1 !! j = Some n →
            ∃ n0, heap w !! j = Some n0 ∧ children n = children n0
                  ∧ visit n = visit n0 + (if decide (v = j) then 1 else 0)
                  ∧ utility n = utility n0 + (if decide (v = j) then r else 0)).
  { intros j n. subst h1. destruct (decide (v = j)) as [<-|Hne].
    - rewrite list_lookup_alter_eq, Hv. intros [= <-]. by exists sn.
    - rewrite list_lookup_alter_ne by done. intros Hj. exists n.
      split_and!; [done..|lia|lia]. }
  assert (Hvv : ∀ n, heap w !! v = Some n → v ∉ children n).
  { intros n Hn Hin. destruct (Hl _ _ Hn) as (Hp & Hch & _).
    destruct (Hch _ Hin) as (m & Hm & Hpm). assert (m = n) as -> by congruence.
    specialize (Hp _ Hpm). lia. }
  destruct (parent sn) as [p|] eqn:Hpar.
  - assert (Hpv : p ≠ v).
    { destruct (Hl _ _ Hv) as (Hp & _). specialize (Hp _ Hpar). lia. }
    intros Hrec. eapply (IH p (- r) (with_heap h1 w)); [done|lia| | |exact Hrec];
      rewrite with_heap_heap.
    + intros j n Hjp Hj. destruct (Hself _ _ Hj) as (n0 & Hn0 & Hch & Hvis & Hut).
      destruct (Hsum _ _ Hn0) as (Hpar' & Hsv & Hsu).
      unfold own_visits, net_utility. rewrite Hch, Hsv, Hsu, Hvis, Hut.
      destruct (decide (v ∈ children n0)) as [Hin|_];
        [specialize (Hpar' Hin); congruence|].
      destruct (decide (v = j)) as [<-|Hne].
      * assert (n0 = sn) as -> by congruence. specialize (Hat _ eq_refl).
        unfold own_visits, net_utility in Hat. lia.
      * specialize (Hoth _ _ (not_eq_sym Hne) Hn0).
        unfold own_visits, net_utility in Hoth. lia.
    + intros n Hj. destruct (Hself _ _ Hj) as (n0 & Hn0 & Hch & Hvis & Hut).
      destruct (Hsum _ _ Hn0) as (_ & Hsv & Hsu).
      unfold own_visits, net_utility. rewrite Hch, Hsv, Hsu, Hvis, Hut.
      destruct (decide (v = p)) as [|_]; [congruence|].
      specialize (Hoth _ _ Hpv Hn0). unfold own_visits, net_utility in Hoth.
      destruct (decide (v ∈ children n0)); lia.
  - intros [= <-]. rewrite with_heap_heap. intros j n Hj.
    destruct (Hself _ _ Hj) as (n0 & Hn0 & Hch & Hvis & Hut).
    destruct (Hsum _ _ Hn0) as (Hpar' & Hsv & Hsu).
    unfold own_visits, net_utility. rewrite Hch, Hsv, Hsu, Hvis, Hut.
    destruct (decide (v ∈ children n0)) as [Hin|_];
      [specialize (Hpar' Hin); congruence|].
    destruct (decide (v = j)) as [<-|Hne].
    + assert (n0 = sn) as -> by congruence. specialize (Hat _ eq_refl).
      unfold own_visits, net_utility in Hat. lia.
    + specialize (Hoth _ _ (not_eq_sym Hne) Hn0).
      unfold own_visits, net_utility in Hoth. lia.
Qed.

Lemma simulate_balanced fuel self (w w' : World) v :
  tree_ok (heap w) → balanced (heap w) → is_Some (heap w !! root self) →
  simulate fuel self w = (Ok v, w') → balanced (heap w').
Proof.
  intros Hok Hb Hroot. unfold simulate, tree_policy. rewrite run_bind.
  destruct (tree_policy_loop fuel (root self) w) as [rt w1] eqn:Htp.
  assert (Hb1 : balanced (heap w1)).
  { apply tree_policy_loop_shape in Htp
      as [[-> _]|(i & sn & act & untried & Hi & _ & _ & _ & _ & -> & _)];
      [done|by apply balanced_expanded]. }
  apply (tree_policy_loop_spec _ _ (root self)) in Htp;
    [|done|by apply ancestors_self].
  destruct rt as [v1|e|]; [|done..].
  destruct Htp as (Hl1 & _).
  rewrite run_bind.
  destruct (playout_policy fuel v1 (player_id self) w1) as [rp w2] eqn:Hpo.
  pose proof (playout_policy_world _ _ _ _ _ _ Hpo) as (Hh2 & _).
  destruct rp as [reward|e|]; [|done..].
  apply playout_policy_outcome in Hpo as [Hr _].
  rewrite run_bind.
  destruct (backpropagate fuel v1 reward w2) as [rb w3] eqn:Hbp.
  destruct rb as [[]|e|]; [|done..].
  rewrite run_ret. intros [= _ <-].
  eapply backpropagate_balance; [| | | |exact Hbp]; rewrite ?Hh2; [done|done| |].
  - intros j n _ Hj. by apply (Hb1 j).
  - intros n Hn. specialize (Hb1 _ _ Hn). lia.
Qed.

Lemma search_loop_balanced turns fuel self start t (w w' : World) vs :
  tree_ok (heap w) → balanced (heap w) → is_Some (heap w !! root self) →
  search_loop turns fuel self start t w = (Ok vs, w') → balanced (heap w').
Proof.
  revert w w' vs. induction turns as [|turns IH]; intros w w' vs Hok Hb Hroot;
    cbn [search_loop]; [done|].
  rewrite run_bind. cbn [time_time].
  destruct (within_allowed_time start (wall_clock (time_calls w)) t);
    [|by intros [= _ <-]].
  rewrite run_bind.
  destruct (simulate fuel self (ticked w)) as [rs w1] eqn:Hsim.
  destruct rs as [v|e|]; [|done..].
  pose proof (simulate_balanced _ _ (ticked w) _ _ Hok Hb Hroot Hsim) as Hb1.
  apply simulate_spec in Hsim as (Hok1 & Hg1 & _); [|done..].
  assert (Hroot1 : is_Some (heap w1 !! root self)).
  { destruct Hroot as [rn Hrn]. destruct (Hg1 _ _ Hrn) as (rn' & ? & _). eauto. }
  rewrite run_bind.
  destruct (search_loop turns fuel self start t w1) as [rl w2] eqn:Hloop.
  destruct rl as [vs'|e|]; [|done..].
  rewrite run_ret. intros [= _ <-]. by eapply IH.
Qed.

(** X1: [node_no] counts the nodes of the tree.  A search that
    [get_action] starts leaves in [node_no] the number of nodes it has put
    into the store, the root included, however it ends; and any call of
    [best_action] raises [node_no] by the number of nodes it creates. *)
Theorem node_no_counts_nodes (fuel : nat) (st : State) (self : MCTSSearch)
    (b : Z) (c_param : float) (w : World) :
  node_no (mcts_engine fuel st w).2
  = Z.of_nat (length (heap (mcts_engine fuel st w).2)) - Z.of_nat (length (heap w))
  ∧ node_no (best_action fuel self b c_param w).2 - node_no w
    = Z.of_nat (length (heap (best_action fuel self b c_param w).2))
      - Z.of_nat (length (heap w)).
Proof.
  split.
  - rewrite mcts_engine_unfold.
    destruct (best_action _ _ _ _ _) as [r w'] eqn:Hba.
    apply best_action_frame in Hba as (_ & Hn & _).
    cbn in Hn. rewrite length_app in Hn. cbn in Hn. cbn [snd]. lia.
  - destruct (best_action _ _ _ _ _) as [r w'] eqn:Hba.
    by apply best_action_frame in Hba as (_ & Hn & _).
Qed.

(** X7: [best_action] looks at the clock between turns only.  A call
    that returns has read the clock once to start with and once before each
    turn it ran, and at no other time: the turns it ran are as many as the
    readings that lay within the deadline before the first that lay beyond
    it.  A turn is never cut short, however late it ends. *)
Theorem best_action_reads_clock_between_turns (fuel : nat) (self : MCTSSearch)
    (b : Z) (c_param : float) (w w' : World) (oa : option Action) :
  best_action fuel self b c_param w = (Ok oa, w') →
  ∃ t turns,
    allowed_time_of b = Ok t
    ∧ time_calls w' = (time_calls w + turns + 2)%nat
    ∧ (∀ k, (1 ≤ k ≤ turns)%nat →
         within_allowed_time (wall_clock (time_calls w))
           (wall_clock (time_calls w + k)) t = true)
    ∧ within_allowed_time (wall_clock (time_calls w))
        (wall_clock (time_calls w + turns + 1)) t = false.
Proof.
  unfold best_action. rewrite run_bind. cbn [time_time]. rewrite run_bind.
  unfold lift at 1.
  destruct (allowed_time_of b) as [t|e|]; [|done..].
  rewrite run_bind.
  destruct (search_loop fuel fuel self (wall_clock (time_calls w)) t (ticked w))
    as [rl w1] eqn:Hloop.
  destruct rl as [vs|e|]; [|done..].
  apply search_loop_clock in Hloop as (Htc & Hbefore & Hlast). cbn in Htc, Hbefore, Hlast.
  rewrite run_bind. unfold best_child_of at 1.
  destruct (best_child (heap w1) (root self) c_param) as [next|e|]; [|done..].
  rewrite run_bind. unfold get_node, deref.
  destruct (heap w1 !! next); [|done].
  rewrite run_ret. intros [= _ <-].
  exists t, (length vs). split_and!; [done|lia| |].
  - intros k Hk. replace (time_calls w + k)%nat with (S (time_calls w) + (k - 1))%nat by lia.
    apply Hbefore. lia.
  - replace (time_calls w + length vs + 1)%nat
      with (S (time_calls w) + length vs)%nat by lia.
    done.
Qed.

(** X8: a playout plays legal moves to the end of the game.  When
    [playout_policy] returns, it has gone from the state of its node, by
    one legal action per draw, through unfinished games to a finished one;
    what it returns is 1 when the player who made the last move has won
    there, -1 when that player has lost, and 0 otherwise; it has changed
    nothing but the number of draws, and [player_id] plays no part in
    it. *)
Theorem playout_policy_plays_to_the_end (fuel : nat) (v : nat) (pid : Z)
    (w w' : World) (r : Z) :
  playout_policy fuel v pid w = (Ok r, w') →
  ∃ vn st' k,
    heap w !! v = Some vn
    ∧ nsteps plays k (state vn) st'
    ∧ isolation.terminal_test st' = true
    ∧ r = outcome_of st'
    ∧ w' = Nat.iter k drawn w
    ∧ ∀ pid', playout_policy fuel v pid' w = (Ok r, w').
Proof.
  intros Hrun. pose proof Hrun as Hrun'. revert Hrun.
  unfold playout_policy at 1. rewrite run_bind. unfold get_node at 1, deref.
  destruct (heap w !! v) as [sn|] eqn:Hv; [|done].
  rewrite run_bind.
  destruct (playout_loop fuel (state sn) w) as [rl w1] eqn:Hl.
  apply playout_loop_run in Hl as (k & st' & Hsteps & -> & _ & Hr).
  destruct rl as [st|e|]; [|done..].
  destruct Hr as (-> & Ht & _). intros Hres.
  exists sn, st', k. split_and!; [done..| | |done].
  - unfold outcome_of. revert Hres.
    destruct (_ =? infinity)%float; [|destruct (_ =? neg_infinity)%float];
      by intros [= <- _].
  - revert Hres.
    destruct (_ =? infinity)%float; [|destruct (_ =? neg_infinity)%float];
      by intros [= _ <-].
Qed.

(** X9: a playout comes to an end.  In a game in which every unfinished
    position has a legal action and some measure of the position goes down
    with every move, [playout_policy] returns from every node, whatever is
    drawn, once its loop is given more turns than the measure of the node's
    position: it neither raises nor runs on. *)
Theorem playout_policy_terminates (rank : State → nat) (fuel : nat) (v : nat)
    (pid : Z) (vn : node) (w : World) :
  (∀ s, isolation.terminal_test s = false → isolation.actions s ≠ []) →
  (∀ s a, isolation.terminal_test s = false → a ∈ isolation.actions s →
          (rank (isolation.result s a) < rank s)%nat) →
  heap w !! v = Some vn → (rank (state vn) < fuel)%nat →
  ∃ r w', playout_policy fuel v pid w = (Ok r, w') ∧ -1 ≤ r ≤ 1.
Proof.
  intros Hmove Hrank Hv Hlt.
  destruct (playout_loop_terminates rank fuel (state vn) w Hmove Hrank Hlt)
    as (st' & w' & Hl).
  assert (Hrun : ∃ r, playout_policy fuel v pid w = (Ok r, w')).
  { unfold playout_policy. rewrite run_bind. unfold get_node at 1, deref.
    rewrite Hv. rewrite run_bind, Hl.
    destruct (_ =? infinity)%float; [|destruct (_ =? neg_infinity)%float];
      by eexists. }
  destruct Hrun as [r Hrun]. exists r, w'. split; [done|].
  by apply playout_policy_outcome in Hrun as [Hb _].
Qed.

(** X10: the exceptions of a search.  Whatever the game, the store, the
    draws and the clock, the search [get_action] runs raises nothing but a
    [ValueError], a [ZeroDivisionError] or an [IndexError], and the
    [IndexError] only in a game that has an unfinished position without a
    legal action: [expand] is never called on a node that has no untried
    action left, and [best_child] never indexes past its candidates. *)
Theorem search_raises_three_exceptions (fuel : nat) (st : State) (w : World)
    (e : exn) :
  (mcts_engine fuel st w).1 = Raise e → search_error e.
Proof.
  rewrite mcts_engine_unfold.
  destruct (best_action _ _ _ _ _) as [r w'] eqn:Hba. cbn [fst]. intros ->.
  eapply best_action_raises; [|exact Hba]. lia.
Qed.

(** X11: [best_child] does not tolerate a child that was never visited.
    When the children before it have got their scores, a child whose visit
    count is 0 ends the call in a [ZeroDivisionError], its quotient
    [utility / visit] being computed first: an unvisited child is not
    preferred, it cannot be scored. *)
Theorem best_child_unvisited_child_raises (h : store) (self : nat) (sn : node)
    (c_param : float) (pre : list nat) (t : nat) (post : list nat) (tn : node) :
  h !! self = Some sn → children sn = pre ++ t :: post →
  (∀ c, c ∈ pre → is_Some (score_of h sn c_param c)) →
  h !! t = Some tn → visit tn = 0 →
  best_child h self c_param = Raise ZeroDivisionError.
Proof.
  intros Hs Hch Hpre Ht Hv. unfold best_child, deref. rewrite Hs. cbn.
  rewrite Hch, best_child_loop_app.
  destruct (best_child_loop_scored h sn c_param pre (-999) [] Hpre) as (ms & acc & ->).
  cbn [best_child_loop]. unfold deref. rewrite Ht. cbn.
  unfold score, py_truediv. rewrite Hv. cbn. done.
Qed.

(** X12: the statistics of a finished game.  In a tree that follows the
    game and in which the nodes of finished games are leaves, if the utility
    of every such node is its visit count times the outcome of its game (1
    when the player who made the last move has won, -1 when that player has
    lost, 0 otherwise), this is so after [best_action], however it ends:
    each visit of a finished game adds the outcome of that game, and
    nothing else ever reaches its node. *)
Theorem finished_games_score_their_outcome (fuel : nat) (self : MCTSSearch)
    (b : Z) (c_param : float) (w : World) :
  moves_ok (heap w) → terminal_childless (heap w) → terminal_stats (heap w) →
  terminal_stats (heap (best_action fuel self b c_param w).2).
Proof.
  intros Hm Htc Hts.
  apply (best_action_invariant
           (λ h, moves_ok h ∧ terminal_childless h ∧ terminal_stats h));
    [| |done].
  - intros h i sn act untried (H1 & H2 & H3) Hi Ht _ _. split_and!.
    + by apply moves_ok_expanded.
    + by apply terminal_childless_expanded.
    + by apply terminal_stats_expanded.
  - intros fuel' v r w0 w0' res (H1 & H2 & H3) _ Hr Hbp.
    pose proof (backpropagate_same_frame _ _ _ _ _ _ Hbp) as Hf. split_and!.
    + by eapply moves_ok_frame.
    + by eapply terminal_childless_frame.
    + by eapply terminal_stats_backpropagate.
Qed.

(** X13: [tree_policy] selects, then expands.  A call that returns has
    gone down from the root, from a node of an unfinished game that has no
    untried action left to its best child at [c_param = 0.5], as long as
    there was such a node; where it stopped it has either found a finished
    game, whose node it returns with nothing changed, or a node with an
    untried action, which it has expanded by one of them: the node returned
    is then the new child, and [node_no] is one more than before. *)
Theorem tree_policy_selects_then_expands (fuel : nat) (self : MCTSSearch)
    (w w' : World) (v : nat) :
  tree_policy fuel self w = (Ok v, w') →
  ∃ last ln,
    rtc (descends (heap w)) (root self) last ∧ heap w !! last = Some ln
    ∧ ((is_terminal_node ln = true ∧ v = last ∧ w' = w)
       ∨ (is_terminal_node ln = false ∧ is_fully_expanded ln = false
          ∧ v = length (heap w)
          ∧ ∃ act untried,
              act ∈ untried_actions ln
              ∧ list_remove act (untried_actions ln) = Ok untried
              ∧ heap w' = expanded (heap w) last ln act untried
              ∧ node_no w' = node_no w + 1 ∧ queue w' = queue w
              ∧ rand_calls w' = S (rand_calls w)
              ∧ time_calls w' = time_calls w)).
Proof. unfold tree_policy. apply tree_policy_loop_path. Qed.

(** X14: a search keeps to its own tree.  [get_action] leaves every node
    that was there before the call exactly as it was, whatever the position,
    the draws and the clock and however its search ends: the tree is built
    anew from the root of lines 197-198, [tree_policy] goes down through
    the children of that root only, and [backpropagate] stops at it. *)
Theorem get_action_leaves_older_nodes_alone (fuel : nat) (st : State) (w : World) :
  take (length (heap w)) (heap (get_action fuel st w).2) = heap w.
Proof.
  assert (Hpre : ∀ w1 : World,
            (∀ j, (j < length (heap w))%nat → heap w1 !! j = heap w !! j) →
            take (length (heap w)) (heap w1) = heap w).
  { intros w1 Hold. apply list_eq. intros j.
    destruct (decide (j < length (heap w))%nat) as [Hj|Hj].
    - rewrite lookup_take_lt by done. by apply Hold.
    - rewrite lookup_take_ge by lia. symmetry. apply lookup_ge_None_2. lia. }
  apply Hpre. intros j Hj.
  unfold get_action, get_action_with, try_except.
  destruct (isolation.terminal_test st || bool_decide (isolation.ply_count st < 2)).
  - rewrite run_bind.
    destruct (random_choice (isolation.actions st) w) as [rc w1] eqn:Hrc.
    by apply random_choice_inv in Hrc as [(a & -> & Hin & ->)|(-> & _ & ->)].
  - rewrite run_bind. pose proof (mcts_engine_local fuel st w j Hj) as Hloc.
    destruct (mcts_engine fuel st w) as [r w1]. cbn [snd] in Hloc.
    destruct r as [[a|]|e|]; cbn; [done| |done..].
    destruct (isolation.actions st) as [|x l] eqn:Hact; [done|].
    rewrite run_bind.
    destruct (random_choice (x :: l) w1) as [rc w2] eqn:Hrc.
    by apply random_choice_inv in Hrc as [(a & -> & Hin & ->)|(-> & _ & ->)].
Qed.

(** X15: what the children of a node have won, the node has lost.  From a
    tree as it is between two turns, in which for every node its utility
    and those of its children add up to a number between minus and plus the
    count of its visits that did not go on to a child, the completed turns
    of the loop of [best_action] lead to such a tree again: a result is
    recorded with one sign at a node and with the other at its parent.  A
    node all of whose visits went on to its children therefore has minus
    the sum of their utilities as its utility. *)
Theorem utilities_balance (turns fuel : nat) (self : MCTSSearch) (start : float)
    (t : Z) (w w' : World) (vs : list nat) :
  tree_ok (heap w) → balanced (heap w) → is_Some (heap w !! root self) →
  search_loop turns fuel self start t w = (Ok vs, w') →
  (∀ i n, heap w' !! i = Some n →
     - (visit n - sum_visits (heap w') (children n))
     ≤ utility n + sum_utilities (heap w') (children n)
     ≤ visit n - sum_visits (heap w') (children n))
  ∧ (∀ i n, heap w' !! i = Some n →
       visit n = sum_visits (heap w') (children n) →
       utility n = - sum_utilities (heap w') (children n)).
Proof.
  intros Hok Hb Hroot Hloop.
  pose proof (search_loop_balanced _ _ _ _ _ _ _ _ Hok Hb Hroot Hloop) as Hb'.
  split.
  - intros i n Hi. apply (Hb' i n Hi).
  - intros i n Hi Hv. specialize (Hb' i n Hi).
    unfold own_visits, net_utility in Hb'. lia.
Qed.

End Properties.

(** * The statements on the small game *)

Section Examples.

Import Toy.
Local Existing Instance toy_runtime.

Local Abbreviation toy_search := {| root := 0%nat; player_id := 0 |}.
Local Abbreviation toy_node := (MCTSNode (State := position) (Action := move)).

(** C1 (the program departs from it): when the loop of [best_action] ends
    with a root that has no child, the call does not return [None]; [max]
    is applied to an empty list and the call ends in a [ValueError].  So it
    is on the finished position [C], where every turn of the loop
    propagates from the root itself, and on the open position [A] when the
    clock is past the deadline at the first test of the loop. *)
Theorem best_action_childless_root_raises :
  (fst (mcts_engine 100 C empty_world) = Raise ValueError
   ∧ (children <$> heap (snd (mcts_engine 100 C empty_world)) !! 0%nat) = Some [])
  ∧ (fst (mcts_engine (runtime := late_runtime) 100 A empty_world) = Raise ValueError
     ∧ (children <$> heap (snd (mcts_engine (runtime := late_runtime) 100 A empty_world))
                     !! 0%nat) = Some []).
Proof. vm_compute. done. Qed.



(** A search of the opening position from a new root. *)
Lemma no_zero_visit_read_fresh :
  tree_ok (heap (fresh A))
  ∧ ((∀ r w', tree_policy 10 toy_search (fresh A) = (r, w') →
        r ≠ Raise ZeroDivisionError)
     ∧ (∀ b c_param r w',
          best_action 10 toy_search b c_param (fresh A) = (r, w') →
          r ≠ Raise ZeroDivisionError)
     ∧ (∀ st r w', mcts_engine 10 st (fresh A) = (r, w') → r ≠ Raise ZeroDivisionError)
     ∧ (∀ turns start t vs w',
          search_loop turns 10 toy_search start t (fresh A) = (Ok vs, w') →
          ∀ i n c m, heap w' !! i = Some n → c ∈ children n → heap w' !! c = Some m →
                     1 ≤ visit m)).
Proof.
  assert (Hok : tree_ok (heap (fresh A))).
  { apply (tree_ok_init [] A), tree_ok_nil. }
  split; [exact Hok|].
  apply (no_zero_visit_read 10 toy_search (fresh A) Hok).
  eexists. reflexivity.
Defined.


(** Four turns from a new root of the opening position, which propagate
    from the nodes 1, 2, 2 and 3. *)
Lemma visit_conservation_fresh :
  let w' := snd (search_loop 10 10 toy_search 0 113 (fresh A)) in
  (∀ j n, heap w' !! j = Some n →
     visit n = visit_of (heap (fresh A)) j
               + Z.of_nat (passes (heap w') [1; 2; 2; 3]%nat j))
  ∧ (∃ rn, heap w' !! root toy_search = Some rn
           ∧ visit rn = visit_of (heap (fresh A)) (root toy_search)
                        + Z.of_nat (length [1; 2; 2; 3]%nat))
  ∧ (∀ j n, heap w' !! j = Some n → sum_visits (heap w') (children n) ≤ visit n).
Proof.
  apply (visit_conservation 10 10 toy_search 0 113 (fresh A)).
  - apply (tree_ok_init [] A), tree_ok_nil.
  - eexists. reflexivity.
  - vm_compute. reflexivity.
Defined.






(** ** Runs for the further properties *)

Lemma fresh_terminal_childless : terminal_childless (heap (fresh A)).
Proof. intros [|i] n; cbn; [by intros [= <-]|done]. Qed.

Lemma fresh_moves_ok : moves_ok (heap (fresh A)).
Proof. intros [|i] n p; cbn; [by intros [= <-]|done]. Qed.

Lemma fresh_expansion_ok : expansion_ok (heap (fresh A)).
Proof.
  apply (expansion_ok_init [] A None None).
  split; intros i n; by rewrite lookup_nil.
Qed.

Lemma fresh_bounded_utility : bounded_utility (heap (fresh A)).
Proof. intros [|i] n; cbn; [by intros [= <-]|done]. Qed.

Lemma fresh_terminal_stats : terminal_stats (heap (fresh A)).
Proof. intros [|i] n; cbn; [by intros [= <-]|done]. Qed.

Lemma fresh_best_action :
  best_action 10 toy_search 150 0.5 (fresh A)
  = (Ok (Some toB), (best_action 10 toy_search 150 0.5 (fresh A)).2).
Proof. vm_compute. reflexivity. Qed.

(** The search of the opening position makes the nodes of [B] and of the
    finished game [C]; [C] stays a leaf. *)
Lemma finished_games_stay_leaves_fresh :
  terminal_childless (heap (fresh A))
  ∧ terminal_childless (heap (best_action 10 toy_search 150 0.5 (fresh A)).2)
  ∧ terminal_childless (heap (mcts_engine 10 A (fresh A)).2).
Proof.
  split; [exact fresh_terminal_childless|].
  apply (finished_games_stay_leaves 10 toy_search 150 0.5 A (fresh A)
           fresh_terminal_childless).
Defined.

Lemma search_tree_follows_the_game_fresh :
  moves_ok (heap (fresh A)) ∧ expansion_ok (heap (fresh A))
  ∧ ∀ i n p, heap (best_action 10 toy_search 150 0.5 (fresh A)).2 !! i = Some n →
      parent n = Some p →
      ∃ pn a, heap (best_action 10 toy_search 150 0.5 (fresh A)).2 !! p = Some pn
              ∧ i ∈ children pn ∧ action n = Some a
              ∧ a ∈ isolation.actions (state pn)
              ∧ state n = isolation.result (state pn) a.
Proof.
  split; [exact fresh_moves_ok|]. split; [exact fresh_expansion_ok|].
  apply (search_tree_follows_the_game 10 toy_search 150 0.5 (fresh A)
           fresh_moves_ok fresh_expansion_ok).
Defined.

(** The search of the opening position answers [toB]. *)
Lemma best_action_answers_legal_move_fresh :
  root_of (heap (fresh A)) 0 A
  ∧ best_action 10 toy_search 150 0.5 (fresh A)
    = (Ok (Some toB), (best_action 10 toy_search 150 0.5 (fresh A)).2)
  ∧ ∃ a, Some toB = Some a ∧ a ∈ isolation.actions A.
Proof.
  split; [exact (root_of_init [] A)|]. split; [exact fresh_best_action|].
  exact (best_action_answers_legal_move 10 toy_search 150 0.5 A (fresh A) _ _
           (root_of_init [] A) fresh_best_action).
Defined.

Lemma utility_within_visits_fresh :
  bounded_utility (heap (fresh A))
  ∧ bounded_utility (heap (best_action 10 toy_search 150 0.5 (fresh A)).2)
  ∧ bounded_utility (heap (mcts_engine 10 A (fresh A)).2).
Proof.
  split; [exact fresh_bounded_utility|].
  apply (utility_within_visits 10 toy_search 150 0.5 A (fresh A)
           fresh_bounded_utility).
Defined.

(** With a clock that is 31.25 ms further at every reading, the search of
    the opening position runs three turns: the readings at 31.25, 62.5 and
    93.75 ms lie within the 113 ms, the one at 125 ms does not. *)
Lemma best_action_reads_clock_between_turns_fresh :
  best_action 10 toy_search 150 0.5 (fresh A)
  = (Ok (Some toB), (best_action 10 toy_search 150 0.5 (fresh A)).2)
  ∧ ∃ t turns,
      allowed_time_of 150 = Ok t
      ∧ time_calls (best_action 10 toy_search 150 0.5 (fresh A)).2
        = (time_calls (fresh A) + turns + 2)%nat
      ∧ (∀ k, (1 ≤ k ≤ turns)%nat →
           within_allowed_time (wall_clock (time_calls (fresh A)))
             (wall_clock (time_calls (fresh A) + k)) t = true)
      ∧ within_allowed_time (wall_clock (time_calls (fresh A)))
          (wall_clock (time_calls (fresh A) + turns + 1)) t = false.
Proof.
  split; [exact fresh_best_action|].
  exact (best_action_reads_clock_between_turns 10 toy_search 150 0.5 (fresh A) _ _
           fresh_best_action).
Defined.

(** From the opening position the playout draws [toB], then [toE], and
    ends in [E], which the player who moved last has won. *)
Lemma playout_policy_plays_to_the_end_fresh :
  playout_policy 10 0 0 (fresh A) = (Ok 1, (playout_policy 10 0 0 (fresh A)).2)
  ∧ ∃ vn st' k,
      heap (fresh A) !! 0%nat = Some vn
      ∧ nsteps plays k (state vn) st'
      ∧ isolation.terminal_test st' = true
      ∧ 1 = outcome_of st'
      ∧ (playout_policy 10 0 0 (fresh A)).2 = Nat.iter k drawn (fresh A)
      ∧ ∀ pid', playout_policy 10 0 pid' (fresh A)
                = (Ok 1, (playout_policy 10 0 0 (fresh A)).2).
Proof.
  assert (Hrun : playout_policy 10 0 0 (fresh A)
                 = (Ok 1, (playout_policy 10 0 0 (fresh A)).2)).
  { vm_compute. reflexivity. }
  split; [exact Hrun|].
  exact (playout_policy_plays_to_the_end 10 0 0 (fresh A) _ 1 Hrun).
Defined.

(** The toy game is over after two moves at most. *)
Lemma playout_policy_terminates_toy :
  ∃ r w', playout_policy 3 0 0 (fresh A) = (Ok r, w') ∧ -1 ≤ r ≤ 1.
Proof.
  apply (playout_policy_terminates toy_rank 3 0 0 (MCTSNode_init A None None) (fresh A)).
  - intros []; cbn; done.
  - intros [] []; cbn; intros Ht Hin; try done; try lia;
      repeat (apply elem_of_cons in Hin as [Hin|Hin]; [done|]);
      by apply elem_of_nil in Hin.
  - reflexivity.
  - cbn. lia.
Defined.

(** A search of the finished game [C] ends in the [ValueError] of [max]. *)
Lemma search_raises_three_exceptions_finished :
  (mcts_engine 10 C (fresh A)).1 = Raise ValueError ∧ search_error ValueError.
Proof.
  assert (Hrun : (mcts_engine 10 C (fresh A)).1 = Raise ValueError).
  { vm_compute. reflexivity. }
  split; [exact Hrun|].
  exact (search_raises_three_exceptions 10 C (fresh A) ValueError Hrun).
Defined.

(** After [expand] alone the new child of the root has no visit yet. *)
Lemma best_child_unvisited_child_raises_expanded :
  best_child (heap (expand 0 (fresh A)).2) 0 0.5 = Raise ZeroDivisionError.
Proof.
  apply (best_child_unvisited_child_raises (heap (expand 0 (fresh A)).2) 0
           (append_child 1 (set_untried_actions [toC] (MCTSNode_init A None None)))
           0.5 [] 1 []
           (MCTSNode_init B (Some toB) (Some 0%nat))).
  - reflexivity.
  - reflexivity.
  - intros c Hc. by apply elem_of_nil in Hc.
  - reflexivity.
  - reflexivity.
Defined.

(** The node of the finished game [C], won by the player who moved there,
    is visited twice and has utility 2. *)
Lemma finished_games_score_their_outcome_fresh :
  (moves_ok (heap (fresh A)) ∧ terminal_childless (heap (fresh A))
   ∧ terminal_stats (heap (fresh A)))
  ∧ terminal_stats (heap (best_action 10 toy_search 150 0.5 (fresh A)).2).
Proof.
  split; [split_and!|].
  - exact fresh_moves_ok.
  - exact fresh_terminal_childless.
  - exact fresh_terminal_stats.
  - exact (finished_games_score_their_outcome 10 toy_search 150 0.5 (fresh A)
             fresh_moves_ok fresh_terminal_childless fresh_terminal_stats).
Defined.

(** On a new root of the opening position [tree_policy] expands the root. *)
Lemma tree_policy_selects_then_expands_fresh :
  tree_policy 10 toy_search (fresh A) = (Ok 1%nat, (tree_policy 10 toy_search (fresh A)).2)
  ∧ ∃ last ln,
      rtc (descends (heap (fresh A))) (root toy_search) last
      ∧ heap (fresh A) !! last = Some ln
      ∧ ((is_terminal_node ln = true ∧ 1%nat = last
          ∧ (tree_policy 10 toy_search (fresh A)).2 = fresh A)
         ∨ (is_terminal_node ln = false ∧ is_fully_expanded ln = false
            ∧ 1%nat = length (heap (fresh A))
            ∧ ∃ act untried,
                act ∈ untried_actions ln
                ∧ list_remove act (untried_actions ln) = Ok untried
                ∧ heap (tree_policy 10 toy_search (fresh A)).2
                  = expanded (heap (fresh A)) last ln act untried
                ∧ node_no (tree_policy 10 toy_search (fresh A)).2
                  = node_no (fresh A) + 1
                ∧ queue (tree_policy 10 toy_search (fresh A)).2 = queue (fresh A)
                ∧ rand_calls (tree_policy 10 toy_search (fresh A)).2
                  = S (rand_calls (fresh A))
                ∧ time_calls (tree_policy 10 toy_search (fresh A)).2
                  = time_calls (fresh A))).
Proof.
  assert (Hrun : tree_policy 10 toy_search (fresh A)
                 = (Ok 1%nat, (tree_policy 10 toy_search (fresh A)).2)).
  { vm_compute. reflexivity. }
  split; [exact Hrun|].
  exact (tree_policy_selects_then_expands 10 toy_search (fresh A) _ 1%nat Hrun).
Defined.


Lemma fresh_balanced : balanced (heap (fresh A)).
Proof.
  intros [|i] n; cbn; [|done]. intros [= <-].
  unfold own_visits, net_utility. cbn. lia.
Qed.

(** After four turns on the opening position the root has been visited
    four times, its children [B] and [C] twice each, and its utility is
    minus the sum of theirs. *)
Lemma utilities_balance_fresh :
  let w' := (search_loop 10 10 toy_search 0 113 (fresh A)).2 in
  search_loop 10 10 toy_search 0 113 (fresh A) = (Ok [1; 2; 2; 3]%nat, w')
  ∧ (∀ i n, heap w' !! i = Some n →
       - (visit n - sum_visits (heap w') (children n))
       ≤ utility n + sum_utilities (heap w') (children n)
       ≤ visit n - sum_visits (heap w') (children n))
  ∧ (∀ i n, heap w' !! i = Some n →
       visit n = sum_visits (heap w') (children n) →
       utility n = - sum_utilities (heap w') (children n)).
Proof.
  assert (Hrun : search_loop 10 10 toy_search 0 113 (fresh A)
                 = (Ok [1; 2; 2; 3]%nat,
                    (search_loop 10 10 toy_search 0 113 (fresh A)).2)).
  { vm_compute. reflexivity. }
  split; [exact Hrun|].
  apply (utilities_balance 10 10 toy_search 0 113 (fresh A) _ [1; 2; 2; 3]%nat).
  - apply (tree_ok_init [] A), tree_ok_nil.
  - exact fresh_balanced.
  - eexists. reflexivity.
  - exact Hrun.
Defined.


End Examples.
